(** * pinia-tera-json: the TERA file-sync plugin for Pinia

    A shallow embedding of the plugin source (one TypeScript class,
    [TeraFileSyncPlugin], and its two codec functions) together with the
    properties its specification states about it.

    Layout:
    - Part 1: runtime values and the Map/Set codec
      ([mapSetToObject], [objectToMapSet]);
    - Part 2: the plugin object, the host binding and asynchronous
      methods as resumable computations;
    - Part 3: the methods of the plugin;
    - Part 4: properties. *)

From stdpp Require Import gmap strings list fin_maps pretty.

#[local] Set Warnings "-register-all".
#[local] Open Scope string_scope.
#[local] Open Scope nat_scope.
#[local] Open Scope list_scope.

(** * Part 1: runtime values *)

(** Keys of a JS [Map].  A [Map] distinguishes the number [1] from the
    string ["1"]; the model keeps string keys and integer number keys. *)
Inductive mkey :=
| KStr (s : string)
| KNum (n : Z).

#[global] Instance mkey_eq_dec : EqDecision mkey.
Proof. solve_decision. Defined.

#[global] Instance mkey_countable : Countable mkey.
Proof.
  refine (inj_countable'
            (λ k, match k with KStr s => inl s | KNum n => inr n end)
            (λ x, match x with inl s => KStr s | inr n => KNum n end) _).
  by intros [].
Defined.

(** The values the codec traverses.  Numbers are carried opaquely (the
    codec never computes with them) and are modelled by integers.  A plain
    object is the finite map of its own enumerable properties and a [Map]
    the finite map of its entries: as for structural equality of JS values,
    the order of properties and of [Map] entries is not part of the value.
    A [Set] is the list of its members in insertion order.  Objects are
    finite trees, each with the prototype of its kind ([Object.prototype]
    for a plain object): sharing, cycles and other prototype chains are
    outside the model. *)
Inductive value :=
| VUndefined
| VNull
| VBool (b : bool)
| VNum (n : Z)
| VStr (s : string)
| VDate (t : Z)
| VArr (xs : list value)
| VObj (ps : gmap string value)
| VMap (es : gmap mkey value)
| VSet (xs : list value).

#[global] Instance value_inhabited : Inhabited value := populate VUndefined.

(** JS truthiness ([!x] is [negb (truthy x)]). *)
Definition truthy (v : value) : bool :=
  match v with
  | VUndefined | VNull => false
  | VBool b => b
  | VNum n => negb (n =? 0)%Z
  | VStr s => negb (String.eqb s "")
  | _ => true
  end.

(** Primitive values are compared by content, objects by identity. *)
Definition is_primitive (v : value) : bool :=
  match v with
  | VUndefined | VNull | VBool _ | VNum _ | VStr _ => true
  | _ => false
  end.

(** SameValueZero, the equality of [Set] membership.  In a tree of values
    two object nodes are always two different objects. *)
Definition same_value_zero (a b : value) : bool :=
  match a, b with
  | VUndefined, VUndefined => true
  | VNull, VNull => true
  | VBool x, VBool y => Bool.eqb x y
  | VNum x, VNum y => (x =? y)%Z
  | VStr x, VStr y => String.eqb x y
  | _, _ => false
  end.

(** [set.add(x)]: append unless a same-valued member is present. *)
Definition set_add (acc : list value) (x : value) : list value :=
  if existsb (same_value_zero x) acc then acc else acc ++ [x].

(** [new Set(xs)]. *)
Definition new_Set (xs : list value) : list value := foldl set_add [] xs.

(** Property-key coercion of a [Map] key: [obj[key]].  An integer is
    written with all its digits, as JS does below [10^21]; from there on
    JS writes the exponent form (['1e+21']), which is not rendered here:
    see [decimal_key]. *)
Definition key_to_string (k : mkey) : string :=
  match k with
  | KStr s => s
  | KNum n => pretty n
  end.

(** The keys [key_to_string] coerces as JS does. *)
Definition decimal_key (k : mkey) : bool :=
  match k with
  | KStr _ => true
  | KNum n => (Z.abs n <? 10 ^ 21)%Z
  end.

(** The property an assignment [obj[key] = v] creates on an ordinary
    object, if any.  The name [__proto__] is the accessor that [obj]
    inherits from [Object.prototype]: the assignment runs its setter and
    creates no own property (the setter makes [v] the prototype of [obj]
    when [v] is an object or [null], and does nothing otherwise).  Under
    every other name the assignment creates or overwrites an own
    property. *)
Definition own_key (key : string) : option string :=
  if decide (key = "__proto__") then None else Some key.

(** [entries.forEach(([k, v]) => { if (f k is a key j) acc[j] = v })]:
    the assignments are made from left to right, a later one overwriting
    an earlier one to the same key. *)
Definition assign_entries {K K' : Type} `{Countable K'}
    (f : K → option K') (acc : gmap K' value) (entries : list (K * value))
  : gmap K' value :=
  foldl (λ o kv, match f kv.1 with
                 | Some j => <[j := kv.2]> o
                 | None => o
                 end) acc entries.

(** [mapSetToObject]: Maps and Sets become plain tagged objects.

    The result is given by its own properties.  Where the source assigns
    an object to the name [__proto__] the object it returns has that
    object as its prototype, which a value of the model does not show;
    the statements below that depend on what is made of such a result
    are given for values without a key of that name ([representable],
    [canonical]).

    The [try]/[catch] of the source has no counterpart here: on a finite
    tree of the model no step of the traversal throws, as long as the
    nesting of the tree stays within the call stack of the engine.  Where
    it does not, the [catch] of the source returns a subtree unconverted:
    that is [mapSetToObject_within] below, which is this function when
    the stack has room for the nesting of the value.  The
    entries of a [Map] are assigned in the order of [map_to_list]; JS
    assigns them in insertion order, which makes a difference only when
    two keys coerce to the same property name (the later assignment wins,
    and one entry is lost in either order). *)
Fixpoint mapSetToObject (item : value) : value :=
  match item with
  | VMap es =>
      VObj (assign_entries (λ k, own_key (key_to_string k))
              {[ "__isMap" := VBool true ]}
              (map_to_list (mapSetToObject <$> es)))
  | VSet xs =>
      VObj {[ "__isSet" := VBool true;
              "values" := VArr (mapSetToObject <$> xs) ]}
  | VArr xs => VArr (mapSetToObject <$> xs)
  | VObj ps =>
      VObj (assign_entries own_key ∅ (map_to_list (mapSetToObject <$> ps)))
  | _ => item
  end.

(** The nesting of a value: the number of calls of the codec that are
    open at once while it is traversed, less one. *)
Fixpoint depth (v : value) : nat :=
  match v with
  | VArr xs | VSet xs => S (max_list (depth <$> xs))
  | VObj ps => S (map_fold (λ _ x n, depth x `max` n) 0 ps)
  | VMap es => S (map_fold (λ _ x n, depth x `max` n) 0 es)
  | _ => 0
  end.

(** [mapSetToObject] with its [try]/[catch], on a call stack that has
    room for [stack] more nested calls of the function.  A call for
    which there is no room throws a [RangeError] in its caller, whose
    [catch] returns the caller's own [item], unconverted.  The result is
    [None] when the call itself cannot be made. *)
Fixpoint mapSetToObject_within (stack : nat) (item : value) : option value :=
  match stack with
  | 0 => None
  | S stack =>
      let call := mapSetToObject_within stack in
      let made x := default x (call x) in
      let completes xs := forallb (λ x, bool_decide (is_Some (call x))) xs in
      Some
        match item with
        | VMap es =>
            if completes (map_to_list es).*2 then
              VObj (assign_entries (λ k, own_key (key_to_string k))
                      {[ "__isMap" := VBool true ]}
                      (map_to_list (made <$> es)))
            else item
        | VSet xs =>
            if completes xs then
              VObj {[ "__isSet" := VBool true;
                      "values" := VArr (made <$> xs) ]}
            else item
        | VArr xs => if completes xs then VArr (made <$> xs) else item
        | VObj ps =>
            if completes (map_to_list ps).*2 then
              VObj (assign_entries own_key ∅ (map_to_list (made <$> ps)))
            else item
        | _ => item
        end
  end.

(** [objectToMapSet]: tagged objects become Maps and Sets again.

    The tests are made in the order of the source: falsy, non-object and
    Date values are returned as they are; then the ['__isMap' in obj]
    test, the ['__isSet' in obj] test, [Array.isArray], and the plain
    object copy.  A value of the model has the prototype of its kind, so
    that ['__isMap' in obj] holds exactly when [obj] owns the property.
    A [Map] or a [Set] instance has no own enumerable property, so it
    falls through to the copy and yields [{}].  [map.set(key, ...)] takes
    every key, whereas [newObj[key] = ...] creates no property under the
    name [__proto__] ([own_key]).  On a tree within the call stack the
    one step that can throw is [obj.values.map(...)] when [values] is not
    an array; the [catch] then returns [obj] itself.

    The recursive calls on the property values are made once, up front
    ([decoded]), which the termination check needs; an array is the only
    value decoded to an array, so reading [values] from [decoded] is the
    same as decoding the array read from [obj]
    (lemma [objectToMapSet_tagged_set]). *)
Fixpoint objectToMapSet (obj : value) : value :=
  match obj with
  | VObj ps =>
      let decoded := objectToMapSet <$> ps in
      match ps !! "__isMap" with
      | Some _ =>
          VMap (assign_entries
                  (λ k, if decide (k = "__isMap") then None else Some (KStr k))
                  ∅ (map_to_list decoded))
      | None =>
          match ps !! "__isSet" with
          | Some _ =>
              match decoded !! "values" with
              | Some (VArr ys) => VSet (new_Set ys)
              | _ => obj
              end
          | None => VObj (assign_entries own_key ∅ (map_to_list decoded))
          end
      end
  | VArr xs => VArr (objectToMapSet <$> xs)
  | VMap _ | VSet _ => VObj ∅
  | _ => obj
  end.

(** ** The values the round trip is stated for *)

(** The property names a [Map] occupies once encoded. *)
Definition key_strings (es : gmap mkey value) : list string :=
  key_to_string <$> (map_to_list es).*1.

(** Members of a JS [Set] are pairwise different (SameValueZero). *)
Fixpoint distinct_members (xs : list value) : bool :=
  match xs with
  | [] => true
  | x :: rest => negb (existsb (same_value_zero x) rest) && distinct_members rest
  end.

(** A value is [representable] when every entry becomes a property of
    the encoding and the tags of the encoding cannot be mistaken: no
    plain object owns a property [__isMap], [__isSet] or [__proto__]; no
    [Map] has a key that reads [__isMap] or [__proto__]; the number keys
    of a [Map] are below [10^21]; and the keys of a [Map] stay distinct
    once coerced to property names. *)
Fixpoint representable (v : value) : bool :=
  match v with
  | VArr xs => forallb representable xs
  | VObj ps =>
      bool_decide (ps !! "__isMap" = None)
      && bool_decide (ps !! "__isSet" = None)
      && bool_decide (ps !! "__proto__" = None)
      && map_fold (λ _ x b, representable x && b) true ps
  | VMap es =>
      bool_decide (NoDup (key_strings es))
      && bool_decide ("__isMap" ∉ key_strings es)
      && bool_decide ("__proto__" ∉ key_strings es)
      && forallb decimal_key (map_to_list es).*1
      && map_fold (λ _ x b, representable x && b) true es
  | VSet xs => distinct_members xs && forallb representable xs
  | _ => true
  end.

(** The value [v] with the keys of its Maps coerced to strings: what the
    round trip is expected to reproduce. *)
Fixpoint with_string_keys (v : value) : value :=
  match v with
  | VArr xs => VArr (with_string_keys <$> xs)
  | VObj ps => VObj (with_string_keys <$> ps)
  | VMap es =>
      VMap (assign_entries (λ k, Some (KStr (key_to_string k))) ∅
              (map_to_list (with_string_keys <$> es)))
  | VSet xs => VSet (with_string_keys <$> xs)
  | _ => v
  end.

(** All [Map] keys are strings already. *)
Fixpoint string_keyed (v : value) : bool :=
  match v with
  | VArr xs | VSet xs => forallb string_keyed xs
  | VObj ps => map_fold (λ _ x b, string_keyed x && b) true ps
  | VMap es =>
      forallb (λ k, match k with KStr _ => true | KNum _ => false end)
        (map_to_list es).*1
      && map_fold (λ _ x b, string_keyed x && b) true es
  | _ => true
  end.

(** A size, for induction on values nested in lists and maps. *)
Fixpoint vsize (v : value) : nat :=
  match v with
  | VArr xs | VSet xs => S (sum_list (vsize <$> xs))
  | VObj ps => S (map_fold (λ _ x n, vsize x + n) 0 ps)
  | VMap es => S (map_fold (λ _ x n, vsize x + n) 0 es)
  | _ => 1
  end.


(** ** Shapes of values *)

(** No [Map] and no [Set] anywhere in the value. *)
Fixpoint container_free (v : value) : bool :=
  match v with
  | VArr xs => forallb container_free xs
  | VObj ps => map_fold (λ _ x b, container_free x && b) true ps
  | VMap _ | VSet _ => false
  | _ => true
  end.

(** No object owns a property named [__proto__] and no [Map] has a key
    that reads so, at any depth: neither function of the codec then
    assigns to that name. *)
Fixpoint proto_free (v : value) : bool :=
  match v with
  | VArr xs | VSet xs => forallb proto_free xs
  | VObj ps =>
      bool_decide (ps !! "__proto__" = None)
      && map_fold (λ _ x b, proto_free x && b) true ps
  | VMap es =>
      bool_decide ("__proto__" ∉ key_strings es)
      && map_fold (λ _ x b, proto_free x && b) true es
  | _ => true
  end.

(** The value is [true]. *)
Definition is_true_value (v : value) : bool :=
  match v with
  | VBool true => true
  | _ => false
  end.

(** A document in the form the encoder writes it: no [Map] and no [Set];
    no object owns a property named [__proto__]; an object that owns
    [__isMap] has it at [true]; an object that owns [__isSet] and not
    [__isMap] has it at [true] and owns, besides, only [values], an array
    of pairwise different members. *)
Fixpoint canonical (j : value) : bool :=
  match j with
  | VArr xs => forallb canonical xs
  | VObj ps =>
      map_fold (λ _ x b, canonical x && b) true ps
      && bool_decide (ps !! "__proto__" = None)
      && match ps !! "__isMap" with
         | Some t => is_true_value t
         | None =>
             match ps !! "__isSet" with
             | Some t =>
                 is_true_value t
                 && bool_decide (dom ps = {[ "__isSet"; "values" ]})
                 && match ps !! "values" with
                    | Some (VArr ys) => distinct_members ys
                    | _ => false
                    end
             | None => true
             end
         end
  | VMap _ | VSet _ => false
  | _ => true
  end.

(** A value with a [Map] of a string key and a number key, a [Set] and a [Date]. *)
Definition sample_value : value :=
  VObj {[ "tags" := VSet [VStr "a"; VStr "b"];
          "byName" := VMap {[ KStr "x" := VNum 1; KNum 7 := VDate 0 ]};
          "rows" := VArr [VNull; VBool true] ]}.

(** A document with an encoded [Map], an encoded [Set] and a list. *)
Definition sample_document : value :=
  VObj {[ "byName" := VObj {[ "__isMap" := VBool true; "x" := VNum 1 ]};
          "tags" := VObj {[ "__isSet" := VBool true;
                            "values" := VArr [VStr "a"; VStr "b"] ]};
          "rows" := VArr [VNull; VBool true] ]}.

(** * Part 2: the plugin object, its host and asynchronous methods *)

(** ** Data of the plugin *)

Inductive SAVE_STATUS :=
| SAVED    (* 'Saved' *)
| UNSAVED  (* 'Unsaved changes' *)
| SAVING.  (* 'Saving...' *)

#[global] Instance SAVE_STATUS_eq_dec : EqDecision SAVE_STATUS.
Proof. solve_decision. Defined.

Module Config.
(** [TeraPluginConfig], once validated: the fields have their types. *)
Record t := {
  keyPrefix : string;
  isSeparateStateForEachUser : bool;
  autoSaveIntervalMinutes : Z;
  showInitialAlert : bool;
  enableSaveHotkey : bool;
}.
End Config.

Module RawConfig.
(** The configuration object as it reaches the constructor: the types of
    [TeraPluginConfig] are not checked when the code runs, and each field
    may hold any value. *)
Record t := {
  keyPrefix : value;
  isSeparateStateForEachUser : value;
  autoSaveIntervalMinutes : value;
  showInitialAlert : value;
  enableSaveHotkey : value;
}.
End RawConfig.

Definition DEFAULT_CONFIG : Config.t :=
  {| Config.keyPrefix := "";
     Config.isSeparateStateForEachUser := false;
     Config.autoSaveIntervalMinutes := 10;
     Config.showInitialAlert := true;
     Config.enableSaveHotkey := true |}.

(** An [Error] object, with its message: what the plugin throws with
    [throw new Error(...)], and what the engine throws as a [TypeError]. *)
Record Error := { message : string }.

(** What a [throw] or a rejected promise carries.  JS does not type it: a
    host may reject a call with an [Error] object or with any other
    value, [null] and [undefined] included. *)
Inductive reason :=
| AnError (e : Error)
| NonError (v : value).

Coercion AnError : Error >-> reason.

Module User.
(** The result of [getUser()]: [{ id: string }]. *)
Record t := { id : string }.
End User.

Module Project.
(** [$tera.project]: [{ id?: string; temp?: Record<string, any> }]. *)
Record t := {
  id : option string;
  temp : option (gmap string value);
}.
End Project.

(** [TeraInstance].  Each member function is split in two: a flag telling
    whether the member is a function ([typeof ... === 'function']), and
    the call itself, which is answered by the host (see [call] below). *)
Record TeraInstance := {
  has_getUser : bool;
  has_getProjectFileContents : bool;
  has_setProjectFileContents : bool;
  has_uiProgress : bool;
  has_createProjectFile : bool;
  has_setProjectState : bool;
  project : option Project.t;
}.

(** [VueInstance]: [$tera] and the optional [$notify]. *)
Record VueInstance := {
  tera : option TeraInstance;
  has_notify : bool;
}.

Module SyncStore.
(** [SyncStoreState], the state of the store 'tera-file-sync-status'. *)
Record t := { saveStatus : SAVE_STATUS }.
Definition updateSaveStatus (status : SAVE_STATUS) (_ : t) : t :=
  {| saveStatus := status |}.
End SyncStore.

(** The fields of [TeraFileSyncPlugin] (the two bound event handlers are
    the methods themselves and carry no state). *)
Record Plugin := {
  config : Config.t;
  initialized : bool;
  teraReady : bool;
  vueInstance : option VueInstance;
  userId : option string;
  saveInProgress : bool;
  autoSaveInterval : option nat;
  saveStatus : SAVE_STATUS;
  hasShownInitialAlert : bool;
  syncStatusStore : option SyncStore.t;
}.

(** ** The page the plugin runs in *)

(** A store registered in Pinia: its [$state], and whether it carries the
    change subscription of [setupStateChangeTracking] (Pinia applies a
    plugin to the stores created after [pinia.use]). *)
Record PiniaStore := {
  state : value;
  tracked : bool;
}.

(** [window.__pinia]: the registry [_s] of the stores by id, and the
    number of change trackers installed by [pinia.use].  The plugin's
    own status store, which Pinia registers under
    ['tera-file-sync-status'], is kept with the plugin, in
    [syncStatusStore], and [_s] holds the other stores: it has no entry
    under that id. *)
Record Pinia := {
  _s : gmap string PiniaStore;
  trackers : nat;
}.

Inductive notice :=
| Notify (msg : string)      (* shown through [$notify] *)
| AlertLater (msg : string). (* [window.alert], one second later *)

(** The [window] object, as far as the plugin touches it; [nanoids]
    counts the identifiers drawn from [nanoid()] so far. *)
Record Window := {
  __pinia : option Pinia;
  keydownListener : bool;
  beforeunloadListener : bool;
  intervals : gmap nat Z;
  notices : list notice;
  nanoids : nat;
}.

(** The state every method runs in: the plugin object and the page. *)
Record World := {
  this : Plugin;
  window : Window;
}.

(** *** Field updates *)

Definition set_initialized (b : bool) (p : Plugin) : Plugin :=
  {| config := config p; initialized := b; teraReady := teraReady p;
     vueInstance := vueInstance p; userId := userId p;
     saveInProgress := saveInProgress p; autoSaveInterval := autoSaveInterval p;
     saveStatus := saveStatus p; hasShownInitialAlert := hasShownInitialAlert p;
     syncStatusStore := syncStatusStore p |}.

Definition set_teraReady (b : bool) (p : Plugin) : Plugin :=
  {| config := config p; initialized := initialized p; teraReady := b;
     vueInstance := vueInstance p; userId := userId p;
     saveInProgress := saveInProgress p; autoSaveInterval := autoSaveInterval p;
     saveStatus := saveStatus p; hasShownInitialAlert := hasShownInitialAlert p;
     syncStatusStore := syncStatusStore p |}.

Definition set_vueInstance (v : option VueInstance) (p : Plugin) : Plugin :=
  {| config := config p; initialized := initialized p; teraReady := teraReady p;
     vueInstance := v; userId := userId p;
     saveInProgress := saveInProgress p; autoSaveInterval := autoSaveInterval p;
     saveStatus := saveStatus p; hasShownInitialAlert := hasShownInitialAlert p;
     syncStatusStore := syncStatusStore p |}.

Definition set_userId (u : option string) (p : Plugin) : Plugin :=
  {| config := config p; initialized := initialized p; teraReady := teraReady p;
     vueInstance := vueInstance p; userId := u;
     saveInProgress := saveInProgress p; autoSaveInterval := autoSaveInterval p;
     saveStatus := saveStatus p; hasShownInitialAlert := hasShownInitialAlert p;
     syncStatusStore := syncStatusStore p |}.

Definition set_saveInProgress (b : bool) (p : Plugin) : Plugin :=
  {| config := config p; initialized := initialized p; teraReady := teraReady p;
     vueInstance := vueInstance p; userId := userId p;
     saveInProgress := b; autoSaveInterval := autoSaveInterval p;
     saveStatus := saveStatus p; hasShownInitialAlert := hasShownInitialAlert p;
     syncStatusStore := syncStatusStore p |}.

Definition set_autoSaveInterval (h : option nat) (p : Plugin) : Plugin :=
  {| config := config p; initialized := initialized p; teraReady := teraReady p;
     vueInstance := vueInstance p; userId := userId p;
     saveInProgress := saveInProgress p; autoSaveInterval := h;
     saveStatus := saveStatus p; hasShownInitialAlert := hasShownInitialAlert p;
     syncStatusStore := syncStatusStore p |}.

Definition set_saveStatus (s : SAVE_STATUS) (p : Plugin) : Plugin :=
  {| config := config p; initialized := initialized p; teraReady := teraReady p;
     vueInstance := vueInstance p; userId := userId p;
     saveInProgress := saveInProgress p; autoSaveInterval := autoSaveInterval p;
     saveStatus := s; hasShownInitialAlert := hasShownInitialAlert p;
     syncStatusStore := syncStatusStore p |}.

Definition set_hasShownInitialAlert (b : bool) (p : Plugin) : Plugin :=
  {| config := config p; initialized := initialized p; teraReady := teraReady p;
     vueInstance := vueInstance p; userId := userId p;
     saveInProgress := saveInProgress p; autoSaveInterval := autoSaveInterval p;
     saveStatus := saveStatus p; hasShownInitialAlert := b;
     syncStatusStore := syncStatusStore p |}.

Definition set_syncStatusStore (s : option SyncStore.t) (p : Plugin) : Plugin :=
  {| config := config p; initialized := initialized p; teraReady := teraReady p;
     vueInstance := vueInstance p; userId := userId p;
     saveInProgress := saveInProgress p; autoSaveInterval := autoSaveInterval p;
     saveStatus := saveStatus p; hasShownInitialAlert := hasShownInitialAlert p;
     syncStatusStore := s |}.

Definition set_project (pr : option Project.t) (t : TeraInstance) : TeraInstance :=
  {| has_getUser := has_getUser t;
     has_getProjectFileContents := has_getProjectFileContents t;
     has_setProjectFileContents := has_setProjectFileContents t;
     has_uiProgress := has_uiProgress t;
     has_createProjectFile := has_createProjectFile t;
     has_setProjectState := has_setProjectState t;
     project := pr |}.

Definition set_tera (t : option TeraInstance) (vi : VueInstance) : VueInstance :=
  {| tera := t; has_notify := has_notify vi |}.

Definition set_pinia (p : option Pinia) (w : Window) : Window :=
  {| __pinia := p; keydownListener := keydownListener w;
     beforeunloadListener := beforeunloadListener w; intervals := intervals w;
     notices := notices w; nanoids := nanoids w |}.

Definition set_keydownListener (b : bool) (w : Window) : Window :=
  {| __pinia := __pinia w; keydownListener := b;
     beforeunloadListener := beforeunloadListener w; intervals := intervals w;
     notices := notices w; nanoids := nanoids w |}.

Definition set_beforeunloadListener (b : bool) (w : Window) : Window :=
  {| __pinia := __pinia w; keydownListener := keydownListener w;
     beforeunloadListener := b; intervals := intervals w;
     notices := notices w; nanoids := nanoids w |}.

Definition set_intervals (i : gmap nat Z) (w : Window) : Window :=
  {| __pinia := __pinia w; keydownListener := keydownListener w;
     beforeunloadListener := beforeunloadListener w; intervals := i;
     notices := notices w; nanoids := nanoids w |}.

Definition set_notices (n : list notice) (w : Window) : Window :=
  {| __pinia := __pinia w; keydownListener := keydownListener w;
     beforeunloadListener := beforeunloadListener w; intervals := intervals w;
     notices := n; nanoids := nanoids w |}.

Definition set_nanoids (n : nat) (w : Window) : Window :=
  {| __pinia := __pinia w; keydownListener := keydownListener w;
     beforeunloadListener := beforeunloadListener w; intervals := intervals w;
     notices := notices w; nanoids := n |}.

(** Apply an update to the plugin object, or to the page. *)
Definition on_this (f : Plugin → Plugin) (σ : World) : World :=
  {| this := f (this σ); window := window σ |}.

Definition on_window (f : Window → Window) (σ : World) : World :=
  {| this := this σ; window := f (window σ) |}.

(** ** Calls to the host *)

(** The argument of [uiProgress]: an options object with a title (and
    [backdrop: 'static']), or [false] to dismiss the indicator. *)
Inductive progress :=
| ProgressShow (title : string)
| ProgressHide.

(** The asynchronous members of [TeraInstance], indexed by the type of
    the value their promise resolves to.  File contents are read and
    written with [{ format: 'json' }]. *)
Inductive call : Type → Type :=
| GetUser : call User.t
| GetProjectFileContents (fileName : string) : call value
| SetProjectFileContents (fileName : string) (content : value) : call unit
| UiProgress (options : progress) : call unit
| CreateProjectFile (fileName : string) : call unit
| SetProjectState (path : string) (v : value) : call unit.

(** How a promise settles. *)
Inductive settled (R : Type) :=
| Resolved (r : R)
| Rejected (e : reason).
Arguments Resolved {R} r.
Arguments Rejected {R} e.

(** ** Asynchronous methods

    An [async] method runs synchronously up to its next [await] of a host
    call, where it is suspended with its continuation; the continuation is
    resumed with the settled promise and with the state as it is at that
    moment, which other tasks may have changed since.  [Return] and
    [Throw] are the fulfilment and the rejection of the method's own
    promise. *)
Inductive step (A : Type) : Type :=
| Return (σ : World) (a : A)
| Throw (σ : World) (e : reason)
| Await {R : Type} (σ : World) (c : call R) (k : settled R → World → step A)
| Yield (σ : World) (k : World → step A).
Arguments Return {A} σ a.
Arguments Throw {A} σ e.
Arguments Await {A R} σ c k.
Arguments Yield {A} σ k.

Definition async (A : Type) : Type := World → step A.

Fixpoint bind_step {A B} (t : step A) (f : A → async B) : step B :=
  match t with
  | Return σ a => f a σ
  | Throw σ e => Throw σ e
  | Await σ c k => Await σ c (λ r σ', bind_step (k r σ') f)
  | Yield σ k => Yield σ (λ σ', bind_step (k σ') f)
  end.

(** [try { t } catch (e) { h e }]. *)
Fixpoint catch_step {A} (t : step A) (h : reason → async A) : step A :=
  match t with
  | Return σ a => Return σ a
  | Throw σ e => h e σ
  | Await σ c k => Await σ c (λ r σ', catch_step (k r σ') h)
  | Yield σ k => Yield σ (λ σ', catch_step (k σ') h)
  end.

Definition ret {A} (a : A) : async A := λ σ, Return σ a.
Definition throw {A} (e : reason) : async A := λ σ, Throw σ e.
Definition bind {A B} (m : async A) (f : A → async B) : async B :=
  λ σ, bind_step (m σ) f.
Definition try_catch {A} (m : async A) (h : reason → async A) : async A :=
  λ σ, catch_step (m σ) h.

Notation "'do' x ← m ; k" := (bind m (λ x, k))
  (at level 10, x name, m at level 100, k at level 200,
   format "'[v' 'do'  x  ←  m ; '/' k ']'").

(** A synchronous step that returns or throws an [Error]. *)
Definition lift {A} (r : Error + A) : async A :=
  match r with
  | inr a => ret a
  | inl e => throw e
  end.

(** The completion of [m], caught as a value, and the same completion
    taken up again. *)
Definition completion {A} (m : async A) : async (reason + A) :=
  try_catch (do a ← m; ret (inr a)) (λ e, ret (inl e)).

Definition resume {A} (r : reason + A) : async A :=
  match r with
  | inr a => ret a
  | inl e => throw e
  end.

(** [try { m } finally { fin }]: [fin] runs on both exits; the completion
    of [m] stands unless [fin] itself throws. *)
Definition try_finally {A} (m : async A) (fin : async unit) : async A :=
  do r ← completion m;
  do _ ← fin;
  resume r.

Definition gets {A} (f : World → A) : async A := λ σ, Return σ (f σ).
Definition modify (f : World → World) : async unit := λ σ, Return (f σ) tt.

(** [await c] for a host call [c]: suspend until the host settles it. *)
Definition await {R} (c : call R) : async R := λ σ,
  Await σ c (λ r σ', match r with
                     | Resolved x => Return σ' x
                     | Rejected e => Throw σ' e
                     end).

(** [await m] for an [async] method [m] of the plugin: [m] runs, and once
    its promise has settled the caller is resumed from the microtask
    queue, after whatever else was queued. *)
Definition await_async {A} (m : async A) : async A :=
  do r ← completion m;
  do _ ← (λ σ, Yield σ (λ σ', Return σ' tt));
  resume r.

(** ** Executions *)

(** A host call together with the way it settled. *)
Inductive event :=
| Ev {R : Type} (c : call R) (r : settled R).

(** What a suspended task waits for: a host call, or its turn in the
    microtask queue. *)
Inductive pending :=
| Calling {R : Type} (c : call R)
| Queued.

(** Where a task stands: suspended, or settled. *)
Inductive point (A : Type) :=
| Suspended (σ : World) (w : pending)
| Returned (σ : World) (a : A)
| Thrown (σ : World) (e : reason).
Arguments Suspended {A} σ w.
Arguments Returned {A} σ a.
Arguments Thrown {A} σ e.

Definition now {A} (t : step A) : point A :=
  match t with
  | Return σ a => Returned σ a
  | Throw σ e => Thrown σ e
  | Await σ c _ => Suspended σ (Calling c)
  | Yield σ _ => Suspended σ Queued
  end.

(** [safe rely Q tr t]: on every execution of [t] — whatever the host
    answers, and whatever other tasks do to the state while [t] is
    suspended, within [rely] — [Q] holds at each point [t] reaches, given
    the host calls settled before it ([tr], oldest first). *)
Fixpoint safe {A} (rely : pending → World → World → Prop)
    (Q : list event → point A → Prop) (tr : list event) (t : step A) : Prop :=
  match t with
  | Return σ a => Q tr (Returned σ a)
  | Throw σ e => Q tr (Thrown σ e)
  | Await σ c k =>
      Q tr (Suspended σ (Calling c))
      ∧ ∀ r σ', rely (Calling c) σ σ' → safe rely Q (tr ++ [Ev c r]) (k r σ')
  | Yield σ k =>
      Q tr (Suspended σ Queued)
      ∧ ∀ σ', rely Queued σ σ' → safe rely Q tr (k σ')
  end.

(** A host: how each call settles and what the host does to the state
    meanwhile (the host owns the [project] object bound to the plugin). *)
Definition host : Type := ∀ R, call R → World → settled R * World.

(** Resume [t] up to [n] times with the answers of host [h], nothing else
    running in between. *)
Fixpoint advance {A} (h : host) (n : nat) (t : step A) : step A :=
  match n, t with
  | S n', Await σ c k => let '(r, σ') := h _ c σ in advance h n' (k r σ')
  | S n', Yield σ k => advance h n' (k σ)
  | _, _ => t
  end.

(** Run [t] to completion against host [h], nothing else running in
    between: the calls made and the final point. *)
Fixpoint run {A} (h : host) (t : step A) : list event * point A :=
  match t with
  | Return σ a => ([], Returned σ a)
  | Throw σ e => ([], Thrown σ e)
  | Await σ c k =>
      let '(r, σ') := h _ c σ in
      let '(tr, p) := run h (k r σ') in
      (Ev c r :: tr, p)
  | Yield σ k => run h (k σ)
  end.

(** The dismissal of the progress indicator, [uiProgress(false)]. *)
Definition is_hide (w : pending) : bool :=
  match w with
  | Calling (UiProgress ProgressHide) => true
  | _ => false
  end.



(** The state at a point. *)
Definition world_of {A} (p : point A) : World :=
  match p with
  | Suspended σ _ | Returned σ _ | Thrown σ _ => σ
  end.

(** [I] holds at the point, which is not a dismissal of the progress
    indicator. *)
Definition keeps {A} (I : World → Prop) (p : point A) : Prop :=
  I (world_of p)
  ∧ match p with
    | Suspended _ w => is_hide w = false
    | _ => True
    end.

(** The calls made while resolving the storage locator. *)
Definition is_resolver_event (e : event) : bool :=
  match e with
  | Ev GetUser _ | Ev (CreateProjectFile _) _ | Ev (SetProjectState _ _) _ => true
  | _ => false
  end.

(** * Part 3: the methods of the plugin *)

(** What the plugin takes from its environment: the browser's [btoa]
    (which throws on characters outside Latin-1), [nanoid] (the [n]-th
    identifier drawn), the rendering of a Date in a template literal,
    Pinia's [$patch] (the new [$state] from the old one and the partial
    state), and the members that every plain object inherits from
    [Object.prototype] ([constructor], [toString], [__proto__], ...):
    [inherited name] is the rendering in a template literal of the member
    of that name, if there is one.  Console output ([debugLog],
    [logError], [console.warn]) has no counterpart in the model. *)
Class Runtime := {
  btoa : string → Error + string;
  nanoid : nat → string;
  dateToString : Z → string;
  patch : value → value → value;
  inherited : string → option string;
}.

(** [haystack.includes(needle)]. *)
Fixpoint includes (needle haystack : string) : bool :=
  String.prefix needle haystack
  || match haystack with
     | EmptyString => false
     | String _ rest => includes needle rest
     end.

(** Truthiness of an optional string ([undefined], [null] and [""] are
    falsy). *)
Definition truthy_string (o : option string) : bool :=
  match o with
  | Some s => negb (String.eqb s "")
  | None => false
  end.

(** [Object.entries(v)]. *)
Definition entries (v : value) : list (string * value) :=
  match v with
  | VObj ps => map_to_list ps
  | VArr xs => imap (λ i x, (pretty i, x)) xs
  | VStr s => imap (λ i c, (pretty i, VStr (String c ""))) (String.list_ascii_of_string s)
  | _ => []
  end.

(** [{ ...v }]. *)
Definition spread (v : value) : value :=
  VObj (assign_entries Some ∅ (entries v)).

Definition TypeError (msg : string) : Error := {| message := msg |}.

(** [validateConfig]: the five checks, in the order of the source.  The
    source returns nothing; the model returns the configuration with its
    fields at the types just checked, which is what the plugin goes on
    with. *)
Definition validateConfig (config : RawConfig.t) : Error + Config.t :=
  match RawConfig.keyPrefix config with
  | VStr keyPrefix =>
      match RawConfig.isSeparateStateForEachUser config with
      | VBool isSeparateStateForEachUser =>
          match RawConfig.autoSaveIntervalMinutes config with
          | VNum autoSaveIntervalMinutes =>
              if (autoSaveIntervalMinutes <? 0)%Z then
                inl {| message :=
                         "autoSaveIntervalMinutes must be a non-negative number" |}
              else
                match RawConfig.showInitialAlert config with
                | VBool showInitialAlert =>
                    match RawConfig.enableSaveHotkey config with
                    | VBool enableSaveHotkey =>
                        inr {| Config.keyPrefix := keyPrefix;
                               Config.isSeparateStateForEachUser :=
                                 isSeparateStateForEachUser;
                               Config.autoSaveIntervalMinutes :=
                                 autoSaveIntervalMinutes;
                               Config.showInitialAlert := showInitialAlert;
                               Config.enableSaveHotkey := enableSaveHotkey |}
                    | _ =>
                        inl {| message := "enableSaveHotkey must be a boolean" |}
                    end
                | _ => inl {| message := "showInitialAlert must be a boolean" |}
                end
          | _ =>
              inl {| message :=
                       "autoSaveIntervalMinutes must be a non-negative number" |}
          end
      | _ =>
          inl {| message := "isSeparateStateForEachUser must be a boolean" |}
      end
  | _ => inl {| message := "keyPrefix must be a string" |}
  end.

(** [validateVueInstance]. *)
Definition validateVueInstance (instance : option VueInstance) : Error + unit :=
  match instance with
  | None => inl {| message := "Vue instance is required" |}
  | Some vi =>
      match tera vi with
      | None => inl {| message := "Vue instance must have $tera property" |}
      | Some t =>
          if negb (has_getUser t) then
            inl {| message := "$tera.getUser must be a function" |}
          else if negb (has_getProjectFileContents t) then
            inl {| message := "$tera.getProjectFileContents must be a function" |}
          else if negb (has_setProjectFileContents t) then
            inl {| message := "$tera.setProjectFileContents must be a function" |}
          else if negb (has_uiProgress t) then
            inl {| message := "$tera.uiProgress must be a function" |}
          else inr tt
      end
  end.

(** The constructor: every field at its initial value.  The one caller,
    [createTeraSyncPlugin], passes a configuration with all five fields,
    so that [{ ...DEFAULT_CONFIG, ...config }] is [config]. *)
Definition constructor (config : RawConfig.t) : Error + Plugin :=
  match validateConfig config with
  | inl e => inl e
  | inr cfg =>
      inr {| config := cfg;
             initialized := false;
             teraReady := false;
             vueInstance := None;
             userId := None;
             saveInProgress := false;
             autoSaveInterval := None;
             saveStatus := SAVED;
             hasShownInitialAlert := false;
             syncStatusStore := None |}
  end.

(** [this.vueInstance?.$tera] and [this.vueInstance?.$tera?.project]. *)
Definition bound_tera (p : Plugin) : option TeraInstance :=
  match vueInstance p with
  | Some vi => tera vi
  | None => None
  end.

Definition bound_project (p : Plugin) : option Project.t :=
  match bound_tera p with
  | Some t => project t
  | None => None
  end.

Section methods.
Context `{Runtime}.

(** [String(v)], as in a template literal. *)
Fixpoint js_String (v : value) : string :=
  match v with
  | VUndefined => "undefined"
  | VNull => "null"
  | VBool b => if b then "true" else "false"
  | VNum n => pretty n
  | VStr s => s
  | VDate t => dateToString t
  | VArr xs =>
      String.concat ","
        ((λ x, match x with
               | VUndefined | VNull => ""
               | _ => js_String x
               end) <$> xs)
  | VObj _ => "[object Object]"
  | VMap _ => "[object Map]"
  | VSet _ => "[object Set]"
  end.

(** *** Reading through [this.vueInstance.$tera] *)

(** [this.vueInstance.$tera], read for its member [member]. *)
Definition the_tera (member : string) : async TeraInstance := λ σ,
  match vueInstance (this σ) with
  | None =>
      Throw σ (TypeError "Cannot read properties of null (reading '$tera')")
  | Some vi =>
      match tera vi with
      | None =>
          Throw σ (TypeError ("Cannot read properties of undefined (reading '"
                              +:+ member +:+ "')"))
      | Some t => Return σ t
      end
  end.

(** [await this.vueInstance.$tera.member(...)]. *)
Definition call_tera {R} (has : TeraInstance → bool) (member : string)
    (c : call R) : async R :=
  do t ← the_tera member;
  if has t then await c
  else throw (TypeError ("this.vueInstance.$tera." +:+ member
                         +:+ " is not a function")).

(** [this.vueInstance.$tera.project], read for its member [member]. *)
Definition the_project (member : string) : async Project.t :=
  do t ← the_tera "project";
  match project t with
  | Some p => ret p
  | None =>
      throw (TypeError ("Cannot read properties of undefined (reading '"
                        +:+ member +:+ "')"))
  end.

(** [this.vueInstance.$tera.project.temp = m]. *)
Definition assign_temp (m : gmap string value) (σ : World) : World :=
  on_this (λ p,
    set_vueInstance
      ((λ vi, set_tera
         ((λ t, set_project
            ((λ pr, {| Project.id := Project.id pr; Project.temp := Some m |})
               <$> project t) t) <$> tera vi) vi) <$> vueInstance p) p) σ.

(** *** updateSaveStatus *)

Definition updateSaveStatus (status : SAVE_STATUS) (σ : World) : World :=
  match syncStatusStore (this σ) with
  | None => σ
  | Some store =>
      on_this (λ p,
        set_syncStatusStore (Some (SyncStore.updateSaveStatus status store))
          (set_saveStatus status p)) σ
  end.

(** *** getStorageKey *)

Definition getStorageKey : async string := λ σ,
  if Config.isSeparateStateForEachUser (config (this σ)) then
    (do _ ← (λ σ,
             if negb (truthy_string (userId (this σ)))
                && bool_decide (is_Some (vueInstance (this σ)))
             then
               try_catch
                 (do user ← call_tera has_getUser "getUser" GetUser;
                  modify (on_this (set_userId (Some (User.id user)))))
                 (λ error, throw error) σ
             else Return σ tt);
     do p ← gets this;
     ret (Config.keyPrefix (config p) +:+ "-"
          +:+ default "null" (userId p))) σ
  else Return σ (Config.keyPrefix (config (this σ))).

(** *** getStorageFileName *)

(** The creation of a backing file under a fresh name, recorded in the
    project state under [temp.<key>]. *)
Definition provision (key : string) : async value :=
  do σ ← gets (λ σ, σ);
  let fileStorageName :=
    "data-" +:+ Config.keyPrefix (config (this σ)) +:+ "-"
    +:+ nanoid (nanoids (window σ)) +:+ ".json" in
  do _ ← modify (on_window (set_nanoids (S (nanoids (window σ)))));
  do t ← the_tera "createProjectFile";
  do _ ← (if has_createProjectFile t
          then await (CreateProjectFile fileStorageName)
          else throw {| message := "createProjectFile function not available" |});
  do t ← the_tera "setProjectState";
  do _ ← (if has_setProjectState t
          then await (SetProjectState ("temp." +:+ key) (VStr fileStorageName))
          else throw {| message := "setProjectState function not available" |});
  ret (VStr fileStorageName).

(** [temp[key]], as [getStorageFileName] goes on with it: a property of
    [temp] itself, or else a member inherited from [Object.prototype],
    which is truthy and no string, so that the two tests that follow
    lead to the last [throw] of the method. *)
Definition temp_lookup (temp : gmap string value) (key : string)
  : async value :=
  match temp !! key with
  | Some found => ret found
  | None =>
      match inherited key with
      | Some member =>
          throw {| message := "fileStorageName is not a string: " +:+ member |}
      | None => ret VUndefined
      end
  end.

Definition getStorageFileName : async string := λ σ,
  match bound_project (this σ) with
  | None => Throw σ {| message := "Missing vueInstance.$tera.project" |}
  | Some pr =>
      (do _ ← (if Project.temp pr is Some _ then ret tt
               else modify (assign_temp ∅));
       if negb (truthy_string (Project.id pr)) then
         throw {| message := "Missing vueInstance.$tera.project.id" |}
       else
         do key ← await_async getStorageKey;
         do pr ← the_project "temp";
         do found ←
           match Project.temp pr with
           | Some temp => temp_lookup temp key
           | None =>
               throw (TypeError ("Cannot read properties of undefined (reading '"
                                 +:+ key +:+ "')"))
           end;
         do fileStorageName ←
           (if negb (truthy found) then provision key else ret found);
         match fileStorageName with
         | VStr name =>
             do pr ← the_project "id";
             ret (default "undefined" (Project.id pr) +:+ "/" +:+ name)
         | other =>
             throw {| message := "fileStorageName is not a string: "
                                 +:+ js_String other |}
         end) σ
  end.

(** *** loadStateFromFile

    The result is the loaded document, or [VNull].  [load_attempt] is
    the [try] block and [load_failed] the [catch] block. *)
Definition load_attempt : async value :=
  do fileName ← await_async getStorageFileName;
  if String.eqb fileName "" then ret VNull
  else
    do encodedFileName ← lift (btoa fileName);
    do vi ← gets (vueInstance ∘ this);
    do _ ← (if vi is Some _ then ret tt
            else throw {| message := "Vue instance is null" |});
    do fileContent ←
      call_tera has_getProjectFileContents "getProjectFileContents"
        (GetProjectFileContents encodedFileName);
    if negb (truthy fileContent) then ret VNull
    else
      do _ ← modify (updateSaveStatus SAVED);
      ret fileContent.

(** [error.message && error.message.includes('not found')], for whatever
    was thrown.  Reading a property of [null] or of [undefined] throws a
    [TypeError] (its text is the engine's), and so does calling
    [includes] on a truthy message that has no such method: strings and
    arrays have one.  Of the values of the model only a plain object can
    carry a [message]. *)
Definition mentions_not_found (error : reason) : Error + bool :=
  match error with
  | AnError e =>
      inr (negb (String.eqb (message e) "") && includes "not found" (message e))
  | NonError VUndefined =>
      inl (TypeError "Cannot read properties of undefined (reading 'message')")
  | NonError VNull =>
      inl (TypeError "Cannot read properties of null (reading 'message')")
  | NonError (VObj ps) =>
      match ps !! "message" with
      | Some m =>
          if negb (truthy m) then inr false
          else
            match m with
            | VStr s => inr (includes "not found" s)
            | VArr xs => inr (existsb (same_value_zero (VStr "not found")) xs)
            | _ => inl (TypeError "error.message.includes is not a function")
            end
      | None => inr false
      end
  | NonError _ => inr false
  end.

(** The [catch] block: both of its branches return [null]. *)
Definition load_failed (error : reason) : async value :=
  do found ← lift (mentions_not_found error);
  if found then ret VNull else ret VNull.

Definition loadStateFromFile : async value :=
  try_catch load_attempt load_failed.

(** *** saveStateToFile

    [save_attempt] is the [try] block, [save_failed] the [catch] block
    and [save_cleanup] the [finally] block.  [state] is the content of
    the object passed, taken at the call (see [saveAllStores]). *)
Definition save_attempt (state : value) : async bool :=
  do _ ← modify (on_this (set_saveInProgress true));
  do _ ← modify (updateSaveStatus SAVING);
  do vi ← gets (vueInstance ∘ this);
  do _ ← (if vi is Some _ then ret tt
          else throw {| message := "Vue instance is null" |});
  do _ ← call_tera has_uiProgress "uiProgress"
           (UiProgress (ProgressShow "Saving tool data"));
  do fileName ← await_async getStorageFileName;
  if String.eqb fileName "" then
    throw {| message := "No fileName returned" |}
  else
    do encodedFileName ← lift (btoa fileName);
    let stateToSave := mapSetToObject state in
    do _ ← call_tera has_setProjectFileContents "setProjectFileContents"
             (SetProjectFileContents encodedFileName stateToSave);
    do _ ← modify (updateSaveStatus SAVED);
    ret true.

Definition save_failed (error : reason) : async bool :=
  do _ ← modify (updateSaveStatus UNSAVED);
  ret false.

Definition save_cleanup : async unit :=
  do _ ← modify (on_this (set_saveInProgress false));
  do vi ← gets (vueInstance ∘ this);
  if vi is Some _
  then call_tera has_uiProgress "uiProgress" (UiProgress ProgressHide)
  else ret tt.

Definition saveStateToFile (state : value) : async bool := λ σ,
  if saveInProgress (this σ) then Return σ false
  else try_finally (try_catch (save_attempt state) save_failed) save_cleanup σ.

(** *** saveAllStores

    [allState[id] = { ...store.$state }] for every store but the status
    store.  The copy is one level deep: the object handed to
    [saveStateToFile] shares the nested objects of each state with the
    live store, and it is encoded only after two awaits.  The model
    hands over a value, the content of that object at the call: it is
    what the source encodes provided no store is changed in place while
    the save is suspended. *)
Definition saveAllStores : async bool := λ σ,
  match __pinia (window σ) with
  | None => Return σ false
  | Some pinia =>
      let allState :=
        assign_entries
          (λ id, if decide (id = "tera-file-sync-status") then None
                 else own_key id)
          ∅ (map_to_list ((λ store, spread (state store)) <$> _s pinia)) in
      await_async (saveStateToFile (VObj allState)) σ
  end.

(** *** Change tracking *)

(** The callback subscribed to every tracked store. *)
Definition storeChanged (σ : World) : World :=
  if decide (saveStatus (this σ) = SAVING) then σ
  else updateSaveStatus UNSAVED σ.

Definition setupStateChangeTracking (σ : World) : World :=
  match __pinia (window σ) with
  | None => σ
  | Some pinia =>
      on_window (set_pinia (Some {| _s := _s pinia;
                                    trackers := S (trackers pinia) |})) σ
  end.

(** [createSyncStatusStore]: [useSyncStatusStore(pinia)] creates the
    store in state [SAVED] and registers it with Pinia, or returns the
    one it created before.  The store is kept with the plugin (see
    [Pinia]). *)
Definition createSyncStatusStore (σ : World) : World :=
  match __pinia (window σ) with
  | None => σ
  | Some _ =>
      match syncStatusStore (this σ) with
      | Some _ => σ
      | None =>
          on_this (set_syncStatusStore
                     (Some {| SyncStore.saveStatus := SAVED |})) σ
      end
  end.

(** *** initializeStores

    [store.$patch] notifies the subscribers of the store.  The stores
    looked up are those of [_s], the stores other than the status store:
    what the source makes of a document that names
    ['tera-file-sync-status'] (it patches the status store) is not
    followed, and the statements about restoring leave such documents
    out. *)
Definition patchStore (storeId : string) (storeState : value) (σ : World)
  : World :=
  match __pinia (window σ) with
  | None => σ
  | Some pinia =>
      match _s pinia !! storeId with
      | None => σ
      | Some store =>
          let parsedState := objectToMapSet storeState in
          let store' := {| state := patch (state store) (spread parsedState);
                           tracked := tracked store |} in
          let σ' :=
            on_window (set_pinia
              (Some {| _s := <[storeId := store']> (_s pinia);
                       trackers := trackers pinia |})) σ in
          if tracked store then storeChanged σ' else σ'
      end
  end.

Definition initializeStores (loadedState : value) (σ : World) : World :=
  if negb (truthy loadedState) then σ
  else
    match __pinia (window σ) with
    | None => σ
    | Some _ =>
        foldl (λ σ entry, patchStore entry.1 entry.2 σ) σ (entries loadedState)
    end.

(** *** Notices, listeners and the auto-save timer *)

Definition showInitialAlert (σ : World) : World :=
  if Config.showInitialAlert (config (this σ))
     && negb (hasShownInitialAlert (this σ))
  then
    let message :=
      "This tool no longer automatically saves progress, please use Ctrl+S to save progress" in
    let shown :=
      match vueInstance (this σ) with
      | Some vi => if has_notify vi then Notify message else AlertLater message
      | None => AlertLater message
      end in
    on_window (λ w, set_notices (notices w ++ [shown]) w)
      (on_this (set_hasShownInitialAlert true) σ)
  else σ.

Definition registerHotkeys (σ : World) : World :=
  if Config.enableSaveHotkey (config (this σ))
  then on_window (set_keydownListener true) σ
  else σ.

Definition unregisterHotkeys (σ : World) : World :=
  on_window (set_keydownListener false) σ.

Definition registerBeforeUnload (σ : World) : World :=
  on_window (set_beforeunloadListener true) σ.

Definition unregisterBeforeUnload (σ : World) : World :=
  on_window (set_beforeunloadListener false) σ.

(** [window.clearInterval(h)]. *)
Definition clearInterval (h : option nat) (w : Window) : Window :=
  match h with
  | Some i => set_intervals (delete i (intervals w)) w
  | None => w
  end.

Definition setupAutoSave (σ : World) : World :=
  let minutes := Config.autoSaveIntervalMinutes (config (this σ)) in
  if (minutes <=? 0)%Z then σ
  else
    let σ1 := on_window (clearInterval (autoSaveInterval (this σ))) σ in
    let intervalMs := (minutes * 60 * 1000)%Z in
    let handle := fresh (dom (intervals (window σ1))) in
    on_this (set_autoSaveInterval (Some handle))
      (on_window (λ w, set_intervals (<[handle := intervalMs]> (intervals w)) w) σ1).

(** *** initialize

    [initialize_attempt] is the [try] block; the [catch] block only
    logs. *)
Definition initialize_attempt : async unit :=
  do _ ← modify createSyncStatusStore;
  do _ ← modify setupStateChangeTracking;
  do fileData ← await_async loadStateFromFile;
  do _ ← (if truthy fileData then
            do _ ← await_async (modify (initializeStores fileData));
            modify (updateSaveStatus SAVED)
          else modify (updateSaveStatus UNSAVED));
  do _ ← modify (on_this (set_initialized true));
  do t ← the_tera "uiProgress";
  do _ ← (if has_uiProgress t then await (UiProgress ProgressHide)
          else ret tt);
  do _ ← modify showInitialAlert;
  do _ ← modify registerHotkeys;
  do _ ← modify registerBeforeUnload;
  modify setupAutoSave.

Definition initialize : async unit := λ σ,
  if negb (teraReady (this σ))
     || negb (bool_decide (is_Some (bound_tera (this σ))))
  then Return σ tt
  else
    (do t ← the_tera "uiProgress";
     do _ ← (if negb (has_uiProgress t) then ret tt
             else await (UiProgress (ProgressShow "Loading tool data")));
     try_catch initialize_attempt (λ error, ret tt)) σ.

(** *** cleanup *)

Definition cleanup (σ : World) : World :=
  let σ1 :=
    match autoSaveInterval (this σ) with
    | Some h =>
        on_this (set_autoSaveInterval None)
          (on_window (clearInterval (Some h)) σ)
    | None => σ
    end in
  on_this (λ p, set_teraReady false (set_initialized false p))
    (unregisterBeforeUnload (unregisterHotkeys σ1)).

(** *** The API exposed on each store as [$teraFileSync] *)

Definition setTeraReady : async unit :=
  do instance ← gets (vueInstance ∘ this);
  do _ ← lift (validateVueInstance instance);
  do _ ← modify (on_this (set_teraReady true));
  await_async initialize.

Definition setVueInstance (instance : option VueInstance) (σ : World) : World :=
  on_this (set_vueInstance instance) σ.

Definition saveState : async bool := await_async saveAllStores.

Definition getSaveStatus (σ : World) : SAVE_STATUS := saveStatus (this σ).

Definition destroy (σ : World) : World := cleanup σ.
End methods.

(** * Part 3, continued: the event handlers and the factory *)

Module KeyboardEvent.
(** A [KeyboardEvent], as far as [handleKeyDown] reads it, and whether
    [preventDefault()] has been called on it. *)
Record t := {
  ctrlKey : bool;
  metaKey : bool;
  key : string;
  defaultPrevented : bool;
}.
Definition preventDefault (event : t) : t :=
  {| ctrlKey := ctrlKey event; metaKey := metaKey event; key := key event;
     defaultPrevented := true |}.
End KeyboardEvent.

Module BeforeUnloadEvent.
Record t := { returnValue : option string }.
End BeforeUnloadEvent.

Section handlers.
Context `{Runtime}.

(** [handleKeyDown]: on Ctrl+S or Command+S the default action is
    prevented and a save is started, which the handler does not await:
    the result is the event and the task started, if any, run up to its
    first suspension. *)
Definition handleKeyDown (event : KeyboardEvent.t) (σ : World)
  : KeyboardEvent.t * option (step bool) :=
  if (KeyboardEvent.ctrlKey event || KeyboardEvent.metaKey event)
     && String.eqb (KeyboardEvent.key event) "s"
  then (KeyboardEvent.preventDefault event, Some (saveAllStores σ))
  else (event, None).

(** The callback of the auto-save timer: a save is started, and not
    awaited, unless the status is [SAVED]. *)
Definition autoSaveTick (σ : World) : option (step bool) :=
  if decide (saveStatus (this σ) ≠ SAVED) then Some (saveAllStores σ)
  else None.
End handlers.

(** [handleBeforeUnload]: the event as the handler leaves it and the
    value returned. *)
Definition handleBeforeUnload (event : BeforeUnloadEvent.t) (σ : World)
  : BeforeUnloadEvent.t * option string :=
  if decide (saveStatus (this σ) = UNSAVED) then
    let message := "You have unsaved changes. Are you sure you want to leave?" in
    ({| BeforeUnloadEvent.returnValue := Some message |}, Some message)
  else (event, None).

(** [options.name ?? fallback], for the three names the factory reads:
    no value other than an object with such a property of its own has
    one, and reading a property of [null] throws. *)
Definition option_or (options : value) (name : string) (fallback : value)
  : Error + value :=
  match options with
  | VNull =>
      inl (TypeError ("Cannot read properties of null (reading '"
                      +:+ name +:+ "')"))
  | VObj ps =>
      match ps !! name with
      | None | Some VUndefined | Some VNull => inr fallback
      | Some v => inr v
      end
  | _ => inr fallback
  end.

(** [createTeraSyncPlugin]: an argument left out (or [undefined]) takes
    its default, [false] and [{}]; the prefix is checked, the options
    that are missing or null take the values of [DEFAULT_CONFIG], and
    the plugin is constructed.  The result stands for the plugin whose
    API the returned installer exposes on each store. *)
Definition createTeraSyncPlugin (keyPrefix isSeparateStateForEachUser
    options : value) : Error + Plugin :=
  let isSeparateStateForEachUser :=
    match isSeparateStateForEachUser with
    | VUndefined => VBool false
    | given => given
    end in
  let options :=
    match options with
    | VUndefined => VObj ∅
    | given => given
    end in
  match keyPrefix with
  | VStr _ =>
      match option_or options "autoSaveIntervalMinutes"
              (VNum (Config.autoSaveIntervalMinutes DEFAULT_CONFIG)),
            option_or options "showInitialAlert"
              (VBool (Config.showInitialAlert DEFAULT_CONFIG)),
            option_or options "enableSaveHotkey"
              (VBool (Config.enableSaveHotkey DEFAULT_CONFIG)) with
      | inr autoSaveIntervalMinutes, inr showInitialAlert, inr enableSaveHotkey =>
          constructor
            {| RawConfig.keyPrefix := keyPrefix;
               RawConfig.isSeparateStateForEachUser :=
                 isSeparateStateForEachUser;
               RawConfig.autoSaveIntervalMinutes := autoSaveIntervalMinutes;
               RawConfig.showInitialAlert := showInitialAlert;
               RawConfig.enableSaveHotkey := enableSaveHotkey |}
      | inl e, _, _ | _, inl e, _ | _, _, inl e => inl e
      end
  | _ => inl {| message := "keyPrefix must be a string" |}
  end.

(** * Part 4: what the properties are stated with *)

(** ** Traces *)

(** The write of the document resolved at some point of the trace. *)
Definition is_resolved_write (e : event) : bool :=
  match e with
  | Ev (SetProjectFileContents _ _) (Resolved _) => true
  | _ => false
  end.

Definition write_ok (tr : list event) : bool := existsb is_resolved_write tr.

Definition is_read (e : event) : bool :=
  match e with
  | Ev (GetProjectFileContents _) _ => true
  | _ => false
  end.

(** The document the host handed over: the content its last read resolved
    to when that is truthy, and [VNull] when the read failed, gave an
    empty result or was never made. *)
Definition loaded (tr : list event) : value :=
  match last (filter (λ e, is_read e = true) tr) with
  | Some (Ev (GetProjectFileContents _) (Resolved content)) =>
      if truthy content then content else VNull
  | _ => VNull
  end.

(** The [catch] block of a load can take [e]: reading its message does
    not throw. *)
Definition readable (e : reason) : bool :=
  match mentions_not_found e with
  | inr _ => true
  | inl _ => false
  end.

(** A call other than [uiProgress] was rejected with a value that is not
    [readable]. *)
Definition is_unreadable_rejection (e : event) : bool :=
  match e with
  | Ev (UiProgress _) _ => false
  | Ev _ (Rejected r) => negb (readable r)
  | Ev _ (Resolved _) => false
  end.

(** Some call of the load was rejected with a value its [catch] block
    cannot take ([initialize] calls nothing but [uiProgress] outside its
    load). *)
Definition load_threw (tr : list event) : bool :=
  existsb is_unreadable_rejection tr.

(** What the resolver throws: an [Error] object, or the value its last
    call was rejected with. *)
Definition error_or_rejection (tr : list event) (e : reason) : Prop :=
  (∃ err : Error, e = AnError err)
  ∨ (∃ R (c : call R),
       last tr = Some (Ev c (Rejected e))
       ∧ is_resolver_event (Ev c (Rejected e)) = true).


(** The binding lets the plugin dismiss the indicator:
    [this.vueInstance.$tera.uiProgress] is there. *)
Definition dismissible (p : Plugin) : bool :=
  match bound_tera p with
  | Some t => has_uiProgress t
  | None => false
  end.

(** ** What other tasks may do while a method is suspended *)

(** Anything. *)
Definition rely_any : pending → World → World → Prop := λ _ _ _, True.

(** Other tasks leave the in-flight guard alone: only [saveStateToFile]
    writes it, and a call it rejects changes nothing. *)
Definition rely_guard : pending → World → World → Prop :=
  λ _ σ σ', saveInProgress (this σ') = saveInProgress (this σ).

(** The status store is still missing, and [saveStatus] is as it was. *)
Definition rely_window : pending → World → World → Prop :=
  λ _ σ σ',
    syncStatusStore (this σ') = None
    ∧ saveStatus (this σ') = saveStatus (this σ).

(** Pinia and the status store stay in place, and nothing touches the
    status while the loading indicator is being dismissed. *)
Definition rely_init : pending → World → World → Prop :=
  λ w σ σ',
    (is_Some (__pinia (window σ)) → is_Some (__pinia (window σ')))
    ∧ (is_Some (syncStatusStore (this σ)) → is_Some (syncStatusStore (this σ')))
    ∧ (is_hide w = true → saveStatus (this σ') = saveStatus (this σ)).

Section property_definitions.
Context `{Runtime}.

(** Properties of the state that resolving the storage locator does not
    disturb. *)
Definition stable (I : World → Prop) : Prop :=
  (∀ σ u, I σ → I (on_this (set_userId u) σ))
  ∧ (∀ σ m, I σ → I (assign_temp m σ))
  ∧ (∀ σ n, I σ → I (on_window (set_nanoids n) σ)).

(** Store-change notifications delivered while the status is [SAVING]. *)
Inductive notified_while_saving : World → World → Prop :=
| nws_none σ : notified_while_saving σ σ
| nws_more σ σ' :
    saveStatus (this σ) = SAVING →
    notified_while_saving (storeChanged σ) σ' →
    notified_while_saving σ σ'.

Definition rely_notified : pending → World → World → Prop :=
  λ _ σ σ', notified_while_saving σ σ'.

(** C2: where the first call is suspended before its cleanup, a second
    call is rejected at once. *)
Definition second_call_rejected : list event → point bool → Prop :=
  λ _ p,
    match p with
    | Suspended σ w =>
        is_hide w = false →
        ∀ state2, saveStateToFile state2 σ = Return σ false
    | _ => True
    end.

(** C2 as stated: the same at every point where the first call is
    suspended. *)
Definition second_call_always_rejected : list event → point bool → Prop :=
  λ _ p,
    match p with
    | Suspended σ _ => ∀ state2, saveStateToFile state2 σ = Return σ false
    | _ => True
    end.





(** C4: a load returns what the host handed over, and it throws nothing
    but the [TypeError] of its [catch] block, when the last call was
    rejected with a value whose message cannot be read. *)
Definition load_outcome : list event → point value → Prop :=
  λ tr p,
    match p with
    | Suspended _ _ => True
    | Returned _ v => v = loaded tr
    | Thrown _ e =>
        ∃ R (c : call R) r err,
          last tr = Some (Ev c (Rejected r))
          ∧ is_unreadable_rejection (Ev c (Rejected r)) = true
          ∧ mentions_not_found r = inl err
          ∧ e = AnError err
    end.


(** C6 as stated: the status once [initialize] has returned. *)
Definition status_follows_load : list event → point unit → Prop :=
  λ tr p,
    match p with
    | Returned σ _ =>
        saveStatus (this σ) = (if truthy (loaded tr) then SAVED else UNSAVED)
    | _ => True
    end.

(** C6: the same, when the load has not thrown. *)
Definition status_after_init : list event → point unit → Prop :=
  λ tr p,
    match p with
    | Returned σ _ =>
        load_threw tr = false →
        saveStatus (this σ) = (if truthy (loaded tr) then SAVED else UNSAVED)
    | _ => True
    end.

(** C10: no status store, and the status still [SAVED]. *)
Definition status_untouched {A} : list event → point A → Prop :=
  λ _ p,
    syncStatusStore (this (world_of p)) = None
    ∧ getSaveStatus (world_of p) = SAVED.
End property_definitions.

(** ** A page, a binding and a host to run the plugin against *)

(** The functions every plain object inherits. *)
Definition Object_prototype_functions : list string :=
  ["constructor"; "hasOwnProperty"; "isPrototypeOf"; "propertyIsEnumerable";
   "toLocaleString"; "toString"; "valueOf"; "__defineGetter__";
   "__defineSetter__"; "__lookupGetter__"; "__lookupSetter__"].

Definition demo_runtime : Runtime :=
  {| btoa := inr;
     nanoid := λ n, "id" +:+ pretty n;
     dateToString := pretty;
     patch := λ _ partial, partial;
     inherited := λ name,
       if decide (name = "__proto__") then Some "[object Object]"
       else if decide (name ∈ Object_prototype_functions)
            then Some ("function " +:+ name +:+ "() { [native code] }")
            else None |}.

Definition demo_config : Config.t :=
  {| Config.keyPrefix := "demo";
     Config.isSeparateStateForEachUser := false;
     Config.autoSaveIntervalMinutes := 0;
     Config.showInitialAlert := true;
     Config.enableSaveHotkey := true |}.

(** A configuration as the caller writes it. *)
Definition raw (cfg : Config.t) : RawConfig.t :=
  {| RawConfig.keyPrefix := VStr (Config.keyPrefix cfg);
     RawConfig.isSeparateStateForEachUser :=
       VBool (Config.isSeparateStateForEachUser cfg);
     RawConfig.autoSaveIntervalMinutes :=
       VNum (Config.autoSaveIntervalMinutes cfg);
     RawConfig.showInitialAlert := VBool (Config.showInitialAlert cfg);
     RawConfig.enableSaveHotkey := VBool (Config.enableSaveHotkey cfg) |}.

(** The plugin as [new TeraFileSyncPlugin(demo_config)] leaves it. *)
Definition fresh_plugin : Plugin :=
  {| config := demo_config;
     initialized := false;
     teraReady := false;
     vueInstance := None;
     userId := None;
     saveInProgress := false;
     autoSaveInterval := None;
     saveStatus := SAVED;
     hasShownInitialAlert := false;
     syncStatusStore := None |}.

Definition demo_project (temp : gmap string value) : Project.t :=
  {| Project.id := Some "p1"; Project.temp := Some temp |}.

Definition demo_tera (temp : gmap string value) : TeraInstance :=
  {| has_getUser := true;
     has_getProjectFileContents := true;
     has_setProjectFileContents := true;
     has_uiProgress := true;
     has_createProjectFile := true;
     has_setProjectState := true;
     project := Some (demo_project temp) |}.

Definition demo_vue (temp : gmap string value) : VueInstance :=
  {| tera := Some (demo_tera temp); has_notify := false |}.

Definition demo_window : Window :=
  {| __pinia := Some {| _s := ∅; trackers := 0 |};
     keydownListener := false;
     beforeunloadListener := false;
     intervals := ∅;
     notices := [];
     nanoids := 0 |}.

(** The plugin with per-user state enabled. *)
Definition per_user_plugin : Plugin :=
  {| config :=
       {| Config.keyPrefix := "demo";
          Config.isSeparateStateForEachUser := true;
          Config.autoSaveIntervalMinutes := 0;
          Config.showInitialAlert := true;
          Config.enableSaveHotkey := true |};
     initialized := false;
     teraReady := false;
     vueInstance := Some (demo_vue ∅);
     userId := None;
     saveInProgress := false;
     autoSaveInterval := None;
     saveStatus := SAVED;
     hasShownInitialAlert := false;
     syncStatusStore := None |}.

(** A page where nothing is bound yet. *)
Definition fresh_world : World :=
  {| this := fresh_plugin; window := demo_window |}.

(** The plugin bound to a project that already records a backing file. *)
Definition bound_plugin (temp : gmap string value) : Plugin :=
  set_vueInstance (Some (demo_vue temp)) fresh_plugin.

Definition bound_world (temp : gmap string value) : World :=
  {| this := bound_plugin temp; window := demo_window |}.

Definition per_user_world : World :=
  {| this := per_user_plugin; window := demo_window |}.

(** The plugin bound and told that TERA is ready, on a page without
    Pinia. *)
Definition no_pinia_world (temp : gmap string value) : World :=
  {| this := set_teraReady true (bound_plugin temp);
     window := set_pinia None demo_window |}.

(** The same after a first initialization: ready, with its status store. *)
Definition ready_world (temp : gmap string value) : World :=
  {| this := set_syncStatusStore (Some {| SyncStore.saveStatus := SAVED |})
               (set_teraReady true (bound_plugin temp));
     window := demo_window |}.

Definition demo_temp : gmap string value :=
  {[ "demo" := VStr "data-demo-x.json" ]}.

Definition demo_state : value :=
  VObj {[ "a" := VObj {[ "x" := VNum 1 ]} ]}.

(** [path] without its prefix [prefix]. *)
Fixpoint strip_prefix (prefix path : string) : option string :=
  match prefix, path with
  | EmptyString, _ => Some path
  | String a prefix', String b path' =>
      if Ascii.eqb a b then strip_prefix prefix' path' else None
  | String _ _, EmptyString => None
  end.

(** The host side of [setProjectState('temp.<key>', v)]: the value is
    recorded in [project.temp] under [key], where [getStorageFileName]
    looks it up. *)
Definition record_temp (key : string) (v : value) (σ : World) : World :=
  match bound_project (this σ) with
  | Some pr => assign_temp (<[key := v]> (default ∅ (Project.temp pr))) σ
  | None => σ
  end.

(** A host where every call succeeds: the user is [u1], files are empty,
    and project state is recorded. *)
Definition host_ok : host := λ R c,
  match c in call R return World → settled R * World with
  | GetUser => λ σ, (Resolved {| User.id := "u1" |}, σ)
  | GetProjectFileContents _ => λ σ, (Resolved VNull, σ)
  | SetProjectFileContents _ _ => λ σ, (Resolved tt, σ)
  | UiProgress _ => λ σ, (Resolved tt, σ)
  | CreateProjectFile _ => λ σ, (Resolved tt, σ)
  | SetProjectState path v => λ σ,
      (Resolved tt,
       match strip_prefix "temp." path with
       | Some key => record_temp key v σ
       | None => σ
       end)
  end.


(** The same host, except that its user has the empty id. *)
Definition host_anonymous : host := λ R c,
  match c in call R return World → settled R * World with
  | GetUser => λ σ, (Resolved {| User.id := "" |}, σ)
  | c => host_ok _ c
  end.

(** ** Hosts that keep the project metadata *)




(** * Part 4, continued: further properties *)

(** Nothing else runs while a method is suspended. *)
Definition rely_quiet : pending → World → World → Prop := λ _ σ σ', σ' = σ.

(** The stores are not changed while a method is suspended. *)
Definition rely_stores : pending → World → World → Prop :=
  λ _ σ σ', __pinia (window σ') = __pinia (window σ).

(** The status the plugin reports is the one its status store shows;
    before the store exists it is [SAVED]. *)
Definition status_agrees (σ : World) : Prop :=
  match syncStatusStore (this σ) with
  | Some store => SyncStore.saveStatus store = saveStatus (this σ)
  | None => saveStatus (this σ) = SAVED
  end.

(** Other tasks keep that agreement. *)
Definition rely_agrees : pending → World → World → Prop :=
  λ _ σ σ', status_agrees σ → status_agrees σ'.

Definition is_write (e : event) : bool :=
  match e with
  | Ev (SetProjectFileContents _ _) _ => true
  | _ => false
  end.

(** The last call of the trace is a dismissal of the progress indicator
    that the host rejected. *)
Definition hide_failed (tr : list event) : bool :=
  match last tr with
  | Some (Ev (UiProgress ProgressHide) (Rejected _)) => true
  | _ => false
  end.

(** The plugin as [new TeraFileSyncPlugin()] leaves it, on the demo
    page: auto-save every ten minutes. *)
Definition default_world : World :=
  {| this :=
       {| config := DEFAULT_CONFIG;
          initialized := false;
          teraReady := false;
          vueInstance := None;
          userId := None;
          saveInProgress := false;
          autoSaveInterval := None;
          saveStatus := SAVED;
          hasShownInitialAlert := false;
          syncStatusStore := None |};
     window := demo_window |}.

(** A page with one store, tracked, in state [demo_state]. *)
Definition demo_pinia : Pinia :=
  {| _s := {[ "a" := {| state := demo_state; tracked := true |} ]};
     trackers := 1 |}.

Definition stores_world : World :=
  on_window (set_pinia (Some demo_pinia)) (ready_world demo_temp).

(** The plugin in the middle of a save: the guard set, the status
    [SAVING]. *)
Definition saving_world : World :=
  on_this (λ p, set_syncStatusStore (Some {| SyncStore.saveStatus := SAVING |})
                  (set_saveStatus SAVING (set_saveInProgress true p)))
    (ready_world demo_temp).

(** A page with one store, untracked and empty, and no plugin bound. *)
Definition empty_store_world : World :=
  on_window (set_pinia (Some {| _s := {[ "a" := {| state := VNull;
                                                   tracked := false |} ]};
                                trackers := 0 |})) fresh_world.

Section more_property_definitions.
Context `{Runtime}.

(** What [$patch] makes of a store, given its part of the document. *)
Definition patched (store : PiniaStore) (storeState : value) : PiniaStore :=
  {| state := patch (state store) (spread (objectToMapSet storeState));
     tracked := tracked store |}.
End more_property_definitions.

(** ** Points of the resolver, of a save and of a load *)

(** Where [getStorageFileName] can stand: it calls [getUser],
    [createProjectFile] and [setProjectState] only, records a name under
    [temp.<key>] right after the file of that name has been created, and
    returns a locator [<dir>/<name>] with a name that is not empty. *)
Definition resolver_point : list event → point string → Prop :=
  λ tr p,
    match p with
    | Suspended _ (Calling c) =>
        match c with
        | GetUser | CreateProjectFile _ => True
        | SetProjectState path v =>
            ∃ key name,
              path = "temp." +:+ key ∧ v = VStr name
              ∧ last tr = Some (Ev (CreateProjectFile name) (Resolved tt))
        | _ => False
        end
    | Suspended _ Queued => True
    | Returned _ locator =>
        ∃ dir name, locator = dir +:+ "/" +:+ name ∧ name ≠ ""
    | Thrown _ _ => True
    end.

(** The locator returned is not empty. *)
Definition locator_nonempty : list event → point string → Prop :=
  λ _ p,
    match p with
    | Returned _ locator =>
        locator ≠ "" ∧ ∃ dir name, locator = dir +:+ "/" +:+ name ∧ name ≠ ""
    | _ => True
    end.

(** A name is recorded only for a file just created. *)
Definition recorded_after_creation : list event → point string → Prop :=
  λ tr p,
    match p with
    | Suspended _ (Calling (SetProjectState path v)) =>
        ∃ key name,
          path = "temp." +:+ key ∧ v = VStr name
          ∧ last tr = Some (Ev (CreateProjectFile name) (Resolved tt))
    | _ => True
    end.

(** The calls of an accepted save: the indicator is shown only before
    any other call; the file is never read; and when a write is
    requested, none was requested before. *)
Definition save_calls : list event → point bool → Prop :=
  λ tr p,
    match p with
    | Suspended _ (Calling c) =>
        match c with
        | UiProgress (ProgressShow _) => tr = []
        | SetProjectFileContents _ _ => existsb is_write tr = false
        | GetProjectFileContents _ => False
        | _ => True
        end
    | _ => True
    end.

(** How a save settles: it returns whether the write resolved, and it
    throws only when the dismissal of the indicator failed. *)
Definition save_result : list event → point bool → Prop :=
  λ tr p,
    match p with
    | Suspended _ _ => True
    | Returned _ b => b = write_ok tr
    | Thrown σ _ => hide_failed tr = true ∨ dismissible (this σ) = false
    end.

(** Every write pending hands over [content]. *)
Definition writes_only (content : value) : list event → point bool → Prop :=
  λ _ p,
    match p with
    | Suspended _ (Calling (SetProjectFileContents _ c)) => c = content
    | _ => True
    end.

(** Every write pending hands over a document with one part under each
    of the names [named], and no other part. *)
Definition writes_parts (named : string → Prop)
  : list event → point bool → Prop :=
  λ _ p,
    match p with
    | Suspended _ (Calling (SetProjectFileContents _ c)) =>
        ∃ doc, c = VObj doc ∧ ∀ id, is_Some (doc !! id) ↔ named id
    | _ => True
    end.

(** The calls of a load: those of the resolver and, after them, one
    read; nothing is written and the progress indicator is left alone. *)
Definition load_calls : list event → point value → Prop :=
  λ tr p,
    match p with
    | Suspended _ (Calling c) =>
        existsb is_read tr = false
        ∧ match c with
          | SetProjectFileContents _ _ | UiProgress _ => False
          | _ => True
          end
    | _ => True
    end.

(** The calls of [initialize]: the loading indicator is shown only
    before any other call, the file is read at most once and never
    written. *)
Definition init_calls : list event → point unit → Prop :=
  λ tr p,
    match p with
    | Suspended _ (Calling c) =>
        match c with
        | SetProjectFileContents _ _ => False
        | UiProgress (ProgressShow _) => tr = []
        | GetProjectFileContents _ => existsb is_read tr = false
        | _ => True
        end
    | _ => True
    end.

(** [initialize] throws only the rejection of its first call. *)
Definition throws_only_on_show : list event → point unit → Prop :=
  λ tr p,
    match p with
    | Thrown _ e =>
        tr = [Ev (UiProgress (ProgressShow "Loading tool data")) (Rejected e)]
    | _ => True
    end.

(** [setTeraReady] throws the validation error, at once, or the
    rejection of the first call of [initialize]. *)
Definition setTeraReady_throws (σ0 : World) : list event → point unit → Prop :=
  λ tr p,
    match p with
    | Thrown σ e =>
        (tr = [] ∧ σ = σ0
         ∧ ∃ err : Error,
             e = AnError err
             ∧ validateVueInstance (vueInstance (this σ0)) = inl err)
        ∨ tr = [Ev (UiProgress (ProgressShow "Loading tool data")) (Rejected e)]
    | _ => True
    end.

(** The agreement holds wherever the method stands. *)
Definition always_agrees {A} : list event → point A → Prop :=
  λ _ p, status_agrees (world_of p).

(** A save that was requested and dropped: it makes no call and
    resolves to [false]. *)
Definition dropped : list event → point bool → Prop :=
  λ tr p,
    tr = []
    ∧ match p with
      | Suspended _ w => w = Queued
      | Returned _ b => b = false
      | Thrown _ _ => False
      end.

Section around_a_save.
Context `{Runtime}.

(** The unload warning around a save: none while the save is under way;
    once it has returned, the warning is given, and the auto-save timer
    starts a save at its next tick, exactly when the save failed. *)
Definition unload_warning : list event → point bool → Prop :=
  λ _ p,
    match p with
    | Suspended σ w =>
        is_hide w = false → ∀ ev, (handleBeforeUnload ev σ).2 = None
    | Returned σ b =>
        (∀ ev, (handleBeforeUnload ev σ).2 = None ↔ b = true)
        ∧ (autoSaveTick σ = None ↔ b = true)
    | Thrown _ _ => True
    end.
End around_a_save.

(** ** What [initialize] sets up *)

(** The set-up is complete: the unload listener is registered, the
    hotkey listener too if the hotkey is enabled, the notice about manual
    saving has been issued if it is enabled, and with auto-save enabled
    the plugin holds a live timer of the configured period. *)
Definition set_up_done (σ : World) : Prop :=
  beforeunloadListener (window σ) = true
  ∧ (Config.enableSaveHotkey (config (this σ)) = true →
     keydownListener (window σ) = true)
  ∧ (Config.showInitialAlert (config (this σ)) = true →
     hasShownInitialAlert (this σ) = true)
  ∧ ((0 < Config.autoSaveIntervalMinutes (config (this σ)))%Z →
     ∃ h, autoSaveInterval (this σ) = Some h
          ∧ intervals (window σ) !! h
            = Some (Config.autoSaveIntervalMinutes (config (this σ))
                    * 60 * 1000)%Z).

(** What the set-up touches. *)
Definition setup_view (σ : World)
  : bool * bool * gmap nat Z * list notice * option nat * bool :=
  (keydownListener (window σ), beforeunloadListener (window σ),
   intervals (window σ), notices (window σ),
   autoSaveInterval (this σ), hasShownInitialAlert (this σ)).

(** [initialize], once it has returned after passing its guard, its
    load not having thrown: the plugin is marked initialized, and the
    set-up is complete unless the dismissal of the loading indicator was
    rejected, in which case none of it was done. *)
Definition initialized_and_set_up (σ0 : World)
  : list event → point unit → Prop :=
  λ tr p,
    match p with
    | Returned σ _ =>
        load_threw tr = false →
        initialized (this σ) = true
        ∧ (set_up_done σ
           ∨ (hide_failed tr = true ∧ setup_view σ = setup_view σ0))
    | _ => True
    end.

(** Two states with the same binding and the same set-up. *)
Definition same_binding (σ σ' : World) : Prop :=
  vueInstance (this σ') = vueInstance (this σ)
  ∧ setup_view σ' = setup_view σ.

(** * Part 5: proofs *)
(** ** Induction on values *)

Section value_induction.
Context {K : Type} `{Countable K}.

Lemma map_fold_sum_bound (f : value → nat) (m : gmap K value) k x :
  m !! k = Some x → (f x ≤ map_fold (λ _ y n, f y + n) 0 m)%nat.
Proof.
  revert k x.
  apply (map_fold_weak_ind
           (λ r (m : gmap K value), ∀ k x, m !! k = Some x → (f x ≤ r)%nat)).
  - intros k x. by rewrite lookup_empty.
  - intros i y m' r Hi IH k x.
    rewrite lookup_insert. case_decide; intros Hk.
    + simplify_eq. lia.
    + specialize (IH _ _ Hk). lia.
Qed.

Lemma map_fold_andb_true (f : value → bool) (m : gmap K value) :
  map_fold (λ _ y b, f y && b) true m = true ↔ map_Forall (λ _ y, f y = true) m.
Proof.
  apply (map_fold_weak_ind
           (λ r (m : gmap K value), r = true ↔ map_Forall (λ _ y, f y = true) m)).
  - split; [intros _; apply map_Forall_empty | done].
  - intros i y m' r Hi IH.
    rewrite andb_true_iff, IH, map_Forall_insert by done. tauto.
Qed.
End value_induction.

Lemma sum_list_bound (f : value → nat) (xs : list value) x :
  x ∈ xs → (f x ≤ sum_list (f <$> xs))%nat.
Proof.
  induction 1 as [|? ? ? ? IH]; csimpl; lia.
Qed.

Lemma value_ind' (P : value → Prop) :
  P VUndefined → P VNull → (∀ b, P (VBool b)) → (∀ n, P (VNum n)) →
  (∀ s, P (VStr s)) → (∀ t, P (VDate t)) →
  (∀ xs, Forall P xs → P (VArr xs)) →
  (∀ ps, map_Forall (λ _, P) ps → P (VObj ps)) →
  (∀ es, map_Forall (λ _, P) es → P (VMap es)) →
  (∀ xs, Forall P xs → P (VSet xs)) →
  ∀ v, P v.
Proof.
  intros Hu Hn Hb Hz Hs Hd Harr Hobj Hmap Hset v.
  remember (vsize v) as n eqn:Hsize.
  revert v Hsize. induction (lt_wf n) as [n _ IH]. intros v ->.
  destruct v as [| | | | | |xs|ps|es|xs]; auto.
  - apply Harr, Forall_forall. intros x Hx.
    apply (IH (vsize x)); [|done].
    simpl. pose proof (sum_list_bound vsize xs x Hx). lia.
  - apply Hobj. intros k x Hk.
    apply (IH (vsize x)); [|done].
    simpl. pose proof (map_fold_sum_bound vsize ps k x Hk). lia.
  - apply Hmap. intros k x Hk.
    apply (IH (vsize x)); [|done].
    simpl. pose proof (map_fold_sum_bound vsize es k x Hk). lia.
  - apply Hset, Forall_forall. intros x Hx.
    apply (IH (vsize x)); [|done].
    simpl. pose proof (sum_list_bound vsize xs x Hx). lia.
Qed.

(** ** Sequences of assignments *)

Section assign_entries.
Context {K K' : Type} `{Countable K, Countable K'}.
Implicit Types (f : K → option K') (acc : gmap K' value).

Lemma assign_entries_snoc f acc l kv :
  assign_entries f acc (l ++ [kv]) =
    match f kv.1 with
    | Some j => <[j := kv.2]> (assign_entries f acc l)
    | None => assign_entries f acc l
    end.
Proof. unfold assign_entries. by rewrite foldl_app. Qed.

(** When colliding assignments carry the same value, the result holds
    exactly the assigned values, over what [acc] held. *)
Lemma assign_entries_lookup_list f acc (l : list (K * value)) j x :
  (∀ k1 v1 k2 v2 i, (k1, v1) ∈ l → (k2, v2) ∈ l →
                    f k1 = Some i → f k2 = Some i → v1 = v2) →
  assign_entries f acc l !! j = Some x ↔
    (∃ k, (k, x) ∈ l ∧ f k = Some j)
    ∨ (acc !! j = Some x ∧ ∀ k v, (k, v) ∈ l → f k ≠ Some j).
Proof.
  revert j x. induction l as [|[k0 v0] l IH] using rev_ind; intros j x Hfun.
  - simpl. split.
    + intros Hacc. right. split; [done|]. intros k v Hin. by apply elem_of_nil in Hin.
    + intros [(k & Hin & _)|[Hacc _]]; [by apply elem_of_nil in Hin|done].
  - assert (Hfun' : ∀ k1 v1 k2 v2 i, (k1, v1) ∈ l → (k2, v2) ∈ l →
                      f k1 = Some i → f k2 = Some i → v1 = v2).
    { intros k1 v1 k2 v2 i H1 H2. apply Hfun; apply elem_of_app; by left. }
    rewrite assign_entries_snoc. simpl.
    assert (Hlast : (k0, v0) ∈ l ++ [(k0, v0)]).
    { apply elem_of_app. right. by apply list_elem_of_singleton. }
    destruct (f k0) as [j0|] eqn:Hf0.
    + rewrite lookup_insert. case_decide as Hj.
      * subst j0. split.
        -- intros [= <-]. left. by exists k0.
        -- intros [(k & Hin & Hfk)|[_ Hno]].
           ++ f_equal. by eapply (Hfun k0 v0 k x j).
           ++ by destruct (Hno k0 v0).
      * rewrite IH by done. split.
        -- intros [(k & Hin & Hfk)|[Hacc Hno]].
           ++ left. exists k. split; [|done]. apply elem_of_app. by left.
           ++ right. split; [done|]. intros k v Hin.
              apply elem_of_app in Hin as [Hin|Hin]; [by eapply Hno|].
              apply list_elem_of_singleton in Hin. simplify_eq; congruence.
        -- intros [(k & Hin & Hfk)|[Hacc Hno]].
           ++ apply elem_of_app in Hin as [Hin|Hin]; [left; by exists k|].
              apply list_elem_of_singleton in Hin. simplify_eq; congruence.
           ++ right. split; [done|]. intros k v Hin.
              eapply Hno. apply elem_of_app. by left.
    + rewrite IH by done. split.
      * intros [(k & Hin & Hfk)|[Hacc Hno]].
        -- left. exists k. split; [|done]. apply elem_of_app. by left.
        -- right. split; [done|]. intros k v Hin.
           apply elem_of_app in Hin as [Hin|Hin]; [by eapply Hno|].
           apply list_elem_of_singleton in Hin. simplify_eq; congruence.
      * intros [(k & Hin & Hfk)|[Hacc Hno]].
        -- apply elem_of_app in Hin as [Hin|Hin]; [left; by exists k|].
           apply list_elem_of_singleton in Hin. simplify_eq; congruence.
        -- right. split; [done|]. intros k v Hin.
           eapply Hno. apply elem_of_app. by left.
Qed.

(** The same for the entries of a map, whose keys [f] sends to distinct
    targets. *)
Lemma assign_entries_lookup f acc (m : gmap K value) j x :
  (∀ k1 k2 i, is_Some (m !! k1) → is_Some (m !! k2) →
              f k1 = Some i → f k2 = Some i → k1 = k2) →
  assign_entries f acc (map_to_list m) !! j = Some x ↔
    (∃ k, m !! k = Some x ∧ f k = Some j)
    ∨ (acc !! j = Some x ∧ ∀ k, is_Some (m !! k) → f k ≠ Some j).
Proof.
  intros Hinj. rewrite assign_entries_lookup_list.
  - split.
    + intros [(k & Hin & Hfk)|[Hacc Hno]].
      * left. exists k. by rewrite <-elem_of_map_to_list.
      * right. split; [done|]. intros k [v Hv]. eapply Hno.
        by apply elem_of_map_to_list.
    + intros [(k & Hin & Hfk)|[Hacc Hno]].
      * left. exists k. by rewrite elem_of_map_to_list.
      * right. split; [done|]. intros k v Hin%elem_of_map_to_list. eauto.
  - intros k1 v1 k2 v2 i H1%elem_of_map_to_list H2%elem_of_map_to_list Hf1 Hf2.
    assert (k1 = k2) by (eapply Hinj; eauto). simplify_eq. congruence.
Qed.
End assign_entries.


(** Copying it by assignment leaves out a property named [__proto__]. *)
Lemma assign_entries_own (m : gmap string value) :
  assign_entries own_key ∅ (map_to_list m) = delete "__proto__" m.
Proof.
  apply map_eq. intros j. apply option_eq. intros x.
  rewrite assign_entries_lookup, lookup_empty.
  - unfold own_key. split.
    + intros [(k & Hk & Hj)|[? _]]; [|done].
      case_decide; [done|]. injection Hj as <-. by rewrite lookup_delete_ne.
    + intros Hj. left. exists j.
      destruct (decide (j = "__proto__")) as [->|Hne].
      * by rewrite lookup_delete_eq in Hj.
      * by rewrite lookup_delete_ne in Hj.
  - unfold own_key. intros k1 k2 i _ _ E1 E2.
    repeat case_decide; congruence.
Qed.

Lemma assign_entries_own_id (m : gmap string value) :
  m !! "__proto__" = None → assign_entries own_key ∅ (map_to_list m) = m.
Proof. intros Hm. by rewrite assign_entries_own, delete_id. Qed.

(** ** Reading the side conditions *)

Lemma forallb_Forall {A} (f : A → bool) (xs : list A) :
  forallb f xs = true ↔ Forall (λ x, f x = true) xs.
Proof.
  induction xs as [|x xs IH]; simpl.
  - split; [constructor|done].
  - rewrite andb_true_iff, Forall_cons, IH. tauto.
Qed.

Lemma NoDup_fmap_inj_on {A B} (f : A → B) (l : list A) x y :
  NoDup (f <$> l) → x ∈ l → y ∈ l → f x = f y → x = y.
Proof.
  induction l as [|a l IH]; csimpl; intros Hnd Hx Hy Hxy.
  - by apply elem_of_nil in Hx.
  - apply NoDup_cons in Hnd as [Ha Hnd].
    apply elem_of_cons in Hx as [->|Hx]; apply elem_of_cons in Hy as [->|Hy];
      [done| | |by apply IH].
    + destruct Ha. rewrite Hxy. by apply list_elem_of_fmap_2.
    + destruct Ha. rewrite <-Hxy. by apply list_elem_of_fmap_2.
Qed.

Lemma elem_of_map_keys {K} `{Countable K} (m : gmap K value) k :
  k ∈ (map_to_list m).*1 ↔ is_Some (m !! k).
Proof.
  rewrite list_elem_of_fmap. split.
  - intros ([k' x] & -> & Hin%elem_of_map_to_list). by exists x.
  - intros [x Hx]. exists (k, x). by rewrite elem_of_map_to_list.
Qed.

Lemma key_strings_inj (es : gmap mkey value) k1 k2 :
  NoDup (key_strings es) → is_Some (es !! k1) → is_Some (es !! k2) →
  key_to_string k1 = key_to_string k2 → k1 = k2.
Proof.
  intros Hnd H1%elem_of_map_keys H2%elem_of_map_keys.
  by apply (NoDup_fmap_inj_on key_to_string (map_to_list es).*1).
Qed.

Lemma key_strings_fresh (es : gmap mkey value) s k :
  s ∉ key_strings es → is_Some (es !! k) → key_to_string k ≠ s.
Proof.
  intros Hs Hk%elem_of_map_keys <-. apply Hs. by apply list_elem_of_fmap_2.
Qed.

(** ** Sets *)

Lemma same_value_zero_sym a b : same_value_zero a b = same_value_zero b a.
Proof.
  destruct a, b; simpl; try done.
  - by destruct b, b0.
  - apply Z.eqb_sym.
  - apply String.eqb_sym.
Qed.


Lemma new_Set_distinct_acc (acc xs : list value) :
  Forall (λ x, existsb (same_value_zero x) acc = false) xs →
  distinct_members xs = true →
  foldl set_add acc xs = acc ++ xs.
Proof.
  revert acc. induction xs as [|x xs IH]; intros acc Hacc Hxs; simpl.
  - by rewrite app_nil_r.
  - apply Forall_cons in Hacc as [Hx Hacc].
    simpl in Hxs. apply andb_true_iff in Hxs as [Hfresh Hxs].
    apply negb_true_iff in Hfresh.
    unfold set_add at 2. rewrite Hx.
    rewrite IH, <-app_assoc; [done| |done].
    apply Forall_forall. intros y Hy.
    rewrite existsb_app. rewrite Forall_forall in Hacc. rewrite (Hacc y Hy).
    simpl. rewrite orb_false_r.
    destruct (same_value_zero y x) eqn:Hyx; [|done].
    assert (existsb (same_value_zero x) xs = true) as Hex; [|congruence].
    apply existsb_exists. exists y. split; [by apply list_elem_of_In|].
    by rewrite same_value_zero_sym.
Qed.

(** Rebuilding a [Set] from its own members gives the same members. *)
Lemma new_Set_distinct (xs : list value) :
  distinct_members xs = true → new_Set xs = xs.
Proof.
  intros Hxs. unfold new_Set. rewrite new_Set_distinct_acc; [done| |done].
  by apply Forall_forall.
Qed.



(** ** The decoder on a tagged set, as the source reads it *)

Lemma objectToMapSet_array_inv v ys :
  objectToMapSet v = VArr ys → ∃ xs, v = VArr xs ∧ ys = objectToMapSet <$> xs.
Proof.
  destruct v as [| | | | | |xs|ps| |]; simpl; try done.
  - intros [= <-]. by exists xs.
  - destruct (ps !! "__isMap"); [done|].
    destruct (ps !! "__isSet"); [|done].
    by destruct ((objectToMapSet <$> ps) !! "values") as [[]|].
Qed.

Lemma objectToMapSet_tagged_set (ps : gmap string value) :
  ps !! "__isMap" = None → is_Some (ps !! "__isSet") →
  objectToMapSet (VObj ps) =
    match ps !! "values" with
    | Some (VArr xs) => VSet (new_Set (objectToMapSet <$> xs))
    | _ => VObj ps
    end.
Proof.
  intros Hmap [t Hset]. simpl. rewrite Hmap, Hset, lookup_fmap.
  destruct (ps !! "values") as [v|] eqn:Hv; simpl; [|done].
  destruct (objectToMapSet v) as [| | | | | |ys| | |] eqn:Hdec.
  7: by apply objectToMapSet_array_inv in Hdec as (xs & -> & ->).
  all: destruct v as [| | | | | |? | | |]; done.
Qed.

(** ** The codec on plain objects *)

Lemma mapSetToObject_object (ps : gmap string value) :
  mapSetToObject (VObj ps) = VObj (delete "__proto__" (mapSetToObject <$> ps)).
Proof.
  change (mapSetToObject (VObj ps)) with
    (VObj (assign_entries own_key ∅ (map_to_list (mapSetToObject <$> ps)))).
  by rewrite assign_entries_own.
Qed.

Lemma mapSetToObject_plain (ps : gmap string value) :
  ps !! "__proto__" = None →
  mapSetToObject (VObj ps) = VObj (mapSetToObject <$> ps).
Proof.
  intros Hp. rewrite mapSetToObject_object, delete_id; [done|].
  by rewrite lookup_fmap, Hp.
Qed.

Lemma objectToMapSet_object (ps : gmap string value) :
  ps !! "__isMap" = None → ps !! "__isSet" = None →
  objectToMapSet (VObj ps) = VObj (delete "__proto__" (objectToMapSet <$> ps)).
Proof.
  intros Hm Hs.
  transitivity (VObj (assign_entries own_key ∅ (map_to_list (objectToMapSet <$> ps)))).
  - cbn [objectToMapSet]. by rewrite Hm, Hs.
  - by rewrite assign_entries_own.
Qed.

Lemma objectToMapSet_plain (ps : gmap string value) :
  ps !! "__isMap" = None → ps !! "__isSet" = None → ps !! "__proto__" = None →
  objectToMapSet (VObj ps) = VObj (objectToMapSet <$> ps).
Proof.
  intros Hm Hs Hp. rewrite objectToMapSet_object by done.
  rewrite delete_id; [done|]. by rewrite lookup_fmap, Hp.
Qed.

(** ** The round trip *)






(** With string keys only, coercing the keys changes nothing: the round
    trip then reproduces the value itself. *)
Lemma with_string_keys_id (v : value) :
  string_keyed v = true → with_string_keys v = v.
Proof.
  induction v as [| | | | | |xs IH|ps IH|es IH|xs IH] using value_ind';
    intros Hkeys; try done.
  - simpl in *. f_equal. apply forallb_Forall in Hkeys.
    rewrite <-(list_fmap_id xs) at 2. apply Forall_fmap_ext.
    rewrite Forall_forall in IH, Hkeys. apply Forall_forall.
    intros x Hx. by apply IH, Hkeys.
  - simpl in *. f_equal. apply map_fold_andb_true in Hkeys.
    rewrite <-(map_fmap_id ps) at 2. apply map_fmap_ext.
    intros k x Hk. eapply IH; [done|]. by eapply Hkeys.
  - simpl in Hkeys. apply andb_true_iff in Hkeys as [Hstr Hall].
    apply map_fold_andb_true in Hall. apply forallb_Forall in Hstr.
    rewrite Forall_forall in Hstr.
    assert (Hdom : ∀ k, is_Some (es !! k) → ∃ s, k = KStr s).
    { intros k Hk%elem_of_map_keys. specialize (Hstr k Hk).
      destruct k; [by eexists|done]. }
    assert (Hsame : with_string_keys <$> es = es).
    { rewrite <-(map_fmap_id es) at 2. apply map_fmap_ext.
      intros k x Hk. eapply IH; [done|]. by eapply Hall. }
    simpl. rewrite Hsame. f_equal.
    apply map_eq. intros j. apply option_eq. intros x.
    rewrite assign_entries_lookup, lookup_empty.
    + split.
      * intros [(k & Hk & [= <-])|[? _]]; [|done].
        destruct (Hdom k) as [s ->]; [by eexists|done].
      * intros Hj. left. exists j. split; [done|].
        destruct (Hdom j) as [s ->]; [by eexists|done].
    + intros k1 k2 i H1 H2 [= <-] [= E].
      destruct (Hdom k1 H1) as [s1 ->], (Hdom k2 H2) as [s2 ->].
      simpl in E. by simplify_eq.
  - simpl in *. f_equal. apply forallb_Forall in Hkeys.
    rewrite <-(list_fmap_id xs) at 2. apply Forall_fmap_ext.
    rewrite Forall_forall in IH, Hkeys. apply Forall_forall.
    intros x Hx. by apply IH, Hkeys.
Qed.

(** Two keys that coerce to the same property name: one entry is lost. *)
Example colliding_keys_lose_an_entry :
  objectToMapSet (mapSetToObject (VMap {[ KNum 1 := VNull; KStr "1" := VNull ]}))
  = VMap {[ KStr "1" := VNull ]}.
Proof. by vm_compute. Qed.

(** A [Map] key that reads [__isMap] is dropped. *)
Example tag_key_is_dropped :
  objectToMapSet (mapSetToObject (VMap {[ KStr "__isMap" := VNum 5 ]})) = VMap ∅.
Proof. by vm_compute. Qed.

(** An entry under [__proto__] becomes no property of the encoding, of a
    [Map] as of a plain object. *)
Example proto_key_is_dropped :
  mapSetToObject (VMap {[ KStr "__proto__" := VNum 5 ]})
  = VObj {[ "__isMap" := VBool true ]}
  ∧ mapSetToObject (VObj {[ "__proto__" := VNum 5; "a" := VNum 1 ]})
    = VObj {[ "a" := VNum 1 ]}
  ∧ objectToMapSet (VObj {[ "__proto__" := VNum 5; "a" := VNum 1 ]})
    = VObj {[ "a" := VNum 1 ]}.
Proof. by vm_compute. Qed.

(** A tagged object whose [values] is not an array is returned as it is. *)
Example malformed_set_is_returned :
  objectToMapSet (VObj {[ "__isSet" := VBool true ]})
  = VObj {[ "__isSet" := VBool true ]}.
Proof. by vm_compute. Qed.

(** The set of the specification: [{"a", "b"}]. *)
Example set_encoding :
  mapSetToObject (VSet [VStr "a"; VStr "b"])
  = VObj {[ "__isSet" := VBool true; "values" := VArr [VStr "a"; VStr "b"] ]}
  ∧ objectToMapSet (mapSetToObject (VSet [VStr "a"; VStr "b"]))
    = VSet [VStr "a"; VStr "b"].
Proof. by vm_compute. Qed.

(** ** Reasoning about executions *)

Section safe_rules.
Context {A : Type} (rely : pending → World → World → Prop).

Lemma safe_mono (Q Q' : list event → point A → Prop) tr (t : step A) :
  (∀ tr' p, Q tr' p → Q' tr' p) → safe rely Q tr t → safe rely Q' tr t.
Proof.
  intros HQ. revert tr.
  induction t as [σ a|σ e|R σ c k IH|σ k IH]; intros tr; simpl; auto.
  - intros [Hq Hk]. split; [auto|]. intros r σ' Hr. apply IH; auto.
  - intros [Hq Hk]. split; [auto|]. intros σ' Hr. apply IH; auto.
Qed.

(** Sequencing: the rest of the method runs from each point where the
    first part returns. *)
Lemma safe_bind_step {B} (Q : list event → point B → Prop) tr
    (t : step A) (f : A → async B) :
  safe rely (λ tr' p, match p with
                      | Returned σ a => safe rely Q tr' (f a σ)
                      | Thrown σ e => Q tr' (Thrown σ e)
                      | Suspended σ w => Q tr' (Suspended σ w)
                      end) tr t →
  safe rely Q tr (bind_step t f).
Proof.
  revert tr.
  induction t as [σ a|σ e|R σ c k IH|σ k IH]; intros tr; simpl; auto.
  - intros [Hq Hk]. split; [auto|]. intros r σ' Hr. apply IH; auto.
  - intros [Hq Hk]. split; [auto|]. intros σ' Hr. apply IH; auto.
Qed.

(** Handling: the handler runs from each point where the body throws. *)
Lemma safe_catch_step (Q : list event → point A → Prop) tr
    (t : step A) (h : reason → async A) :
  safe rely (λ tr' p, match p with
                      | Returned σ a => Q tr' (Returned σ a)
                      | Thrown σ e => safe rely Q tr' (h e σ)
                      | Suspended σ w => Q tr' (Suspended σ w)
                      end) tr t →
  safe rely Q tr (catch_step t h).
Proof.
  revert tr.
  induction t as [σ a|σ e|R σ c k IH|σ k IH]; intros tr; simpl; auto.
  - intros [Hq Hk]. split; [auto|]. intros r σ' Hr. apply IH; auto.
  - intros [Hq Hk]. split; [auto|]. intros σ' Hr. apply IH; auto.
Qed.
End safe_rules.

Section async_rules.
Context (rely : pending → World → World → Prop).

Lemma safe_bind {A B} (Q : list event → point B → Prop) tr
    (m : async A) (f : A → async B) σ :
  safe rely (λ tr' p, match p with
                      | Returned σ a => safe rely Q tr' (f a σ)
                      | Thrown σ e => Q tr' (Thrown σ e)
                      | Suspended σ w => Q tr' (Suspended σ w)
                      end) tr (m σ) →
  safe rely Q tr ((do x ← m; f x) σ).
Proof. apply safe_bind_step. Qed.

Lemma safe_modify {B} (Q : list event → point B → Prop) tr
    (f : World → World) (k : unit → async B) σ :
  safe rely Q tr (k tt (f σ)) → safe rely Q tr ((do x ← modify f; k x) σ).
Proof. done. Qed.

Lemma safe_try_catch {A} (Q : list event → point A → Prop) tr
    (m : async A) (h : reason → async A) σ :
  safe rely (λ tr' p, match p with
                      | Returned σ a => Q tr' (Returned σ a)
                      | Thrown σ e => safe rely Q tr' (h e σ)
                      | Suspended σ w => Q tr' (Suspended σ w)
                      end) tr (m σ) →
  safe rely Q tr (try_catch m h σ).
Proof. apply safe_catch_step. Qed.

(** [finally]: the cleanup runs from each point where the body settles,
    and the completion of the body stands unless the cleanup throws. *)
Lemma safe_try_finally {A} (Q : list event → point A → Prop) tr
    (m : async A) (fin : async unit) σ :
  safe rely
    (λ tr' p,
       match p with
       | Suspended σ w => Q tr' (Suspended σ w)
       | Returned σ a =>
           safe rely (λ tr'' p', match p' with
                                 | Suspended σ' w => Q tr'' (Suspended σ' w)
                                 | Returned σ' _ => Q tr'' (Returned σ' a)
                                 | Thrown σ' e' => Q tr'' (Thrown σ' e')
                                 end) tr' (fin σ)
       | Thrown σ e =>
           safe rely (λ tr'' p', match p' with
                                 | Suspended σ' w => Q tr'' (Suspended σ' w)
                                 | Returned σ' _ => Q tr'' (Thrown σ' e)
                                 | Thrown σ' e' => Q tr'' (Thrown σ' e')
                                 end) tr' (fin σ)
       end) tr (m σ) →
  safe rely Q tr (try_finally m fin σ).
Proof.
  intros Hm. unfold try_finally, completion.
  apply safe_bind, safe_try_catch, safe_bind.
  eapply safe_mono; [|exact Hm].
  intros tr' [σ' w|σ' a|σ' e]; simpl; [done| |].
  - intros Hfin. apply safe_bind_step.
    eapply safe_mono; [|exact Hfin]. by intros tr'' [| |].
  - intros Hfin. apply safe_bind_step.
    eapply safe_mono; [|exact Hfin]. by intros tr'' [| |].
Qed.

(** Awaiting a method of the plugin: once it has settled, the caller
    waits for its turn and resumes in the state of that moment. *)
Lemma safe_await_async {A} (Q : list event → point A → Prop) tr
    (m : async A) σ :
  safe rely
    (λ tr' p,
       match p with
       | Suspended σ w => Q tr' (Suspended σ w)
       | Returned σ1 a =>
           Q tr' (Suspended σ1 Queued)
           ∧ ∀ σ2, rely Queued σ1 σ2 → Q tr' (Returned σ2 a)
       | Thrown σ1 e =>
           Q tr' (Suspended σ1 Queued)
           ∧ ∀ σ2, rely Queued σ1 σ2 → Q tr' (Thrown σ2 e)
       end) tr (m σ) →
  safe rely Q tr (await_async m σ).
Proof.
  intros Hm. unfold await_async, completion.
  apply safe_bind, safe_try_catch, safe_bind.
  eapply safe_mono; [|exact Hm].
  intros tr' [σ' w|σ' a|σ' e]; simpl; [done| |]; intros [Hq Hk]; auto.
Qed.
End async_rules.


Lemma safe_and {A} rely (Q1 Q2 : list event → point A → Prop) tr (t : step A) :
  safe rely Q1 tr t → safe rely Q2 tr t →
  safe rely (λ tr' p, Q1 tr' p ∧ Q2 tr' p) tr t.
Proof.
  revert tr. induction t as [σ a|σ e|R σ c k IH|σ k IH]; intros tr; simpl; auto.
  - intros [H1 K1] [H2 K2]. split; [done|]. intros r σ' Hr. apply IH; auto.
  - intros [H1 K1] [H2 K2]. split; [done|]. intros σ' Hr. apply IH; auto.
Qed.

(** A handler that returns catches everything. *)
Lemma safe_catch_all {A} rely tr (t : step A) (a : A) :
  safe rely (λ _ p, match p with Thrown _ _ => False | _ => True end) tr
    (catch_step t (λ _, ret a)).
Proof.
  revert tr. induction t as [σ x|σ e|R σ c k IH|σ k IH]; intros tr; simpl; auto.
Qed.

(** What holds on every execution holds on the one a given host drives,
    if the host stays within [rely]. *)
Lemma safe_advance {A} rely (Q : list event → point A → Prop) (h : host)
    n tr (t : step A) :
  (∀ R (c : call R) σ, rely (Calling c) σ (h R c σ).2) →
  (∀ σ, rely Queued σ σ) →
  safe rely Q tr t → ∃ tr', Q tr' (now (advance h n t)).
Proof.
  intros Hh Hq. revert tr t.
  induction n as [|n IH]; intros tr t Hsafe.
  - exists tr. destruct t; simpl in *; tauto.
  - destruct t as [σ a|σ e|R σ c k|σ k]; simpl in *.
    + by exists tr.
    + by exists tr.
    + destruct Hsafe as [_ Hk]. specialize (Hh R c σ).
      destruct (h R c σ) as [r σ']. eapply IH. by apply Hk.
    + destruct Hsafe as [_ Hk]. eapply IH. by apply Hk.
Qed.

(** The same for a run to completion: [Q] holds of the calls made and of
    the final point. *)
Lemma safe_run {A} rely (Q : list event → point A → Prop) (h : host)
    tr (t : step A) :
  (∀ R (c : call R) σ, rely (Calling c) σ (h R c σ).2) →
  (∀ σ, rely Queued σ σ) →
  safe rely Q tr t → Q (tr ++ (run h t).1) (run h t).2.
Proof.
  intros Hh Hq. revert tr.
  induction t as [σ a|σ e|R σ c k IH|σ k IH]; intros tr Hsafe; simpl in *.
  - by rewrite app_nil_r.
  - by rewrite app_nil_r.
  - destruct Hsafe as [_ Hk]. specialize (Hh R c σ).
    destruct (h R c σ) as [r σ'] eqn:Hc. simpl in Hh.
    specialize (IH r σ' (tr ++ [Ev c r]) (Hk r σ' Hh)).
    destruct (run h (k r σ')) as [tr' p]. simpl in *.
    by rewrite <-app_assoc in IH.
  - destruct Hsafe as [_ Hk]. by apply IH, Hk.
Qed.

(** ** The storage key and the storage file name *)

(** One step of symbolic execution: compute, or split on what blocks. *)
Ltac exec_step :=
  first
    [ progress cbn
    | progress unfold bind, try_catch, try_finally, completion,
        call_tera, the_tera, the_project, gets, modify, ret, throw, lift, resume,
        await
    | match goal with
      | |- _ ∧ _ => split
      | |- ∀ _, _ => intro
      | |- True => exact I
      | |- context [match ?x with _ => _ end] => destruct x eqn:?
      end ].

Section resolver.
Context `{Runtime}.

(** While the locator is resolved, a stable property [I] of the state
    is kept, the progress indicator is not dismissed, and a property
    [T] of the trace that the resolver's own calls preserve is kept. *)
Lemma getStorageFileName_keeps rely (I : World → Prop) (T : list event → Prop)
    tr σ :
  stable I → (∀ w σ σ', rely w σ σ' → I σ → I σ') →
  (∀ tr e, is_resolver_event e = true → T tr → T (tr ++ [e])) →
  I σ → T tr →
  safe rely (λ tr' p, keeps (A:=string) I p ∧ T tr') tr (getStorageFileName σ).
Proof.
  intros (Huser & Htemp & Hnano) Hrely Hev HI HT.
  unfold getStorageFileName, temp_lookup, provision, getStorageKey,
    await_async.
  repeat exec_step.
  all: unfold keeps; cbn; repeat split; eauto 15.
Qed.

(** What the resolver throws is an [Error] of its own or the rejection
    of its last call. *)
Lemma getStorageFileName_raises rely tr σ :
  safe rely (λ tr' p, match p with
                      | Thrown _ e => error_or_rejection tr' e
                      | _ => True
                      end) tr (getStorageFileName σ).
Proof.
  unfold getStorageFileName, temp_lookup, provision, getStorageKey,
    await_async.
  repeat exec_step.
  all: try done.
  all: first [ left; by eexists
             | right; eexists _, _; by rewrite last_snoc ].
Qed.
End resolver.

(** ** Saving *)

(** Hand the resolution of the storage locator over to
    [getStorageFileName_keeps], with invariant [I] and trace property [T]. *)
Ltac resolver_call I T :=
  match goal with
  | |- safe _ _ _ (bind_step (await_async getStorageFileName _) _) =>
      apply safe_bind_step, safe_await_async;
      eapply safe_mono; [|eapply (getStorageFileName_keeps _ I T)]
  end.

Section saving.
Context `{Runtime}.

Lemma updateSaveStatus_saveInProgress status σ :
  saveInProgress (this (updateSaveStatus status σ)) = saveInProgress (this σ).
Proof. unfold updateSaveStatus. by destruct (syncStatusStore _). Qed.

Lemma updateSaveStatus_vueInstance status σ :
  vueInstance (this (updateSaveStatus status σ)) = vueInstance (this σ).
Proof. unfold updateSaveStatus. by destruct (syncStatusStore _). Qed.

Lemma saveStateToFile_rejected state σ :
  saveInProgress (this σ) = true → saveStateToFile state σ = Return σ false.
Proof. intros Hg. unfold saveStateToFile. by rewrite Hg. Qed.

Lemma stable_guard : stable (λ σ, saveInProgress (this σ) = true).
Proof. repeat split; intros [p w]; cbn; auto. Qed.

(** Through the [try] block a property [I] of the state is kept, if the
    resolver, the status updates and the other tasks keep it; and the
    indicator is not dismissed. *)
Lemma save_attempt_keeps rely (I : World → Prop) state tr σ :
  stable I → (∀ w σ σ', rely w σ σ' → I σ → I σ') →
  (∀ status σ, I σ → I (updateSaveStatus status σ)) →
  I (on_this (set_saveInProgress true) σ) →
  safe rely (λ _ p, keeps I p) tr (save_attempt state σ).
Proof.
  intros Hstable Hrely Hupd HI. unfold save_attempt.
  repeat exec_step.
  all: try resolver_call I (λ _ : list event, True).
  all: try (intros tr' [σ1 w|σ1 a|σ1 e] [[HI' Hw] _]; repeat exec_step).
  all: try exact Hstable.
  all: unfold keeps; cbn; repeat split; eauto 10.
Qed.

Lemma save_cleanup_hides rely tr σ :
  safe rely
    (λ _ p, match p with
            | Suspended _ w => is_hide w = true
            | _ => True
            end) tr (save_cleanup σ).
Proof. unfold save_cleanup. repeat exec_step; done. Qed.

(** C2, amended.  From the moment a call of [saveStateToFile] is
    accepted until it reaches its cleanup, at every point where it is
    suspended a second call returns false at once, with no host call and
    no change of state.  (While the first call awaits the dismissal of
    the progress indicator, its last step, the guard is already
    cleared.) *)
Theorem save_guard state σ0 :
  saveInProgress (this σ0) = false →
  safe rely_guard second_call_rejected [] (saveStateToFile state σ0).
Proof.
  intros Hfree.
  unfold saveStateToFile at 1. rewrite Hfree.
  assert (Hcleanup : ∀ tr σ (P : point unit → Prop),
             (∀ p, P p) →
             safe rely_guard
               (λ tr' p, match p with
                         | Suspended σ' w =>
                             second_call_rejected tr' (Suspended σ' w)
                         | _ => P p
                         end) tr (save_cleanup σ)).
  { intros tr σ P HP. eapply safe_mono; [|apply save_cleanup_hides].
    intros tr' [σ' w|σ' a|σ' e]; simpl; auto. congruence. }
  apply safe_try_finally, safe_try_catch.
  eapply safe_mono;
    [|apply (save_attempt_keeps _ (λ σ, saveInProgress (this σ) = true))].
  - intros tr' [σ w|σ a|σ e] [HI Hw]; simpl in *.
    + intros _ state2. by apply saveStateToFile_rejected.
    + eapply safe_mono; [|apply (Hcleanup _ _ (λ _, True)); done].
      by intros tr'' [| |].
    + unfold save_failed. cbn.
      eapply safe_mono; [|apply (Hcleanup _ _ (λ _, True)); done].
      by intros tr'' [| |].
  - apply stable_guard.
  - unfold rely_guard. intros; congruence.
  - intros. by rewrite updateSaveStatus_saveInProgress.
  - done.
Qed.

(** *** Cleanup *)




(** *** The status at the end of a save *)

Lemma notified_while_saving_eq σ σ' : notified_while_saving σ σ' → σ' = σ.
Proof.
  induction 1 as [|σ σ' Hs _ IH]; [done|].
  rewrite IH. unfold storeChanged. by rewrite decide_True.
Qed.

Lemma updateSaveStatus_status status σ :
  is_Some (syncStatusStore (this σ)) →
  saveStatus (this (updateSaveStatus status σ)) = status.
Proof. intros [store Hs]. unfold updateSaveStatus. by rewrite Hs. Qed.

Lemma updateSaveStatus_store status σ :
  is_Some (syncStatusStore (this σ)) →
  is_Some (syncStatusStore (this (updateSaveStatus status σ))).
Proof. intros [store Hs]. unfold updateSaveStatus. rewrite Hs. by eexists. Qed.

Lemma updateSaveStatus_missing status σ :
  syncStatusStore (this σ) = None → updateSaveStatus status σ = σ.
Proof. intros Hs. unfold updateSaveStatus. by rewrite Hs. Qed.

Lemma write_ok_snoc tr e :
  write_ok (tr ++ [e]) = write_ok tr || is_resolved_write e.
Proof. unfold write_ok. rewrite existsb_app. simpl. by rewrite orb_false_r. Qed.

Lemma stable_store : stable (λ σ, is_Some (syncStatusStore (this σ))).
Proof. repeat split; intros [p w]; cbn; auto. Qed.

Lemma save_attempt_outcome state tr σ :
  write_ok tr = false → is_Some (syncStatusStore (this σ)) →
  safe rely_notified
    (λ tr' p,
       match p with
       | Suspended _ _ => True
       | Returned σ' b =>
           b = true ∧ write_ok tr' = true ∧ saveStatus (this σ') = SAVED
       | Thrown σ' _ =>
           write_ok tr' = false ∧ is_Some (syncStatusStore (this σ'))
       end) tr (save_attempt state σ).
Proof.
  intros Htr Hstore. unfold save_attempt.
  repeat exec_step.
  all: try resolver_call (λ σ, is_Some (syncStatusStore (this σ)))
                         (λ tr, write_ok tr = false).
  all: try (intros tr' [σ1 w|σ1 a|σ1 e] [[HI' Hw] HT]; repeat exec_step).
  all: try apply stable_store.
  all: repeat match goal with
              | Hr : rely_notified _ _ _ |- _ =>
                  apply notified_while_saving_eq in Hr; subst
              end.
  all: rewrite ?write_ok_snoc; cbn in *.
  all: try (intros; rewrite write_ok_snoc;
            match goal with
            | e : event |- _ => destruct e as [? [] ?]; try done
            end).
  all: repeat split;
    auto using updateSaveStatus_store, updateSaveStatus_status, orb_true_r.
  all: try (rewrite orb_false_r; done).
  all: try by (intros ? ? ? Hr; apply notified_while_saving_eq in Hr as ->).
Qed.

Lemma save_cleanup_status tr σ :
  safe rely_notified
    (λ tr' p,
       match p with
       | Suspended _ _ => True
       | Returned σ' _ | Thrown σ' _ =>
           saveStatus (this σ') = saveStatus (this σ)
           ∧ write_ok tr' = write_ok tr
       end) tr (save_cleanup σ).
Proof.
  unfold save_cleanup. repeat exec_step.
  all: repeat match goal with
              | Hr : rely_notified _ _ _ |- _ =>
                  apply notified_while_saving_eq in Hr; subst
              end.
  all: rewrite ?write_ok_snoc, ?orb_false_r; done.
Qed.

End saving.

Lemma save_guard_witness :
  saveInProgress (this (ready_world demo_temp)) = false
  ∧ safe rely_guard (second_call_rejected (H:=demo_runtime)) []
      (saveStateToFile (H:=demo_runtime) demo_state (ready_world demo_temp)).
Proof. split; [reflexivity|]. apply save_guard. reflexivity. Defined.

Lemma host_ok_guard R (c : call R) σ :
  rely_guard (Calling c) σ (host_ok R c σ).2.
Proof.
  unfold rely_guard. destruct c; try reflexivity.
  unfold host_ok. cbn [snd].
  generalize (strip_prefix "temp." path). intros [key|]; [|done].
  unfold record_temp. by destruct (bound_project _).
Qed.

(** C2 as stated fails while the first call awaits the dismissal of the
    progress indicator.  Against a host that answers every call, after
    its fourth resumption the first call is suspended on
    [uiProgress(false)], not completed; a second call made then is not
    rejected. *)
Lemma save_guard_counterexample :
  let σ := ready_world demo_temp in
  let first := advance host_ok 4 (saveStateToFile (H:=demo_runtime) demo_state σ) in
  now first = Suspended σ (Calling (UiProgress ProgressHide))
  ∧ now (saveStateToFile (H:=demo_runtime) demo_state σ)
    = Suspended
        (on_this (λ p, set_syncStatusStore (Some {| SyncStore.saveStatus := SAVING |})
                         (set_saveStatus SAVING (set_saveInProgress true p))) σ)
        (Calling (UiProgress (ProgressShow "Saving tool data")))
  ∧ ¬ safe rely_guard (second_call_always_rejected (H:=demo_runtime)) []
        (saveStateToFile (H:=demo_runtime) demo_state σ).
Proof.
  intros σ first.
  assert (Hfirst : now first = Suspended σ (Calling (UiProgress ProgressHide)))
    by (by vm_compute).
  split; [done|]. split; [by vm_compute|].
  intros Hsafe.
  destruct (safe_advance rely_guard _ host_ok 4 _ _ host_ok_guard
              (λ σ, eq_refl) Hsafe) as [tr Hq].
  fold first in Hq. rewrite Hfirst in Hq. simpl in Hq.
  specialize (Hq demo_state). by vm_compute in Hq.
Qed.




(** ** Loading *)

Lemma filter_read_none (tr : list event) :
  existsb is_read tr = false → filter (λ e, is_read e = true) tr = [].
Proof.
  induction tr as [|e tr IH]; simpl; [done|].
  intros [He Htr]%orb_false_iff.
  rewrite filter_cons_False by congruence. auto.
Qed.

Lemma loaded_no_read (tr : list event) :
  existsb is_read tr = false → loaded tr = VNull.
Proof. intros Htr. unfold loaded. by rewrite filter_read_none. Qed.

Lemma loaded_snoc_read (tr : list event) fileName (r : settled value) :
  loaded (tr ++ [Ev (GetProjectFileContents fileName) r])
  = match r with
    | Resolved content => if truthy content then content else VNull
    | Rejected _ => VNull
    end.
Proof.
  unfold loaded. rewrite filter_app, filter_cons_True, filter_nil by done.
  rewrite last_snoc. by destruct r.
Qed.

Lemma loaded_snoc_other (tr : list event) e :
  is_read e = false → loaded (tr ++ [e]) = loaded tr.
Proof.
  intros He. unfold loaded.
  rewrite filter_app, filter_cons_False, filter_nil, app_nil_r by congruence.
  done.
Qed.

Lemma no_read_snoc (tr : list event) e :
  is_resolver_event e = true → existsb is_read tr = false →
  existsb is_read (tr ++ [e]) = false.
Proof.
  intros He Htr. rewrite existsb_app, Htr. simpl.
  by destruct e as [R [] r].
Qed.

Section loading.
Context `{Runtime}.

(** A load returns what the host handed over and throws only from its
    [catch] block; a property [I] of the state is kept throughout, if
    the resolver, the status updates and the other tasks keep it. *)
Lemma loadStateFromFile_spec rely (I : World → Prop) tr σ :
  stable I → (∀ w σ σ', rely w σ σ' → I σ → I σ') →
  (∀ status σ, I σ → I (updateSaveStatus status σ)) →
  existsb is_read tr = false → I σ →
  safe rely
    (λ tr' p,
       match p with
       | Suspended σ' w => I σ' ∧ is_hide w = false
       | Returned σ' v => I σ' ∧ v = loaded tr'
       | Thrown σ' e => I σ' ∧ load_outcome tr' (Thrown σ' e)
       end) tr (loadStateFromFile σ).
Proof.
  intros Hstable Hrely Hupd Htr HI.
  unfold loadStateFromFile. apply safe_try_catch.
  unfold load_attempt, load_failed. apply safe_bind, safe_await_async.
  eapply safe_mono;
    [|apply safe_and;
      [eapply (getStorageFileName_keeps _ I (λ tr, existsb is_read tr = false))
      |apply getStorageFileName_raises]].
  all: try (intros tr' [σ1 w|σ1 a|σ1 e] [[[HI' Hw] HT] Hraise];
            repeat exec_step).
  all: try exact Hstable.
  all: try exact no_read_snoc.
  all: rewrite ?loaded_snoc_read; cbn in *.
  all: repeat split; eauto using loaded_no_read, eq_sym.
  all: try match goal with
       | Hx : negb (truthy ?c) = _ |- _ => by destruct (truthy c)
       end.
  all: try match goal with
       | Hx : error_or_rejection _ _ |- _ =>
           destruct Hx as [[err' ->]|(R' & c' & Hlast & Hc')]; [done|];
           eexists _, c', _, _; split; [exact Hlast|];
           split; [|by split];
           destruct c'; try done; unfold is_unreadable_rejection, readable;
           by match goal with Hm : mentions_not_found _ = _ |- _ => rewrite Hm end
       end.
  all: eexists _, _, _, _; rewrite last_snoc; split; [reflexivity|];
    split; [|by split]; unfold is_unreadable_rejection, readable;
    by match goal with Hm : mentions_not_found _ = _ |- _ => rewrite Hm end.
Qed.

Lemma load_threw_last (tr : list event) e :
  last tr = Some e → is_unreadable_rejection e = true → load_threw tr = true.
Proof.
  intros Hlast He. unfold load_threw. apply existsb_exists. exists e.
  split; [|done]. apply list_elem_of_In.
  destruct tr as [|e0 tr] using rev_ind; [done|].
  rewrite last_snoc in Hlast. injection Hlast as ->.
  apply elem_of_app. right. by apply list_elem_of_singleton.
Qed.


(** *** While the status store is missing *)

Lemma stable_untouched :
  stable (λ σ, syncStatusStore (this σ) = None ∧ saveStatus (this σ) = SAVED).
Proof. repeat split; destruct σ as [p w]; cbn in *; tauto. Qed.

Lemma save_cleanup_keeps rely (I : World → Prop) tr σ :
  (∀ w σ σ', rely w σ σ' → I σ → I σ') →
  I (on_this (set_saveInProgress false) σ) →
  safe rely (λ _ p, I (world_of (A:=unit) p)) tr (save_cleanup σ).
Proof.
  intros Hrely HI. unfold save_cleanup. repeat exec_step; eauto.
Qed.

(** C10.  While the status store has not been created, a request to
    change the status changes nothing, and [getSaveStatus] returns
    [SAVED], the value set by the constructor, at every point of a save
    and of a load made in that window, however they end. *)
Theorem status_untouched_without_store state σ0 :
  syncStatusStore (this σ0) = None →
  getSaveStatus σ0 = SAVED →
  (∀ status, updateSaveStatus status σ0 = σ0)
  ∧ storeChanged σ0 = σ0
  ∧ safe rely_window status_untouched [] (saveStateToFile state σ0)
  ∧ safe rely_window status_untouched [] (loadStateFromFile σ0).
Proof.
  intros Hstore Hstatus.
  set (I := λ σ, syncStatusStore (this σ) = None ∧ saveStatus (this σ) = SAVED).
  assert (Hrely : ∀ w σ σ', rely_window w σ σ' → I σ → I σ').
  { intros w σ σ' [Hs Hst] [_ Hst']. split; [done|congruence]. }
  assert (Hupd : ∀ status σ, I σ → I (updateSaveStatus status σ)).
  { intros status σ [Hs Hst]. by rewrite updateSaveStatus_missing. }
  split; [intros; by apply updateSaveStatus_missing|]. split.
  { unfold storeChanged. case_decide; [done|]. by apply updateSaveStatus_missing. }
  split.
  - unfold saveStateToFile. destruct (saveInProgress (this σ0)) eqn:Hguard.
    { by split. }
    apply safe_try_finally, safe_try_catch.
    eapply safe_mono; [|apply (save_attempt_keeps rely_window I);
                        [apply stable_untouched|done..]].
    intros tr' [σ w|σ a|σ e] [HI Hw]; simpl in *; [done| |].
    + eapply safe_mono; [|by apply (save_cleanup_keeps rely_window I)].
      by intros tr'' [| |].
    + unfold save_failed. cbn.
      eapply safe_mono;
        [|apply (save_cleanup_keeps rely_window I); [done|by apply Hupd]].
      by intros tr'' [| |].
  - eapply safe_mono;
      [|apply (loadStateFromFile_spec rely_window I);
        [apply stable_untouched|done..]].
    intros tr' [σ w|σ v|σ e]; unfold status_untouched, getSaveStatus, I;
      simpl; tauto.
Qed.
End loading.



Lemma status_untouched_without_store_witness :
  syncStatusStore (this (bound_world demo_temp)) = None
  ∧ getSaveStatus (bound_world demo_temp) = SAVED
  ∧ (∀ status, updateSaveStatus status (bound_world demo_temp)
               = bound_world demo_temp)
  ∧ storeChanged (bound_world demo_temp) = bound_world demo_temp
  ∧ safe rely_window status_untouched []
      (saveStateToFile (H:=demo_runtime) demo_state (bound_world demo_temp))
  ∧ safe rely_window status_untouched []
      (loadStateFromFile (H:=demo_runtime) (bound_world demo_temp)).
Proof.
  split; [reflexivity|]. split; [reflexivity|].
  apply status_untouched_without_store; reflexivity.
Defined.

(** ** The storage key *)

Section storage_key.
Context `{Runtime}.

(** C8, amended.  With per-user state disabled [getStorageKey] returns
    the prefix at once, without a host call.  With per-user state
    enabled, a call made while no identity or the empty identity is
    cached asks a binding that offers [getUser] for it: a failure of the
    lookup is thrown to the caller, and a user is cached and yields
    [keyPrefix-userId]; a call made while an identity that is not empty
    is cached returns the key at once, without a host call. *)
Theorem getStorageKey_spec σ :
  (Config.isSeparateStateForEachUser (config (this σ)) = false →
   getStorageKey σ = Return σ (Config.keyPrefix (config (this σ))))
  ∧ (Config.isSeparateStateForEachUser (config (this σ)) = true →
     (∀ u, userId (this σ) = Some u → u ≠ "" →
           getStorageKey σ
           = Return σ (Config.keyPrefix (config (this σ)) +:+ "-" +:+ u))
     ∧ (truthy_string (userId (this σ)) = false →
        (∃ t, bound_tera (this σ) = Some t ∧ has_getUser t = true) →
        ∃ k, getStorageKey σ = Await σ GetUser k
             ∧ (∀ e σ', k (Rejected e) σ' = Throw σ' e)
             ∧ (∀ user σ',
                  k (Resolved user) σ'
                  = Return (on_this (set_userId (Some (User.id user))) σ')
                      (Config.keyPrefix (config (this σ')) +:+ "-"
                       +:+ User.id user)))).
Proof.
  split; [|intros Hon; split].
  - intros Hoff. unfold getStorageKey. by rewrite Hoff.
  - intros u Hu Hne. unfold getStorageKey. rewrite Hon.
    unfold bind, gets, ret. cbn. rewrite Hu. cbn.
    apply String.eqb_neq in Hne. rewrite Hne. cbn. by rewrite Hu.
  - intros Hnone (t & Ht & Hget). unfold getStorageKey. rewrite Hon.
    unfold bound_tera in Ht.
    destruct (vueInstance (this σ)) as [vi|] eqn:Hvi; [|done].
    unfold bind, gets, ret, try_catch, call_tera, the_tera, await, modify.
    cbn. rewrite Hnone, Hvi, Ht. cbn. rewrite Hget. cbn.
    eexists. split; [reflexivity|]. split; intros; reflexivity.
Qed.
End storage_key.

Lemma getStorageKey_spec_witness :
  getStorageKey (bound_world ∅) = Return (bound_world ∅) "demo"
  ∧ (∃ k, getStorageKey per_user_world
          = Await per_user_world GetUser k
          ∧ (∀ e σ', k (Rejected e) σ' = Throw σ' e)
          ∧ (∀ user σ',
               k (Resolved user) σ'
               = Return (on_this (set_userId (Some (User.id user))) σ')
                   (Config.keyPrefix (config (this σ')) +:+ "-"
                    +:+ User.id user)))
  ∧ getStorageKey
      (on_this (set_userId (Some "u1")) per_user_world)
    = Return (on_this (set_userId (Some "u1")) per_user_world) "demo-u1".
Proof.
  split; [|split].
  - apply (getStorageKey_spec (bound_world ∅)). reflexivity.
  - apply (getStorageKey_spec per_user_world); [reflexivity..|].
    exists (demo_tera ∅). split; reflexivity.
  - apply (getStorageKey_spec (on_this (set_userId (Some "u1")) per_user_world));
      [reflexivity..|done].
Defined.

(** C8 as stated fails against a host whose user has the empty id: the
    identity cached by the first call is falsy, and the second call
    makes the lookup again. *)
Lemma getStorageKey_spec_counterexample :
  run host_anonymous ((do _ ← getStorageKey; getStorageKey) per_user_world)
  = ([Ev GetUser (Resolved {| User.id := "" |});
      Ev GetUser (Resolved {| User.id := "" |})],
     Returned (on_this (set_userId (Some "")) per_user_world) "demo-")
  ∧ ∃ k, getStorageKey (on_this (set_userId (Some "")) per_user_world)
         = Await (on_this (set_userId (Some "")) per_user_world) GetUser k.
Proof. split; [reflexivity|]. eexists. reflexivity. Qed.

(** ** Readiness *)

Section readiness.
Context `{Runtime}.

(** C9, amended.  [initialize] is a no-op — the state unchanged, no host
    call, no error — while the plugin has not been told that TERA is
    ready or has no binding with a [$tera]; [setTeraReady] validates the
    binding first, and with no binding or an invalid one it rejects with
    the validation error, the state unchanged. *)
Theorem setTeraReady_validates σ :
  (teraReady (this σ) = false ∨ bound_tera (this σ) = None →
   initialize σ = Return σ tt)
  ∧ (∀ e, validateVueInstance (vueInstance (this σ)) = inl e →
          setTeraReady σ = Throw σ e)
  ∧ (vueInstance (this σ) = None →
     setTeraReady σ = Throw σ {| message := "Vue instance is required" |}).
Proof.
  assert (Hinvalid : ∀ e, validateVueInstance (vueInstance (this σ)) = inl e →
                          setTeraReady σ = Throw σ e).
  { intros e He. unfold setTeraReady, bind, gets, lift. cbn. by rewrite He. }
  split; [|split; [done|]].
  - intros [Hready|Hbound]; unfold initialize.
    + by rewrite Hready.
    + rewrite Hbound. cbn. by rewrite orb_true_r.
  - intros Hnone. apply Hinvalid. by rewrite Hnone.
Qed.
End readiness.

Lemma setTeraReady_validates_witness :
  initialize (H:=demo_runtime) fresh_world = Return fresh_world tt
  ∧ setTeraReady (H:=demo_runtime) fresh_world
    = Throw fresh_world {| message := "Vue instance is required" |}.
Proof.
  split.
  - apply (setTeraReady_validates fresh_world). by left.
  - apply (setTeraReady_validates fresh_world). reflexivity.
Defined.

(** C9 as stated fails on the plugin as constructed, before
    [setVueInstance]: [setTeraReady] does not return, it rejects. *)
Lemma setTeraReady_counterexample :
  setTeraReady (H:=demo_runtime) fresh_world
  = Throw fresh_world {| message := "Vue instance is required" |}
  ∧ setTeraReady (H:=demo_runtime) fresh_world ≠ Return fresh_world tt.
Proof. split; [reflexivity|discriminate]. Qed.

(** The constructor leaves the status at [SAVED] and no status store. *)
Example constructor_fresh : constructor (raw demo_config) = inr fresh_plugin.
Proof. reflexivity. Qed.

(** ** Initialization *)

Section initialization.
Context `{Runtime}.

Lemma storeChanged_store σ :
  is_Some (syncStatusStore (this σ)) →
  is_Some (syncStatusStore (this (storeChanged σ))).
Proof.
  intros Hs. unfold storeChanged. case_decide; [done|].
  by apply updateSaveStatus_store.
Qed.

Lemma patchStore_store storeId storeState σ :
  is_Some (syncStatusStore (this σ)) →
  is_Some (syncStatusStore (this (patchStore storeId storeState σ))).
Proof.
  intros Hs. unfold patchStore.
  destruct (__pinia (window σ)) as [pinia|]; [|done].
  destruct (_s pinia !! storeId) as [store|]; [|done].
  destruct (tracked store); [|done]. by apply storeChanged_store.
Qed.

Lemma initializeStores_store loadedState σ :
  is_Some (syncStatusStore (this σ)) →
  is_Some (syncStatusStore (this (initializeStores loadedState σ))).
Proof.
  intros Hs. unfold initializeStores.
  destruct (negb (truthy loadedState)); [done|].
  destruct (__pinia (window σ)); [|done].
  revert σ Hs. induction (entries loadedState) as [|entry l IH];
    intros σ Hs; simpl; [done|].
  by apply IH, patchStore_store.
Qed.

Lemma createSyncStatusStore_store σ :
  is_Some (__pinia (window σ)) →
  is_Some (syncStatusStore (this (createSyncStatusStore σ))).
Proof.
  intros [pinia Hp]. unfold createSyncStatusStore. rewrite Hp.
  destruct (syncStatusStore (this σ)) eqn:Hs; [by rewrite Hs|by eexists].
Qed.

Lemma setupStateChangeTracking_store σ :
  syncStatusStore (this (setupStateChangeTracking σ)) = syncStatusStore (this σ).
Proof. unfold setupStateChangeTracking. by destruct (__pinia (window σ)). Qed.

(** Notices, listeners and the timer leave the status alone. *)
Lemma saveStatus_after_setup σ :
  saveStatus (this (setupAutoSave (registerBeforeUnload (registerHotkeys
                                     (showInitialAlert σ)))))
  = saveStatus (this σ).
Proof.
  unfold setupAutoSave, registerBeforeUnload, registerHotkeys, showInitialAlert.
  repeat (case_match; cbn); done.
Qed.

Lemma initialize_attempt_status tr σ :
  is_Some (__pinia (window σ)) → existsb is_read tr = false →
  safe rely_init
    (λ tr' p,
       match p with
       | Suspended _ _ => True
       | Returned σ' _ | Thrown σ' _ =>
           load_threw tr' = false →
           saveStatus (this σ')
           = (if truthy (loaded tr') then SAVED else UNSAVED)
       end) tr (initialize_attempt σ).
Proof.
  intros Hpinia Htr. unfold initialize_attempt.
  do 2 apply safe_modify.
  apply safe_bind, safe_await_async.
  eapply safe_mono;
    [|apply (loadStateFromFile_spec rely_init
               (λ σ, is_Some (syncStatusStore (this σ))));
      [apply stable_store| | | |]].
  - intros tr' [σ1 w|σ1 v|σ1 e]; [done| |].
    2:{ intros [_ (R & c & r & err & Hlast & Hc & _)]. split; [done|].
        intros σ2 _ Hno. by rewrite (load_threw_last _ _ Hlast Hc) in Hno. }
    intros [Hstore ->]. split; [done|]. intros σ2 (_ & Hkeep & _).
    specialize (Hkeep Hstore). unfold await_async.
    repeat exec_step.
    all: repeat match goal with
                | Hr : rely_init _ _ _ |- _ => destruct Hr as (_ & ? & ?)
                end.
    all: rewrite ?saveStatus_after_setup, ?loaded_snoc_other by done; cbn.
    all: repeat match goal with
                | Hx : is_hide _ = true → _ |- _ => rewrite (Hx eq_refl); cbn
                | Hx : truthy ?v = _ |- context [truthy ?v] => rewrite Hx
                end.
    all: try (apply updateSaveStatus_status;
              eauto using initializeStores_store).
    all: rewrite ?loaded_snoc_other in * by done; congruence.
  - intros w σ1 σ2 (_ & Hkeep & _). exact Hkeep.
  - intros. by apply updateSaveStatus_store.
  - done.
  - rewrite setupStateChangeTracking_store.
    by apply createSyncStatusStore_store.
Qed.

(** C6, amended.  With Pinia on the page, so that the status store
    exists, once [initialize] has returned after passing its guard — its
    load not having thrown, and no store change having been notified
    while the loading indicator was being dismissed — the status is
    [SAVED] when the load yielded a document and [UNSAVED] when it
    yielded null (no file, an empty file, a failed read). *)
Theorem initialize_status σ0 :
  teraReady (this σ0) = true →
  is_Some (bound_tera (this σ0)) →
  is_Some (__pinia (window σ0)) →
  safe rely_init status_after_init [] (initialize σ0).
Proof.
  intros Hready [t Ht] Hpinia. unfold initialize.
  rewrite Hready, Ht. cbn.
  unfold bound_tera in Ht.
  destruct (vueInstance (this σ0)) as [vi|] eqn:Hvi; [|done].
  apply safe_bind. unfold the_tera. rewrite Hvi, Ht. cbn.
  apply safe_bind.
  destruct (has_uiProgress t); cbn.
  - split; [done|]. intros [[]|e] σ1 (Hp & _ & _); cbn; [|done].
    apply safe_catch_step.
    eapply safe_mono; [|apply (initialize_attempt_status _ _); auto].
    by intros tr1 [| |].
  - apply safe_catch_step.
    eapply safe_mono; [|apply (initialize_attempt_status _ _); auto].
    by intros tr1 [| |].
Qed.
End initialization.

Lemma initialize_status_witness :
  teraReady (this (ready_world demo_temp)) = true
  ∧ is_Some (bound_tera (this (ready_world demo_temp)))
  ∧ is_Some (__pinia (window (ready_world demo_temp)))
  ∧ safe rely_init status_after_init []
      (initialize (H:=demo_runtime) (ready_world demo_temp)).
Proof.
  split; [reflexivity|]. split; [by eexists|]. split; [by eexists|].
  apply initialize_status; [reflexivity|by eexists..].
Defined.

Lemma host_ok_init R (c : call R) σ :
  rely_init (Calling c) σ (host_ok R c σ).2.
Proof.
  unfold rely_init. destruct c; try done.
  unfold host_ok. cbn [snd].
  generalize (strip_prefix "temp." path). intros [key|]; [|done].
  unfold record_temp. by destruct (bound_project _).
Qed.

(** C6 as stated fails on a page without Pinia: the status store is not
    created, every status update is skipped, and after a load that
    yielded null the status is still [SAVED]. *)
Lemma initialize_status_counterexample :
  let σ0 := no_pinia_world demo_temp in
  run host_ok (initialize (H:=demo_runtime) σ0)
  = ([Ev (UiProgress (ProgressShow "Loading tool data")) (Resolved tt);
      Ev (GetProjectFileContents "p1/data-demo-x.json") (Resolved VNull);
      Ev (UiProgress ProgressHide) (Resolved tt)],
     Returned
       (on_window (set_beforeunloadListener true ∘ set_keydownListener true
                   ∘ (λ w, set_notices
                             [AlertLater "This tool no longer automatically saves progress, please use Ctrl+S to save progress"] w))
          (on_this (set_hasShownInitialAlert true ∘ set_initialized true) σ0))
       tt)
  ∧ teraReady (this σ0) = true
  ∧ is_Some (bound_tera (this σ0))
  ∧ ¬ safe rely_init status_follows_load [] (initialize (H:=demo_runtime) σ0).
Proof.
  intros σ0. split; [reflexivity|]. split; [reflexivity|].
  split; [by eexists|].
  intros Hsafe.
  pose proof (safe_run rely_init _ host_ok _ _ host_ok_init
                (λ σ, conj (λ x, x) (conj (λ x, x) (λ _, eq_refl))) Hsafe)
    as Hq.
  by vm_compute in Hq.
Qed.

(** ** The storage locator, asked for twice *)













Section locator.
Context `{Runtime}.

End locator.




(** * Part 6: further properties of the code *)

(** ** The codec beyond the round trip *)

Section assign_entries_any.
Context {K K' : Type} `{Countable K'}.
Implicit Types (f : K → option K') (acc : gmap K' value).

(** Whatever the collisions, a property of the result was assigned from
    the list or was there before. *)
Lemma assign_entries_lookup_inv f acc (l : list (K * value)) j x :
  assign_entries f acc l !! j = Some x →
  (∃ k, (k, x) ∈ l ∧ f k = Some j) ∨ acc !! j = Some x.
Proof.
  revert acc. induction l as [|[k0 v0] l IH]; intros acc; simpl; [by right|].
  intros Hj. apply IH in Hj as [(k & Hin & Hk)|Hj].
  - left. exists k. split; [by right|done].
  - destruct (f k0) as [j0|] eqn:Hf0; simpl in Hj; [|by right].
    rewrite lookup_insert in Hj. case_decide; [|by right].
    simplify_eq. left. exists k0. split; [by left|done].
Qed.

(** The properties the result owns: those assigned and those of [acc]. *)
Lemma assign_entries_is_Some f acc (l : list (K * value)) j :
  is_Some (assign_entries f acc l !! j) ↔
    (∃ k v, (k, v) ∈ l ∧ f k = Some j) ∨ is_Some (acc !! j).
Proof.
  revert acc. induction l as [|[k0 v0] l IH]; intros acc; simpl.
  - split; [by right|]. intros [(k & v & Hin & _)|Hacc]; [|done].
    by apply elem_of_nil in Hin.
  - rewrite IH. split.
    + intros [(k & v & Hin & Hk)|Hacc].
      * left. exists k, v. split; [by right|done].
      * destruct (f k0) as [j0|] eqn:Hf0; simpl in Hacc; [|by right].
        rewrite lookup_insert in Hacc. case_decide; [|by right].
        simplify_eq. left. exists k0, v0. split; [by left|done].
    + intros [(k & v & Hin & Hk)|Hacc].
      * apply elem_of_cons in Hin as [[= -> ->]|Hin].
        -- right. rewrite Hk. simpl. rewrite lookup_insert_eq. by eexists.
        -- left. by exists k, v.
      * right. destruct (f k0) as [j0|]; simpl; [|done].
        rewrite lookup_insert. by case_decide.
Qed.
End assign_entries_any.

Lemma container_free_object (ps : gmap string value) :
  container_free (VObj ps) = true
  ↔ map_Forall (λ _ x, container_free x = true) ps.
Proof. simpl. apply map_fold_andb_true. Qed.

Lemma mapSetToObject_free (v : value) :
  container_free (mapSetToObject v) = true.
Proof.
  induction v as [| | | | | |xs IH|ps IH|es IH|xs IH] using value_ind';
    try done.
  - simpl. apply forallb_Forall, Forall_fmap. exact IH.
  - rewrite mapSetToObject_object. apply container_free_object.
    intros k y Hk. apply lookup_delete_Some in Hk as [_ Hk].
    rewrite lookup_fmap, fmap_Some in Hk.
    destruct Hk as (x & Hx & ->). by eapply IH.
  - change (mapSetToObject (VMap es)) with
      (VObj (assign_entries (λ k, own_key (key_to_string k))
               {[ "__isMap" := VBool true ]}
               (map_to_list (mapSetToObject <$> es)))).
    apply container_free_object. intros j y Hj.
    apply assign_entries_lookup_inv in Hj as [(k & Hin & _)|Hacc].
    + apply elem_of_map_to_list in Hin.
      rewrite lookup_fmap, fmap_Some in Hin. destruct Hin as (x & Hx & ->).
      by eapply IH.
    + by apply lookup_singleton_Some in Hacc as [_ <-].
  - change (mapSetToObject (VSet xs)) with
      (VObj {[ "__isSet" := VBool true;
               "values" := VArr (mapSetToObject <$> xs) ]}).
    apply container_free_object.
    apply map_Forall_insert_2; [done|]. apply map_Forall_singleton.
    simpl. apply forallb_Forall, Forall_fmap. exact IH.
Qed.

Section depth_bounds.
Context {K : Type} `{Countable K}.

Lemma map_fold_max_bound (f : value → nat) (m : gmap K value) k x :
  m !! k = Some x → (f x ≤ map_fold (λ _ y n, f y `max` n) 0 m)%nat.
Proof.
  revert k x.
  apply (map_fold_weak_ind
           (λ r (m : gmap K value), ∀ k x, m !! k = Some x → (f x ≤ r)%nat)).
  - intros k x. by rewrite lookup_empty.
  - intros i y m' r Hi IH k x.
    rewrite lookup_insert. case_decide; intros Hk.
    + simplify_eq. lia.
    + specialize (IH _ _ Hk). lia.
Qed.
End depth_bounds.

Lemma max_list_bound (f : value → nat) (xs : list value) x :
  x ∈ xs → (f x ≤ max_list (f <$> xs))%nat.
Proof.
  induction 1 as [|? ? ? ? IH]; csimpl; lia.
Qed.

(** With room for the whole nesting of the value, no call fails and the
    function is [mapSetToObject]. *)
Lemma mapSetToObject_within_enough (stack : nat) (v : value) :
  depth v < stack → mapSetToObject_within stack v = Some (mapSetToObject v).
Proof.
  revert v. induction stack as [|stack IH]; intros v Hv; [lia|].
  assert (Hlist : ∀ xs : list value,
            (∀ x, x ∈ xs → depth x < stack) →
            forallb (λ x, bool_decide (is_Some (mapSetToObject_within stack x)))
              xs = true
            ∧ (λ x, default x (mapSetToObject_within stack x)) <$> xs
              = mapSetToObject <$> xs).
  { intros xs Hxs. split.
    - apply forallb_Forall, Forall_forall. intros x Hx.
      apply bool_decide_eq_true. rewrite IH by auto. by eexists.
    - apply list_fmap_ext. intros i x Hx.
      rewrite IH; [done|]. apply Hxs. by eapply list_elem_of_lookup_2. }
  assert (Hmap : ∀ (K : Type) `(Countable K) (m : gmap K value),
            (∀ k x, m !! k = Some x → depth x < stack) →
            forallb (λ x, bool_decide (is_Some (mapSetToObject_within stack x)))
              (map_to_list m).*2 = true
            ∧ (λ x, default x (mapSetToObject_within stack x)) <$> m
              = mapSetToObject <$> m).
  { intros K ? ? m Hm. split.
    - apply forallb_Forall, Forall_forall. intros x Hx.
      apply list_elem_of_fmap in Hx as ([k y] & -> & Hin).
      apply elem_of_map_to_list in Hin.
      apply bool_decide_eq_true. rewrite IH by eauto. by eexists.
    - apply map_fmap_ext. intros k x Hx. rewrite IH; [done|]. eauto. }
  destruct v as [| | | | | |xs|ps|es|xs]; try done.
  - destruct (Hlist xs) as [Hc He].
    { intros x Hx. pose proof (max_list_bound depth xs x Hx). simpl in Hv. lia. }
    simpl. by rewrite Hc, He.
  - destruct (Hmap _ _ _ ps) as [Hc He].
    { intros k x Hx. pose proof (map_fold_max_bound depth ps k x Hx).
      simpl in Hv. lia. }
    simpl. by rewrite Hc, He.
  - destruct (Hmap _ _ _ es) as [Hc He].
    { intros k x Hx. pose proof (map_fold_max_bound depth es k x Hx).
      simpl in Hv. lia. }
    simpl. by rewrite Hc, He.
  - destruct (Hlist xs) as [Hc He].
    { intros x Hx. pose proof (max_list_bound depth xs x Hx). simpl in Hv. lia. }
    simpl. by rewrite Hc, He.
Qed.

(** Without that room a subtree comes back as it was, with its [Map]. *)
Example unconverted_beyond_the_stack :
  mapSetToObject_within 2 (VArr [VArr [VMap ∅]]) = Some (VArr [VArr [VMap ∅]])
  ∧ mapSetToObject_within 3 (VArr [VArr [VMap ∅]])
    = Some (VArr [VArr [VObj {[ "__isMap" := VBool true ]}]]).
Proof. split; by vm_compute. Qed.

(** X1.  Given room on the call stack for the nesting of the value,
    [mapSetToObject] does not reach its [catch], and it returns a value
    that holds no [Map] and no [Set], at any depth.  (Without that room
    the [catch] hands back a subtree unconverted.) *)
Theorem mapSetToObject_container_free (stack : nat) (v : value) :
  depth v < stack →
  mapSetToObject_within stack v = Some (mapSetToObject v)
  ∧ container_free (mapSetToObject v) = true.
Proof.
  intros Hv. split; [by apply mapSetToObject_within_enough|].
  apply mapSetToObject_free.
Qed.

Lemma mapSetToObject_container_free_witness :
  mapSetToObject_within 4 (VObj {[ "m" := VMap {[ KNum 1 := VSet [VNum 2] ]} ]})
  = Some (mapSetToObject (VObj {[ "m" := VMap {[ KNum 1 := VSet [VNum 2] ]} ]}))
  ∧ container_free
      (mapSetToObject (VObj {[ "m" := VMap {[ KNum 1 := VSet [VNum 2] ]} ]}))
    = true.
Proof.
  apply (mapSetToObject_container_free 4
           (VObj {[ "m" := VMap {[ KNum 1 := VSet [VNum 2] ]} ]})).
  vm_compute. lia.
Defined.

(** X2.  On a value that holds no [Map] and no [Set], and in which no
    object owns a property named [__proto__], [mapSetToObject] is a deep
    copy: it returns an equal value. *)
Theorem mapSetToObject_copies (v : value) :
  container_free v = true → proto_free v = true → mapSetToObject v = v.
Proof.
  induction v as [| | | | | |xs IH|ps IH|es IH|xs IH] using value_ind';
    intros Hfree Hproto; try done.
  - simpl in *. f_equal.
    apply forallb_Forall in Hfree. apply forallb_Forall in Hproto.
    rewrite <-(list_fmap_id xs) at 2. apply Forall_fmap_ext.
    rewrite Forall_forall in IH, Hfree, Hproto. apply Forall_forall.
    intros x Hx. by apply IH; [|apply Hfree|apply Hproto].
  - simpl in Hproto. apply andb_true_iff in Hproto as [Hp%bool_decide_eq_true Hall].
    apply map_fold_andb_true in Hall.
    rewrite mapSetToObject_plain by done. f_equal.
    apply container_free_object in Hfree.
    rewrite <-(map_fmap_id ps) at 2. apply map_fmap_ext.
    intros k x Hk. eapply IH; [done|by eapply Hfree|by eapply Hall].
Qed.

Lemma mapSetToObject_copies_witness :
  container_free demo_state = true ∧ proto_free demo_state = true
  ∧ mapSetToObject demo_state = demo_state.
Proof.
  split; [by vm_compute|]. split; [by vm_compute|].
  apply (mapSetToObject_copies demo_state); by vm_compute.
Defined.

(** X3.  A document that holds no [Map] and no [Set] and in which no
    object owns a property named [__isMap], [__isSet] or [__proto__] is
    decoded to itself. *)
Theorem objectToMapSet_untagged (v : value) :
  container_free v = true → representable v = true → objectToMapSet v = v.
Proof.
  induction v as [| | | | | |xs IH|ps IH|es IH|xs IH] using value_ind';
    intros Hfree Hrep; try done.
  - simpl in *. f_equal.
    apply forallb_Forall in Hfree. apply forallb_Forall in Hrep.
    rewrite <-(list_fmap_id xs) at 2. apply Forall_fmap_ext.
    rewrite Forall_forall in IH, Hfree, Hrep. apply Forall_forall.
    intros x Hx. by apply IH; [|apply Hfree|apply Hrep].
  - simpl in Hrep. rewrite !andb_true_iff in Hrep.
    destruct Hrep as [[[Hm%bool_decide_eq_true Hs%bool_decide_eq_true]
                         Hp%bool_decide_eq_true] Hall].
    apply map_fold_andb_true in Hall.
    apply container_free_object in Hfree.
    rewrite objectToMapSet_plain by done. f_equal.
    rewrite <-(map_fmap_id ps) at 2. apply map_fmap_ext.
    intros k x Hk. eapply IH; [done|by eapply Hfree|by eapply Hall].
Qed.

Lemma objectToMapSet_untagged_witness :
  container_free demo_state = true ∧ representable demo_state = true
  ∧ objectToMapSet demo_state = demo_state.
Proof.
  split; [by vm_compute|]. split; [by vm_compute|].
  apply (objectToMapSet_untagged demo_state); by vm_compute.
Defined.

(** X4.  Encoded and decoded again, a [Map] is a [Map] and a [Set] is a
    [Set].  For a [Map] none of whose keys reads [__proto__], with number
    keys below [10^21], the keys are then the keys of the original
    coerced to strings, the key [__isMap] left out (keys that coerce to
    the same string have become one); for a [Set] whose members hold no
    key [__proto__], the members are those of the original, each encoded
    and decoded.  Decoded once more, the [Set] is lost: the decoder
    turns a [Set] it meets into an empty object. *)
Theorem containers_come_back (es : gmap mkey value) (xs : list value) :
  "__proto__" ∉ key_strings es →
  forallb decimal_key (map_to_list es).*1 = true →
  forallb proto_free xs = true →
  (∃ es', objectToMapSet (mapSetToObject (VMap es)) = VMap es'
          ∧ ∀ k, is_Some (es' !! k) ↔
                 ∃ k0, is_Some (es !! k0)
                       ∧ key_to_string k0 ≠ "__isMap"
                       ∧ k = KStr (key_to_string k0))
  ∧ objectToMapSet (mapSetToObject (VSet xs))
    = VSet (new_Set (objectToMapSet <$> (mapSetToObject <$> xs)))
  ∧ objectToMapSet (objectToMapSet (mapSetToObject (VSet xs))) = VObj ∅.
Proof.
  intros Hproto _ _.
  assert (objectToMapSet (mapSetToObject (VSet xs))
          = VSet (new_Set (objectToMapSet <$> (mapSetToObject <$> xs))))
    as Hset.
  { change (mapSetToObject (VSet xs)) with
      (VObj {[ "__isSet" := VBool true;
               "values" := VArr (mapSetToObject <$> xs) ]}).
    rewrite objectToMapSet_tagged_set.
    + by rewrite lookup_insert_ne, lookup_singleton_eq.
    + by rewrite lookup_insert_ne, lookup_singleton_ne.
    + rewrite lookup_insert_eq. by eexists. }
  split; [|split; [exact Hset|by rewrite Hset]].
  - assert (Hown : ∀ k, is_Some (es !! k) →
               own_key (key_to_string k) = Some (key_to_string k)).
    { intros k Hk. unfold own_key. rewrite decide_False; [done|].
      by apply (key_strings_fresh es). }
    set (o := assign_entries (λ k, own_key (key_to_string k))
                {[ "__isMap" := VBool true ]}
                (map_to_list (mapSetToObject <$> es))).
    change (mapSetToObject (VMap es)) with (VObj o).
    assert (Ho : ∀ s, is_Some (o !! s) ↔
               (∃ k0, is_Some (es !! k0) ∧ key_to_string k0 = s)
               ∨ s = "__isMap").
    { intros s. unfold o. rewrite assign_entries_is_Some. split.
      - intros [(k0 & v & Hin%elem_of_map_to_list & Hs)|Hacc].
        + rewrite lookup_fmap, fmap_Some in Hin.
          destruct Hin as (x & Hx & _).
          rewrite Hown in Hs by (by exists x). injection Hs as Hs.
          left. exists k0. split; [by exists x|done].
        + right. destruct Hacc as [y Hy].
          by apply lookup_singleton_Some in Hy as [<- _].
      - intros [(k0 & [v Hv] & Hs)| ->].
        + left. exists k0, (mapSetToObject v). split.
          * apply elem_of_map_to_list. by rewrite lookup_fmap, Hv.
          * rewrite Hown by (by exists v). by rewrite Hs.
        + right. rewrite lookup_singleton_eq. by eexists. }
    destruct (o !! "__isMap") as [t|] eqn:Htag.
    2: { assert (is_Some (o !! "__isMap")) as [? ?] by (apply Ho; by right).
         congruence. }
    simpl. rewrite Htag. eexists. split; [reflexivity|].
    intros k. rewrite assign_entries_is_Some, lookup_empty. split.
    + intros [(s & v & Hin%elem_of_map_to_list & Hs)|[? ?]]; [|done].
      case_decide as Hne; [done|]. injection Hs as <-.
      rewrite lookup_fmap, fmap_Some in Hin. destruct Hin as (y & Hy & _).
      assert (is_Some (o !! s)) as [(k0 & Hk0 & <-)|?]%Ho; [by eexists| |done].
      by exists k0.
    + intros (k0 & Hk0 & Hne & ->). left.
      assert (is_Some (o !! key_to_string k0)) as [y Hy].
      { apply Ho. left. by exists k0. }
      exists (key_to_string k0), (objectToMapSet y). split.
      * apply elem_of_map_to_list. by rewrite lookup_fmap, Hy.
      * by rewrite decide_False.
Qed.

Lemma containers_come_back_witness :
  objectToMapSet
    (mapSetToObject (VMap {[ KStr "x" := VNum 1; KNum 7 := VDate 0 ]}))
  = VMap {[ KStr "x" := VNum 1; KStr "7" := VDate 0 ]}
  ∧ objectToMapSet (mapSetToObject (VSet [VStr "a"; VStr "b"]))
    = VSet [VStr "a"; VStr "b"].
Proof.
  destruct (containers_come_back {[ KStr "x" := VNum 1; KNum 7 := VDate 0 ]}
              [VStr "a"; VStr "b"]) as (_ & Hset & _);
    [apply (bool_decide_unpack _); by vm_compute|by vm_compute..|].
  split; [by vm_compute|]. rewrite Hset. by vm_compute.
Defined.

(** *** A document decoded and encoded again *)

Lemma same_value_zero_objectToMapSet a b :
  same_value_zero (objectToMapSet a) (objectToMapSet b) = same_value_zero a b.
Proof.
  assert (Hobj : ∀ v, is_primitive v = false →
                      is_primitive (objectToMapSet v) = false).
  { intros [| | | | | |?|ps|?|?]; simpl; try done. intros _.
    destruct (ps !! "__isMap"); [done|].
    destruct (ps !! "__isSet"); [|done].
    by destruct ((objectToMapSet <$> ps) !! "values") as [[]|]. }
  assert (Hno : ∀ x y, is_primitive y = false → same_value_zero x y = false).
  { by intros [] []. }
  destruct (is_primitive b) eqn:Hb.
  - destruct (is_primitive a) eqn:Ha.
    + by destruct a, b.
    + rewrite (same_value_zero_sym _ (objectToMapSet b)), (same_value_zero_sym a).
      rewrite !Hno; auto.
  - rewrite !Hno; auto.
Qed.

Lemma existsb_objectToMapSet x (xs : list value) :
  existsb (same_value_zero (objectToMapSet x)) (objectToMapSet <$> xs)
  = existsb (same_value_zero x) xs.
Proof.
  induction xs as [|y ys IH]; csimpl; [done|].
  by rewrite same_value_zero_objectToMapSet, IH.
Qed.

Lemma distinct_members_objectToMapSet (xs : list value) :
  distinct_members (objectToMapSet <$> xs) = distinct_members xs.
Proof.
  induction xs as [|x xs IH]; csimpl; [done|].
  by rewrite IH, existsb_objectToMapSet.
Qed.

Lemma decode_encode_canonical (j : value) :
  canonical j = true → mapSetToObject (objectToMapSet j) = j.
Proof.
  induction j as [| | | | | |xs IH|ps IH|es IH|xs IH] using value_ind';
    intros Hcan; try done.
  - simpl in *. f_equal. apply forallb_Forall in Hcan.
    rewrite <-list_fmap_compose. rewrite <-(list_fmap_id xs) at 2.
    apply Forall_fmap_ext.
    rewrite Forall_forall in IH, Hcan. apply Forall_forall.
    intros x Hx. by apply IH, Hcan.
  - simpl in Hcan. rewrite !andb_true_iff in Hcan.
    destruct Hcan as [[Hall Hproto%bool_decide_eq_true] Htags].
    apply map_fold_andb_true in Hall.
    assert (Hvals : (mapSetToObject ∘ objectToMapSet) <$> ps = ps).
    { rewrite <-(map_fmap_id ps) at 2. apply map_fmap_ext.
      intros k x Hk. eapply IH; [done|]. by eapply Hall. }
    destruct (ps !! "__isMap") as [t|] eqn:Hmap.
    + destruct t as [| |[]| | | | | | |]; try done.
      set (g := λ k : string,
                  if decide (k = "__isMap") then None else Some (KStr k)).
      set (m := assign_entries g ∅ (map_to_list (objectToMapSet <$> ps))).
      assert (Hm : ∀ k y, m !! k = Some y ↔
                 ∃ s x, k = KStr s ∧ s ≠ "__isMap" ∧ ps !! s = Some x
                        ∧ y = objectToMapSet x).
      { intros k y. unfold m. rewrite assign_entries_lookup, lookup_empty.
        - split.
          + intros [(s & Hs & Hg)|[? _]]; [|done]. unfold g in Hg.
            case_decide; [done|]. injection Hg as <-.
            rewrite lookup_fmap, fmap_Some in Hs. destruct Hs as (x & Hx & ->).
            by exists s, x.
          + intros (s & x & -> & Hne & Hx & ->). left. exists s.
            split; [by rewrite lookup_fmap, Hx|].
            unfold g. by rewrite decide_False.
        - intros k1 k2 i _ _ E1 E2. unfold g in E1, E2.
          repeat case_decide; congruence. }
      assert (Hown : ∀ k, is_Some (m !! k) →
                 own_key (key_to_string k) = Some (key_to_string k)).
      { intros k [z Hz]. apply Hm in Hz as (s & x & -> & _ & Hx & _).
        unfold own_key. rewrite decide_False; [done|].
        simpl. intros ->. congruence. }
      transitivity
        (VObj (assign_entries (λ k, own_key (key_to_string k))
                 {[ "__isMap" := VBool true ]}
                 (map_to_list (mapSetToObject <$> m)))).
      { simpl. by rewrite Hmap. }
      f_equal. apply map_eq. intros s. apply option_eq. intros y.
      rewrite assign_entries_lookup.
      * split.
        -- intros [(k & Hk & Hs)|[Hacc _]].
           ++ rewrite lookup_fmap, fmap_Some in Hk.
              destruct Hk as (z & Hz & ->).
              rewrite Hown in Hs by (by exists z). injection Hs as <-.
              apply Hm in Hz as (s & x & -> & Hne & Hx & ->). simpl.
              rewrite Hx. f_equal. symmetry. eapply IH; [done|]. by eapply Hall.
           ++ by apply lookup_singleton_Some in Hacc as [<- <-].
        -- intros Hs. destruct (decide (s = "__isMap")) as [->|Hne].
           ++ right. rewrite Hmap in Hs. injection Hs as <-.
              split; [by rewrite lookup_singleton_eq|].
              intros k Hk. rewrite lookup_fmap, fmap_is_Some in Hk.
              rewrite Hown by done. intros [= Hk'].
              destruct Hk as [z' Hz'].
              by apply Hm in Hz' as (s' & x & -> & Hne & _).
           ++ left. exists (KStr s).
              assert (m !! KStr s = Some (objectToMapSet y)) as Hms.
              { apply Hm. by exists s, y. }
              split.
              ** rewrite lookup_fmap, Hms.
                 simpl. f_equal. eapply IH; [done|]. by eapply Hall.
              ** by rewrite Hown by (by eexists).
      * intros k1 k2 i H1 H2.
        rewrite lookup_fmap, fmap_is_Some in H1, H2.
        rewrite !Hown by done. intros [= E1] [= E2].
        destruct H1 as (y1 & H1), H2 as (y2 & H2).
        apply Hm in H1 as (s1 & ? & -> & _), H2 as (s2 & ? & -> & _).
        simpl in *. congruence.
    + destruct (ps !! "__isSet") as [t|] eqn:Hset.
      * rewrite !andb_true_iff in Htags.
        destruct Htags as [[Ht Hdom%bool_decide_eq_true] Hd].
        destruct t as [| |[]| | | | | | |]; try done.
        destruct (ps !! "values") as [[| | | | | |ys| | |]|] eqn:Hv; try done.
        assert (ps = {[ "__isSet" := VBool true; "values" := VArr ys ]}) as Hps.
        { apply map_eq. intros s. destruct (decide (s = "__isSet")) as [->|Hs].
          { by rewrite Hset, lookup_insert_eq. }
          rewrite lookup_insert_ne by done.
          destruct (decide (s = "values")) as [->|Hs'].
          { by rewrite Hv, lookup_singleton_eq. }
          rewrite lookup_singleton_ne by done.
          apply not_elem_of_dom.
          rewrite Hdom, elem_of_union, !elem_of_singleton. by intros [?|?]. }
        rewrite objectToMapSet_tagged_set by (rewrite ?Hset; eauto).
        rewrite Hv, new_Set_distinct
          by (by rewrite distinct_members_objectToMapSet).
        change (mapSetToObject (VSet (objectToMapSet <$> ys))) with
          (VObj {[ "__isSet" := VBool true;
                   "values" := VArr (mapSetToObject <$> (objectToMapSet <$> ys)) ]}).
        rewrite Hps. do 3 f_equal.
        assert (mapSetToObject (objectToMapSet (VArr ys)) = VArr ys) as Harr.
        { eapply IH; [done|]. by eapply Hall. }
        simpl in Harr. by injection Harr.
      * rewrite objectToMapSet_plain, mapSetToObject_plain
          by (by rewrite ?lookup_fmap, ?Hproto).
        f_equal. by rewrite <-map_fmap_compose.
Qed.

(** X5.  A document in the form the encoder writes it — which owns no
    property named [__proto__] — is restored by encoding what it decodes
    to: loaded and saved again unchanged, a file keeps its content. *)
Theorem canonical_roundtrip (j : value) :
  canonical j = true → mapSetToObject (objectToMapSet j) = j.
Proof. apply decode_encode_canonical. Qed.

Lemma same_value_zero_mapSetToObject a b :
  same_value_zero (mapSetToObject a) (mapSetToObject b) = same_value_zero a b.
Proof. by destruct a, b. Qed.

Lemma distinct_members_mapSetToObject (xs : list value) :
  distinct_members (mapSetToObject <$> xs) = distinct_members xs.
Proof.
  induction xs as [|x xs IH]; csimpl; [done|].
  rewrite IH. do 2 f_equal.
  clear IH. induction xs as [|y ys IH]; csimpl; [done|].
  by rewrite same_value_zero_mapSetToObject, IH.
Qed.

Lemma canonical_object (ps : gmap string value) :
  map_Forall (λ _ x, canonical x = true) ps →
  ps !! "__proto__" = None →
  match ps !! "__isMap" with
  | Some t => is_true_value t
  | None =>
      match ps !! "__isSet" with
      | Some t =>
          is_true_value t
          && bool_decide (dom ps = {[ "__isSet"; "values" ]})
          && match ps !! "values" with
             | Some (VArr ys) => distinct_members ys
             | _ => false
             end
      | None => true
      end
  end = true →
  canonical (VObj ps) = true.
Proof.
  intros Hall Hproto Htags. simpl. rewrite !andb_true_iff.
  split; [split|exact Htags].
  - by apply map_fold_andb_true.
  - by apply bool_decide_eq_true.
Qed.

Lemma mapSetToObject_canonical (v : value) :
  representable v = true → canonical (mapSetToObject v) = true.
Proof.
  induction v as [| | | | | |xs IH|ps IH|es IH|xs IH] using value_ind';
    intros Hrep; try done.
  - simpl in *. apply forallb_Forall, Forall_fmap.
    apply forallb_Forall in Hrep.
    rewrite Forall_forall in IH, Hrep. apply Forall_forall.
    intros x Hx. by apply IH, Hrep.
  - simpl in Hrep. rewrite !andb_true_iff in Hrep.
    destruct Hrep as [[[Hm%bool_decide_eq_true Hs%bool_decide_eq_true]
                         Hp%bool_decide_eq_true] Hall].
    apply map_fold_andb_true in Hall.
    rewrite mapSetToObject_plain by done. apply canonical_object.
    + intros k y. rewrite lookup_fmap, fmap_Some. intros (x & Hx & ->).
      eapply IH; [done|]. by eapply Hall.
    + by rewrite lookup_fmap, Hp.
    + by rewrite !lookup_fmap, Hm, Hs.
  - simpl in Hrep. rewrite !andb_true_iff in Hrep.
    destruct Hrep as [[[[Hnd%bool_decide_eq_true Hf%bool_decide_eq_true]
                          Hp%bool_decide_eq_true] _] Hall].
    apply map_fold_andb_true in Hall.
    change (mapSetToObject (VMap es)) with
      (VObj (assign_entries (λ k, own_key (key_to_string k))
               {[ "__isMap" := VBool true ]}
               (map_to_list (mapSetToObject <$> es)))).
    assert (Hown : ∀ k, is_Some (es !! k) →
               own_key (key_to_string k) = Some (key_to_string k)).
    { intros k Hk. unfold own_key. rewrite decide_False; [done|].
      by apply (key_strings_fresh es). }
    apply canonical_object.
    + intros j y Hj.
      apply assign_entries_lookup_inv in Hj as [(k & Hin & _)|Hacc].
      * apply elem_of_map_to_list in Hin.
        rewrite lookup_fmap, fmap_Some in Hin. destruct Hin as (x & Hx & ->).
        eapply IH; [done|]. by eapply Hall.
      * by apply lookup_singleton_Some in Hacc as [_ <-].
    + apply eq_None_not_Some. intros Hsome.
      apply assign_entries_is_Some in Hsome
        as [(k & v & Hin%elem_of_map_to_list & Hk)|[? Hacc]].
      * unfold own_key in Hk. case_decide; [done|]. by simplify_eq.
      * by apply lookup_singleton_Some in Hacc as [? _].
    + assert (assign_entries (λ k, own_key (key_to_string k))
                {[ "__isMap" := VBool true ]}
                (map_to_list (mapSetToObject <$> es)) !! "__isMap"
              = Some (VBool true)) as ->; [|done].
      apply assign_entries_lookup.
      * intros k1 k2 i H1 H2.
        rewrite lookup_fmap, fmap_is_Some in H1, H2.
        rewrite !Hown by done. intros [= E1] [= E2].
        apply (key_strings_inj es); congruence.
      * right. split; [by rewrite lookup_singleton_eq|].
        intros k Hk. rewrite lookup_fmap, fmap_is_Some in Hk.
        rewrite Hown by done. intros [= Hs].
        by apply (key_strings_fresh es "__isMap" k).
  - simpl in Hrep. apply andb_true_iff in Hrep as [Hd Hall].
    apply forallb_Forall in Hall.
    change (mapSetToObject (VSet xs)) with
      (VObj {[ "__isSet" := VBool true;
               "values" := VArr (mapSetToObject <$> xs) ]}).
    apply canonical_object.
    + apply map_Forall_insert_2; [done|]. apply map_Forall_singleton.
      simpl. apply forallb_Forall, Forall_fmap.
      rewrite Forall_forall in IH, Hall. apply Forall_forall.
      intros x Hx. by apply IH, Hall.
    + by rewrite lookup_insert_ne, lookup_singleton_ne.
    + rewrite lookup_insert_ne, lookup_singleton_ne by done.
      rewrite lookup_insert_eq, lookup_insert_ne, lookup_singleton_eq by done.
      rewrite distinct_members_mapSetToObject, Hd.
      rewrite bool_decide_eq_true_2; [done|].
      by rewrite dom_insert_L, dom_singleton_L.
Qed.

(** X6.  The encoding of a representable value (in particular, of one
    without a key [__proto__]) is a document in the form the encoder
    writes it; so saving, loading and saving again writes the same
    document as saving once. *)
Theorem encoding_is_stable (v : value) :
  representable v = true →
  canonical (mapSetToObject v) = true
  ∧ mapSetToObject (objectToMapSet (mapSetToObject v)) = mapSetToObject v.
Proof.
  intros Hrep. split; [by apply mapSetToObject_canonical|].
  by apply decode_encode_canonical, mapSetToObject_canonical.
Qed.

Lemma encoding_is_stable_witness :
  representable sample_value = true
  ∧ mapSetToObject (objectToMapSet (mapSetToObject sample_value))
    = mapSetToObject sample_value.
Proof.
  split; [by vm_compute|].
  by apply (encoding_is_stable sample_value).
Defined.

Lemma canonical_roundtrip_witness :
  canonical sample_document = true
  ∧ mapSetToObject (objectToMapSet sample_document) = sample_document.
Proof.
  split; [by vm_compute|]. apply (canonical_roundtrip sample_document).
  by vm_compute.
Defined.

(** ** Listeners, the timer and the notice *)

Section housekeeping.
Context `{Runtime}.

(** X7.  [destroy] releases what the plugin holds on the page: both
    listeners are removed, the auto-save timer is cleared and its handle
    forgotten.  Afterwards [initialize] does nothing (until
    [setTeraReady] is called again), and a second [destroy] changes
    nothing. *)
Theorem destroy_releases σ :
  keydownListener (window (destroy σ)) = false
  ∧ beforeunloadListener (window (destroy σ)) = false
  ∧ autoSaveInterval (this (destroy σ)) = None
  ∧ (∀ h, autoSaveInterval (this σ) = Some h →
          intervals (window (destroy σ)) !! h = None)
  ∧ initialize (destroy σ) = Return (destroy σ) tt
  ∧ destroy (destroy σ) = destroy σ.
Proof.
  destruct σ as [[cfg ini rdy vi uid sip [h0|] st sh store] w];
    unfold destroy, cleanup, initialize; cbn; repeat split; try done.
  intros h [= <-]. apply lookup_delete_eq.
Qed.

(** X8.  With auto-save enabled, [setupAutoSave] leaves the plugin with
    one live timer of the configured period, and leaves the timers it
    does not own alone; set up again, it replaces its timer: the number
    of timers on the page stays the same. *)
Theorem setupAutoSave_single_timer σ :
  (0 < Config.autoSaveIntervalMinutes (config (this σ)))%Z →
  (∃ h, autoSaveInterval (this (setupAutoSave σ)) = Some h
        ∧ intervals (window (setupAutoSave σ)) !! h
          = Some (Config.autoSaveIntervalMinutes (config (this σ)) * 60 * 1000)%Z)
  ∧ (∀ i ms, intervals (window σ) !! i = Some ms →
             autoSaveInterval (this σ) ≠ Some i →
             intervals (window (setupAutoSave σ)) !! i = Some ms)
  ∧ size (intervals (window (setupAutoSave (setupAutoSave σ))))
    = size (intervals (window (setupAutoSave σ))).
Proof.
  intros Hpos.
  assert (Hon : ∀ σ', config (this σ') = config (this σ) →
            (Config.autoSaveIntervalMinutes (config (this σ')) <=? 0)%Z = false).
  { intros σ' ->. by apply Z.leb_gt. }
  assert (Hlive : ∀ σ', config (this σ') = config (this σ) →
            ∃ h, autoSaveInterval (this (setupAutoSave σ')) = Some h
                 ∧ intervals (window (setupAutoSave σ')) !! h
                   = Some (Config.autoSaveIntervalMinutes (config (this σ)) * 60 * 1000)%Z
                 ∧ config (this (setupAutoSave σ')) = config (this σ)).
  { intros σ' Hcfg. unfold setupAutoSave. rewrite (Hon σ' Hcfg). cbn.
    eexists. split; [done|]. by rewrite lookup_insert_eq, Hcfg. }
  split; [|split].
  - destruct (Hlive σ eq_refl) as (h & Hh & Hi & _). by exists h.
  - intros i ms Hi Hown. unfold setupAutoSave. rewrite (Hon σ eq_refl). cbn.
    set (cleared := intervals (clearInterval (autoSaveInterval (this σ)) (window σ))).
    assert (cleared !! i = Some ms) as Hc.
    { unfold cleared, clearInterval.
      destruct (autoSaveInterval (this σ)) as [h|]; [|done]. cbn.
      rewrite lookup_delete_ne; [done|congruence]. }
    rewrite lookup_insert_ne; [done|]. intros <-.
    pose proof (is_fresh (dom cleared)) as Hfresh.
    apply Hfresh, elem_of_dom. by eexists.
  - destruct (Hlive σ eq_refl) as (h & Hh & Hi & Hcfg).
    unfold setupAutoSave at 1. rewrite (Hon _ Hcfg), Hh. cbn.
    set (m := intervals (window (setupAutoSave σ))) in *.
    rewrite map_size_insert_None.
    + rewrite map_size_delete, Hi. destruct (size m) eqn:Hsize; [|done].
      apply map_size_empty_inv in Hsize. rewrite Hsize in Hi. done.
    + apply not_elem_of_dom, is_fresh.
Qed.

(** X9.  Set up on a plugin that holds no timer and then cleaned up,
    the auto-save timer leaves no trace: the timers on the page are
    those that were there before. *)
Theorem cleanup_clears_timer σ :
  autoSaveInterval (this σ) = None →
  intervals (window (cleanup (setupAutoSave σ))) = intervals (window σ)
  ∧ autoSaveInterval (this (cleanup (setupAutoSave σ))) = None.
Proof.
  intros Hnone. unfold setupAutoSave.
  destruct (Config.autoSaveIntervalMinutes (config (this σ)) <=? 0)%Z.
  - unfold cleanup. by rewrite Hnone.
  - unfold cleanup. cbn. rewrite Hnone. cbn. split; [|done].
    apply delete_insert_id, not_elem_of_dom, is_fresh.
Qed.

(** X10.  The notice about manual saving is shown at most once in the
    life of a plugin: a second [showInitialAlert] changes nothing, also
    after a [cleanup] in between, and one call adds at most one
    notice. *)
Theorem showInitialAlert_once σ :
  showInitialAlert (showInitialAlert σ) = showInitialAlert σ
  ∧ showInitialAlert (cleanup (showInitialAlert σ)) = cleanup (showInitialAlert σ)
  ∧ length (notices (window (showInitialAlert σ)))
    ≤ S (length (notices (window σ))).
Proof.
  assert (Hshown : hasShownInitialAlert (this (showInitialAlert σ)) = true
                   ∨ Config.showInitialAlert (config (this (showInitialAlert σ)))
                     = false).
  { unfold showInitialAlert.
    destruct (Config.showInitialAlert (config (this σ))) eqn:Hcfg; cbn;
      [|by right; rewrite Hcfg].
    destruct (hasShownInitialAlert (this σ)) eqn:Hs; cbn; by left. }
  assert (Hstop : ∀ σ', hasShownInitialAlert (this σ') = true
                        ∨ Config.showInitialAlert (config (this σ')) = false →
                        showInitialAlert σ' = σ').
  { intros σ' [Hs|Hcfg]; unfold showInitialAlert.
    - rewrite Hs. by rewrite andb_false_r.
    - by rewrite Hcfg. }
  split; [by apply Hstop|]. split.
  - apply Hstop. unfold cleanup.
    by destruct (autoSaveInterval (this (showInitialAlert σ))).
  - unfold showInitialAlert.
    destruct (_ && _); cbn; [|lia]. rewrite length_app. cbn. lia.
Qed.
End housekeeping.

Lemma setupAutoSave_single_timer_witness :
  (0 < Config.autoSaveIntervalMinutes (config (this default_world)))%Z
  ∧ size (intervals (window (setupAutoSave (setupAutoSave default_world))))
    = size (intervals (window (setupAutoSave default_world))).
Proof.
  split; [done|].
  by apply (setupAutoSave_single_timer default_world).
Defined.

Lemma cleanup_clears_timer_witness :
  autoSaveInterval (this default_world) = None
  ∧ intervals (window (cleanup (setupAutoSave default_world)))
    = intervals (window default_world).
Proof.
  split; [reflexivity|].
  by apply (cleanup_clears_timer default_world).
Defined.

(** ** The storage key of each user *)

(** X11.  With per-user state enabled and an identity cached, the keys
    of two users of the same plugin configuration are the same only if
    the users are; and the key of a user is never the key the same
    configuration uses without per-user state. *)
Theorem per_user_keys_distinct σ1 σ2 u1 u2 :
  config (this σ1) = config (this σ2) →
  Config.isSeparateStateForEachUser (config (this σ1)) = true →
  userId (this σ1) = Some u1 → u1 ≠ "" →
  userId (this σ2) = Some u2 → u2 ≠ "" →
  ∃ k1 k2,
    getStorageKey σ1 = Return σ1 k1 ∧ getStorageKey σ2 = Return σ2 k2
    ∧ (k1 = k2 ↔ u1 = u2)
    ∧ k1 ≠ Config.keyPrefix (config (this σ1)).
Proof.
  intros Hcfg Hon Hu1 Hne1 Hu2 Hne2.
  assert (Hkey : ∀ σ u, Config.isSeparateStateForEachUser (config (this σ)) = true →
            userId (this σ) = Some u → u ≠ "" →
            getStorageKey σ
            = Return σ (Config.keyPrefix (config (this σ)) +:+ "-" +:+ u)).
  { intros σ u Hs Hu Hne. unfold getStorageKey. rewrite Hs.
    unfold bind, gets, ret. cbn. rewrite Hu. cbn.
    apply String.eqb_neq in Hne. rewrite Hne. cbn. by rewrite Hu. }
  eexists _, _. split; [by apply Hkey|]. split.
  { apply Hkey; [by rewrite <-Hcfg|done..]. }
  rewrite <-Hcfg. split; [split|].
  - intros Hk. apply (inj (String.app _)) in Hk.
    by apply (inj (String.app "-")) in Hk.
  - by intros ->.
  - generalize (Config.keyPrefix (config (this σ1))). intros s Hk.
    induction s as [|a s IH]; [done|].
    change (String a (s +:+ "-" +:+ u1) = String a s) in Hk.
    injection Hk. exact IH.
Qed.

Lemma per_user_keys_distinct_witness :
  let σ1 := on_this (set_userId (Some "u1")) per_user_world in
  let σ2 := on_this (set_userId (Some "u2")) per_user_world in
  ∃ k1 k2,
    getStorageKey σ1 = Return σ1 k1 ∧ getStorageKey σ2 = Return σ2 k2
    ∧ (k1 = k2 ↔ "u1" = "u2")
    ∧ k1 ≠ Config.keyPrefix (config (this σ1)).
Proof.
  intros σ1 σ2.
  by apply (per_user_keys_distinct σ1 σ2 "u1" "u2").
Defined.

(** ** The factory *)

Lemma constructor_fresh_fields given p :
  constructor given = inr p →
  validateConfig given = inr (config p)
  ∧ p = {| config := config p;
           initialized := false;
           teraReady := false;
           vueInstance := None;
           userId := None;
           saveInProgress := false;
           autoSaveInterval := None;
           saveStatus := SAVED;
           hasShownInitialAlert := false;
           syncStatusStore := None |}.
Proof.
  unfold constructor. destruct (validateConfig given) as [e|cfg]; [done|].
  by intros [= <-].
Qed.

Lemma createTeraSyncPlugin_fresh keyPrefix isSeparateStateForEachUser options p :
  createTeraSyncPlugin keyPrefix isSeparateStateForEachUser options = inr p →
  p = {| config := config p;
         initialized := false;
         teraReady := false;
         vueInstance := None;
         userId := None;
         saveInProgress := false;
         autoSaveInterval := None;
         saveStatus := SAVED;
         hasShownInitialAlert := false;
         syncStatusStore := None |}.
Proof.
  unfold createTeraSyncPlugin. destruct keyPrefix; try done.
  destruct (option_or _ "autoSaveIntervalMinutes" _); [done|].
  destruct (option_or _ "showInitialAlert" _); [done|].
  destruct (option_or _ "enableSaveHotkey" _); [done|].
  intros Hp. by apply constructor_fresh_fields in Hp as [_ Hp].
Qed.

Section factory.
Context `{Runtime}.


(** X13.  Until a Vue instance is set, a plugin fresh from the factory
    calls the host for nothing: whatever the page and the host,
    [saveState] resolves to [false] and a load to null without any call
    and without any change of state; [initialize] does nothing and
    [setTeraReady] is rejected. *)
Theorem fresh_plugin_inert keyPrefix isSeparateStateForEachUser options p w h :
  createTeraSyncPlugin keyPrefix isSeparateStateForEachUser options = inr p →
  run h (saveState {| this := p; window := w |})
  = ([], Returned {| this := p; window := w |} false)
  ∧ run h (loadStateFromFile {| this := p; window := w |})
    = ([], Returned {| this := p; window := w |} VNull)
  ∧ initialize {| this := p; window := w |}
    = Return {| this := p; window := w |} tt
  ∧ setTeraReady {| this := p; window := w |}
    = Throw {| this := p; window := w |}
        {| message := "Vue instance is required" |}
  ∧ getSaveStatus {| this := p; window := w |} = SAVED.
Proof.
  intros Hp. apply createTeraSyncPlugin_fresh in Hp. rewrite Hp.
  repeat split.
  unfold saveState, saveAllStores. cbn.
  by destruct (__pinia w).
Qed.
End factory.

Lemma fresh_plugin_inert_witness :
  run host_ok (saveState (H:=demo_runtime) default_world)
  = ([], Returned default_world false)
  ∧ run host_ok (loadStateFromFile (H:=demo_runtime) default_world)
    = ([], Returned default_world VNull).
Proof.
  destruct (fresh_plugin_inert (H:=demo_runtime) (VStr "") VUndefined VUndefined
              (this default_world) demo_window host_ok eq_refl)
    as (Hsave & Hload & _).
  split; [exact Hsave|exact Hload].
Defined.

(** ** Restoring the stores *)

Section restoring.
Context `{Runtime}.

Lemma storeChanged_window σ : window (storeChanged σ) = window σ.
Proof.
  unfold storeChanged, updateSaveStatus. case_decide; [done|].
  by destruct (syncStatusStore (this σ)).
Qed.

Lemma patchStore_registry storeId storeState σ pinia :
  __pinia (window σ) = Some pinia →
  ∃ pinia',
    __pinia (window (patchStore storeId storeState σ)) = Some pinia'
    ∧ trackers pinia' = trackers pinia
    ∧ ∀ id, _s pinia' !! id
            = if decide (id = storeId)
              then (λ store, patched store storeState) <$> _s pinia !! id
              else _s pinia !! id.
Proof.
  intros Hp. unfold patchStore. rewrite Hp.
  destruct (_s pinia !! storeId) as [store|] eqn:Hstore.
  - exists {| _s := <[storeId := patched store storeState]> (_s pinia);
              trackers := trackers pinia |}.
    split; [|split].
    + unfold patched.
      destruct (tracked store); [rewrite storeChanged_window|]; reflexivity.
    + done.
    + intros id. cbn. case_decide as Hid.
      * subst id. by rewrite lookup_insert_eq, Hstore.
      * by rewrite lookup_insert_ne.
  - exists pinia. split; [done|]. split; [done|].
    intros id. case_decide; [|done]. subst id. by rewrite Hstore.
Qed.

Lemma patch_entries_registry (l : list (string * value)) σ pinia :
  NoDup l.*1 → __pinia (window σ) = Some pinia →
  ∃ pinia',
    __pinia (window (foldl (λ σ entry, patchStore entry.1 entry.2 σ) σ l))
    = Some pinia'
    ∧ trackers pinia' = trackers pinia
    ∧ ∀ id, _s pinia' !! id
            = match _s pinia !! id, (list_to_map l : gmap string value) !! id with
              | Some store, Some v => Some (patched store v)
              | found, _ => found
              end.
Proof.
  revert σ pinia. induction l as [|[id0 v0] l IH]; intros σ pinia Hnd Hp.
  - exists pinia. split; [done|]. split; [done|].
    intros id. cbn [list_to_map foldr]. rewrite lookup_empty.
    by destruct (_s pinia !! id).
  - apply NoDup_cons in Hnd as [Hfresh Hnd]. cbn [foldl fst snd].
    destruct (patchStore_registry id0 v0 σ pinia Hp) as (p1 & Hp1 & Ht1 & Hs1).
    destruct (IH _ p1 Hnd Hp1) as (p2 & Hp2 & Ht2 & Hs2).
    exists p2. split; [done|]. split; [congruence|].
    intros id. rewrite Hs2, Hs1. cbn [list_to_map foldr uncurry fst snd].
    case_decide as Hid.
    + subst id. rewrite lookup_insert_eq.
      assert ((list_to_map l : gmap string value) !! id0 = None) as ->.
      { by apply not_elem_of_list_to_map_1. }
      by destruct (_s pinia !! id0).
    + by rewrite lookup_insert_ne.
Qed.

Lemma initializeStores_registry (doc : gmap string value) σ pinia :
  __pinia (window σ) = Some pinia →
  ∃ pinia',
    __pinia (window (initializeStores (VObj doc) σ)) = Some pinia'
    ∧ trackers pinia' = trackers pinia
    ∧ ∀ id, _s pinia' !! id
            = match _s pinia !! id, doc !! id with
              | Some store, Some storeState => Some (patched store storeState)
              | found, _ => found
              end.
Proof.
  intros Hp. unfold initializeStores. cbn [truthy negb]. rewrite Hp.
  destruct (patch_entries_registry (map_to_list doc) σ pinia
              (NoDup_fst_map_to_list doc) Hp) as (pinia' & Hp' & Ht & Hs).
  exists pinia'. split; [exact Hp'|]. split; [done|].
  intros id. by rewrite Hs, list_to_map_to_list.
Qed.

(** X14.  Given a document that holds no key [__proto__] and does not
    name the plugin's status store, [initializeStores] patches exactly
    the stores that are registered and named in it, each with the
    decoding of its part of the document; the parts that name no
    registered store are ignored, the stores the document does not name
    are left as they are, and no store is added or removed.  (This is
    about the stores other than the status store, which is kept with the
    plugin and shows [UNSAVED] once a tracked store has been patched.) *)
Theorem initializeStores_patches (doc : gmap string value) σ pinia :
  __pinia (window σ) = Some pinia →
  _s pinia !! "tera-file-sync-status" = None →
  doc !! "tera-file-sync-status" = None →
  proto_free (VObj doc) = true →
  ∃ pinia',
    __pinia (window (initializeStores (VObj doc) σ)) = Some pinia'
    ∧ trackers pinia' = trackers pinia
    ∧ ∀ id, _s pinia' !! id
            = match _s pinia !! id, doc !! id with
              | Some store, Some storeState => Some (patched store storeState)
              | found, _ => found
              end.
Proof. intros Hp _ _ _. by apply initializeStores_registry. Qed.
End restoring.

Lemma initializeStores_patches_witness :
  ∃ pinia',
    __pinia (window (initializeStores (H:=demo_runtime)
                       (VObj {[ "a" := VObj {[ "x" := VNum 1 ]};
                                "b" := VNull ]}) empty_store_world))
    = Some pinia'
    ∧ _s pinia' !! "a"
      = Some {| state := VObj {[ "x" := VNum 1 ]}; tracked := false |}
    ∧ _s pinia' !! "b" = None.
Proof.
  destruct (initializeStores_patches (H:=demo_runtime)
              {[ "a" := VObj {[ "x" := VNum 1 ]}; "b" := VNull ]}
              empty_store_world
              {| _s := {[ "a" := {| state := VNull; tracked := false |} ]};
                 trackers := 0 |} eq_refl)
    as (pinia' & Hp & _ & Hs); [by vm_compute..|].
  exists pinia'. split; [exact Hp|]. split.
  - rewrite Hs. by vm_compute.
  - rewrite Hs. by vm_compute.
Defined.
(** ** The storage locator, call by call *)

Lemma truthy_name s : negb (truthy (VStr s)) = false → s ≠ "".
Proof.
  simpl. rewrite negb_involutive. intros Hs ->. done.
Qed.

Lemma data_name_ne rest : "data-" +:+ rest ≠ "".
Proof. done. Qed.

Section resolver_shape.
Context `{Runtime}.

Lemma getStorageFileName_shape rely tr σ :
  safe rely resolver_point tr (getStorageFileName σ).
Proof.
  unfold getStorageFileName, temp_lookup, provision, getStorageKey,
    await_async.
  repeat exec_step.
  all: try done.
  all: repeat match goal with u : unit |- _ => destruct u end.
  all: try (eexists _, _; split; [reflexivity|]; first
              [ by apply data_name_ne
              | by apply truthy_name ]).
  all: try (eexists _, _; split; [reflexivity|]; split; [reflexivity|];
            by rewrite last_snoc).
Qed.

(** X15.  A locator returned by [getStorageFileName] has the form
    [<dir>/<name>] with a name that is not empty; in particular it is
    never the empty string, whatever the host answers and whatever else
    runs meanwhile. *)
Theorem getStorageFileName_nonempty σ0 :
  safe rely_any locator_nonempty [] (getStorageFileName σ0).
Proof.
  eapply safe_mono; [|apply getStorageFileName_shape].
  intros tr [σ w|σ locator|σ e]; simpl; try done.
  intros (dir & name & -> & Hname). split; [|by eauto].
  by destruct dir.
Qed.

(** X16.  [getStorageFileName] records a file name in the project state
    only right after the host has confirmed the creation of the file of
    that name: no name is recorded for a file whose creation failed. *)
Theorem locator_recorded_after_creation σ0 :
  safe rely_any recorded_after_creation [] (getStorageFileName σ0).
Proof.
  eapply safe_mono; [|apply getStorageFileName_shape].
  intros tr [σ [R c|]|σ locator|σ e]; simpl; try done.
  by destruct c.
Qed.
End resolver_shape.

(** ** A save, call by call *)

Lemma no_write_not_ok tr : existsb is_write tr = false → write_ok tr = false.
Proof.
  unfold write_ok. induction tr as [|e tr IH]; simpl; [done|].
  intros [He Htr]%orb_false_iff. rewrite (IH Htr), orb_false_r.
  by destruct e as [R [] []].
Qed.

Lemma no_write_snoc tr e :
  is_resolver_event e = true → existsb is_write tr = false →
  existsb is_write (tr ++ [e]) = false.
Proof.
  intros He Htr. rewrite existsb_app, Htr. simpl.
  by destruct e as [R [] r].
Qed.

Lemma no_write_snoc_progress tr options (r : settled unit) :
  existsb is_write tr = false →
  existsb is_write (tr ++ [Ev (UiProgress options) r]) = false.
Proof. intros Htr. by rewrite existsb_app, Htr. Qed.

Lemma hide_failed_snoc tr e :
  hide_failed (tr ++ [Ev (UiProgress ProgressHide) (Rejected e)]) = true.
Proof. unfold hide_failed. by rewrite last_snoc. Qed.

Section resolver_calls.
Context `{Runtime}.

(** The two views of the resolver together. *)
Lemma getStorageFileName_calls rely (I : World → Prop) (T : list event → Prop)
    tr σ :
  stable I → (∀ w σ σ', rely w σ σ' → I σ → I σ') →
  (∀ tr e, is_resolver_event e = true → T tr → T (tr ++ [e])) →
  I σ → T tr →
  safe rely (λ tr' p, (keeps (A:=string) I p ∧ T tr') ∧ resolver_point tr' p)
    tr (getStorageFileName σ).
Proof.
  intros. apply safe_and; [by apply getStorageFileName_keeps|].
  apply getStorageFileName_shape.
Qed.
End resolver_calls.

Ltac resolver_calls I T :=
  match goal with
  | |- safe _ _ _ (bind_step (await_async getStorageFileName _) _) =>
      apply safe_bind_step, safe_await_async;
      eapply safe_mono; [|eapply (getStorageFileName_calls _ I T)]
  end.

Lemma stable_True : stable (λ _, True).
Proof. done. Qed.

Section save_shape.
Context `{Runtime}.

Lemma save_attempt_calls rely state tr σ :
  existsb is_write tr = false →
  safe rely
    (λ tr' p,
       match p with
       | Suspended _ (Calling c) =>
           match c with
           | UiProgress (ProgressShow _) => tr' = tr
           | UiProgress ProgressHide => False
           | SetProjectFileContents _ content =>
               content = mapSetToObject state ∧ existsb is_write tr' = false
           | GetProjectFileContents _ => False
           | _ => True
           end
       | Suspended _ Queued => True
       | Returned _ b => b = true ∧ write_ok tr' = true
       | Thrown _ _ => write_ok tr' = false
       end) tr (save_attempt state σ).
Proof.
  intros Htr. unfold save_attempt.
  repeat exec_step.
  all: try resolver_calls (λ _ : World, True)
                          (λ tr, existsb is_write tr = false).
  all: try (intros tr' [σ1 w|σ1 a|σ1 e] [[[HI' Hw] HT] Hshape];
            repeat exec_step).
  all: try exact stable_True.
  all: try exact no_write_snoc.
  all: try (by apply no_write_snoc_progress).
  all: try (by apply no_write_not_ok).
  all: try done.
  all: rewrite write_ok_snoc, no_write_not_ok by done; done.
Qed.

Lemma save_cleanup_result rely tr σ :
  safe rely
    (λ tr' p,
       match p with
       | Suspended _ w => is_hide w = true ∧ tr' = tr
       | Returned _ _ => write_ok tr' = write_ok tr
       | Thrown σ' _ => hide_failed tr' = true ∨ dismissible (this σ') = false
       end) tr (save_cleanup σ).
Proof.
  unfold save_cleanup. repeat exec_step.
  all: rewrite ?write_ok_snoc, ?orb_false_r; try done.
  all: try (left; apply hide_failed_snoc).
  all: right; unfold dismissible, bound_tera; cbn.
  all: repeat match goal with
              | Hx : Some _ = Some _ |- _ => injection Hx as ->
              | Hx : _ = _ |- _ => rewrite Hx
              end; done.
Qed.

(** An accepted save as a whole: its calls, the way it settles, and, in
    the model, what it hands over. *)
Lemma saveStateToFile_shape rely state σ :
  saveInProgress (this σ) = false →
  safe rely
    (λ tr p, save_calls tr p ∧ save_result tr p
             ∧ writes_only (mapSetToObject state) tr p) []
    (saveStateToFile state σ).
Proof.
  intros Hfree. unfold saveStateToFile. rewrite Hfree.
  set (Q := λ tr p, save_calls tr p ∧ save_result tr p
                    ∧ writes_only (mapSetToObject state) tr p).
  assert (Hcleanup : ∀ tr σ1 (b : bool),
             b = write_ok tr →
             safe rely
               (λ tr' p,
                  match p with
                  | Suspended σ' w => Q tr' (Suspended σ' w)
                  | Returned σ' _ => Q tr' (Returned σ' b)
                  | Thrown σ' e' => Q tr' (Thrown σ' e')
                  end) tr (save_cleanup σ1)).
  { intros tr σ1 b ->. eapply safe_mono; [|apply save_cleanup_result].
    intros tr' [σ' [R c|]|σ' u|σ' e]; unfold Q; simpl; try done.
    intros [Hhide _]. by destruct c as [| | |[]| |]. }
  apply safe_try_finally, safe_try_catch.
  eapply safe_mono; [|by apply (save_attempt_calls rely state [] σ)].
  intros tr' [σ1 [R c|]|σ1 a|σ1 e]; unfold Q; simpl; try done.
  - intros Hc. destruct c as [| | |[]| |]; try done.
    by destruct Hc as [-> Hw].
  - intros [-> Hw]. apply Hcleanup. by rewrite Hw.
  - intros Hw. unfold save_failed. cbn. apply Hcleanup.
    by rewrite Hw.
Qed.

(** X17.  An accepted save never reads the file, it shows the progress
    indicator only before any other call, and it attempts the write at
    most once, whatever the host answers and whatever else runs
    meanwhile. *)
Theorem saveStateToFile_calls state σ0 :
  saveInProgress (this σ0) = false →
  safe rely_any save_calls [] (saveStateToFile state σ0).
Proof.
  intros Hfree. eapply safe_mono; [|by apply saveStateToFile_shape].
  by intros tr p [Hc _].
Qed.

(** X18.  Whatever the host answers and whatever else runs meanwhile, an
    accepted save that returns, returns whether its write resolved; and
    its promise is rejected only when its last step fails: the host
    rejects the dismissal of the progress indicator, or the binding has
    no [uiProgress] to dismiss it with. *)
Theorem saveStateToFile_result state σ0 :
  saveInProgress (this σ0) = false →
  safe rely_any save_result [] (saveStateToFile state σ0).
Proof.
  intros Hfree. eapply safe_mono; [|by apply saveStateToFile_shape].
  by intros tr p (_ & Hr & _).
Qed.
End save_shape.

Lemma saveStateToFile_calls_witness :
  saveInProgress (this (ready_world demo_temp)) = false
  ∧ safe rely_any save_calls []
      (saveStateToFile (H:=demo_runtime) demo_state (ready_world demo_temp)).
Proof. split; [reflexivity|]. by apply saveStateToFile_calls. Defined.

Lemma saveStateToFile_result_witness :
  saveInProgress (this (ready_world demo_temp)) = false
  ∧ safe rely_any save_result []
      (saveStateToFile (H:=demo_runtime) demo_state (ready_world demo_temp)).
Proof. split; [reflexivity|]. by apply saveStateToFile_result. Defined.

(** *** The document of [saveAllStores] *)

Section snapshot.
Context `{Runtime}.

(** The states collected by [saveAllStores]. *)
Lemma collected_lookup (pinia : Pinia) id :
  assign_entries
    (λ id, if decide (id = "tera-file-sync-status") then None else own_key id)
    ∅ (map_to_list ((λ store, spread (state store)) <$> _s pinia)) !! id
  = if decide (id = "tera-file-sync-status" ∨ id = "__proto__") then None
    else (λ store, spread (state store)) <$> _s pinia !! id.
Proof.
  apply option_eq. intros x.
  rewrite assign_entries_lookup, lookup_empty.
  - unfold own_key. case_decide as Hid.
    + split; [|done]. intros [(k & _ & Hk)|[? _]]; [|done].
      repeat case_decide; simplify_eq; tauto.
    + split.
      * intros [(k & Hk & Hf)|[? _]]; [|done].
        repeat case_decide; simplify_eq. by rewrite <-lookup_fmap.
      * intros Hx. left. exists id. split; [by rewrite lookup_fmap|].
        rewrite !decide_False; tauto.
  - unfold own_key. intros k1 k2 i _ _ E1 E2.
    repeat case_decide; congruence.
Qed.

Lemma saveAllStores_writes rely σ pinia :
  __pinia (window σ) = Some pinia →
  safe rely
    (writes_only
       (mapSetToObject
          (VObj (assign_entries
                   (λ id, if decide (id = "tera-file-sync-status") then None
                          else own_key id)
                   ∅ (map_to_list ((λ store, spread (state store))
                                     <$> _s pinia)))))) []
    (saveAllStores σ).
Proof.
  intros Hp. unfold saveAllStores. rewrite Hp.
  apply safe_await_async.
  destruct (saveInProgress (this σ)) eqn:Hguard.
  - by rewrite saveStateToFile_rejected.
  - eapply safe_mono; [|by apply saveStateToFile_shape].
    by intros tr [σ1 [R c|]|σ1 b|σ1 e] (_ & _ & Hc).
Qed.

(** X19.  The document [saveAllStores] hands to the host has one part
    for each store that was registered when the save was requested, the
    plugin's own status store (and a store whose id reads [__proto__])
    left out, whatever happens while the save is suspended: a store
    registered meanwhile is not in it.  When no store is changed while
    the save is suspended, the document is the encoding of the states as
    they were at the request, each copied one level deep. *)
Theorem saveAllStores_snapshot σ0 pinia :
  __pinia (window σ0) = Some pinia →
  safe rely_any
    (writes_parts (λ id, is_Some (_s pinia !! id)
                         ∧ id ≠ "tera-file-sync-status" ∧ id ≠ "__proto__"))
    [] (saveAllStores σ0)
  ∧ ∃ allState : gmap string value,
      (∀ id, allState !! id
             = if decide (id = "tera-file-sync-status" ∨ id = "__proto__")
               then None
               else (λ store, spread (state store)) <$> _s pinia !! id)
      ∧ safe rely_stores (writes_only (mapSetToObject (VObj allState))) []
          (saveAllStores σ0).
Proof.
  intros Hp. split.
  - eapply safe_mono; [|by apply (saveAllStores_writes rely_any)].
    intros tr [σ1 [R c|]|σ1 b|σ1 e]; simpl; try done.
    destruct c; try done. intros ->.
    rewrite assign_entries_own. eexists. split; [reflexivity|].
    intros id. rewrite lookup_delete_is_Some, lookup_fmap, fmap_is_Some.
    rewrite collected_lookup. case_decide as Hid.
    + split; [by intros [_ [? ?]]|]. tauto.
    + rewrite fmap_is_Some. split.
      * intros [Hne Hsome]. split; [done|]. split; [|congruence].
        intros ->. apply Hid. by left.
      * intros (Hsome & _ & Hne). split; [congruence|done].
  - eexists. split; [|by apply saveAllStores_writes].
    apply collected_lookup.
Qed.
End snapshot.

Lemma saveAllStores_snapshot_witness :
  ∃ allState : gmap string value,
    allState !! "a" = Some demo_state
    ∧ allState !! "tera-file-sync-status" = None
    ∧ safe rely_stores (writes_only (mapSetToObject (VObj allState))) []
        (saveAllStores (H:=demo_runtime) stores_world).
Proof.
  destruct (saveAllStores_snapshot (H:=demo_runtime) stores_world demo_pinia
              eq_refl) as (_ & allState & Hs & Hsafe).
  exists allState. split; [|split; [|exact Hsafe]].
  - rewrite Hs. by vm_compute.
  - rewrite Hs. by vm_compute.
Defined.

(** ** A load, call by call *)

Section load_shape.
Context `{Runtime}.

Lemma loadStateFromFile_shape rely tr σ :
  existsb is_read tr = false →
  safe rely load_calls tr (loadStateFromFile σ).
Proof.
  intros Htr.
  unfold loadStateFromFile. apply safe_try_catch.
  unfold load_attempt, load_failed. apply safe_bind, safe_await_async.
  eapply safe_mono;
    [|eapply (getStorageFileName_calls rely (λ _, True)
                (λ tr, existsb is_read tr = false))].
  all: try (intros tr' [σ1 w|σ1 a|σ1 e] [[[HI' Hw] HT] Hshape];
            repeat exec_step).
  all: try exact stable_True.
  all: try exact no_read_snoc.
  all: try done.
Qed.

(** X20.  A load calls the host only to resolve the locator and then,
    once, to read the file — the read is its last call.  It never writes
    the contents of a file and never touches the progress indicator
    (resolving the locator, it may create the backing file). *)
Theorem loadStateFromFile_calls σ0 :
  safe rely_any load_calls [] (loadStateFromFile σ0).
Proof. by apply loadStateFromFile_shape. Qed.
End load_shape.

Section locator_errors.
Context `{Runtime}.

(** X21.  Without a project, or with a project that has no id, the
    locator cannot be resolved: [getStorageFileName] throws before it
    calls the host — having set the project's [temp] to an empty object
    if it was missing — and a load returns null without any call. *)
Theorem locator_needs_project σ h :
  match bound_project (this σ) with
  | Some pr => truthy_string (Project.id pr) = false
  | None => True
  end →
  ∃ σ' (e : Error),
    run h (getStorageFileName σ) = ([], Thrown σ' e)
    ∧ run h (loadStateFromFile σ) = ([], Returned σ' VNull)
    ∧ match bound_project (this σ) with
      | Some pr =>
          message e = "Missing vueInstance.$tera.project.id"
          ∧ σ' = (if Project.temp pr is Some _ then σ else assign_temp ∅ σ)
      | None => message e = "Missing vueInstance.$tera.project" ∧ σ' = σ
      end.
Proof.
  intros Hid.
  unfold loadStateFromFile, load_attempt, load_failed, getStorageFileName,
    await_async, completion, try_catch, bind, throw, ret, modify, lift.
  destruct (bound_project (this σ)) as [pr|] eqn:Hpr.
  - rewrite Hid. destruct (Project.temp pr) eqn:Htemp; cbn;
      eexists _, _; repeat split.
  - cbn. eexists _, _. repeat split.
Qed.
End locator_errors.

Lemma locator_needs_project_witness :
  ∃ σ' (e : Error),
    run host_ok (getStorageFileName (H:=demo_runtime) fresh_world)
    = ([], Thrown σ' e)
    ∧ run host_ok (loadStateFromFile (H:=demo_runtime) fresh_world)
      = ([], Returned σ' VNull).
Proof.
  destruct (locator_needs_project (H:=demo_runtime) fresh_world host_ok I)
    as (σ' & e & Hname & Hload & _).
  by exists σ', e.
Defined.

(** ** Initialization, as far as it can fail *)

Section init_failures.
Context `{Runtime}.

Lemma initialize_throws σ :
  safe rely_any throws_only_on_show [] (initialize σ).
Proof.
  unfold initialize.
  destruct (negb (teraReady (this σ)) || _) eqn:Hguard; [done|].
  apply orb_false_iff in Hguard as [_ Hbound%negb_false_iff].
  apply bool_decide_eq_true in Hbound as [t Ht].
  unfold bound_tera in Ht.
  destruct (vueInstance (this σ)) as [vi|] eqn:Hvi; [|done].
  apply safe_bind. unfold the_tera. rewrite Hvi, Ht. cbn.
  apply safe_bind.
  destruct (has_uiProgress t); cbn.
  - split; [done|]. intros [[]|e] σ1 _; cbn; [|done].
    eapply safe_mono; [|apply (safe_catch_all rely_any _ _ tt)].
    by intros tr1 [| |].
  - eapply safe_mono; [|apply (safe_catch_all rely_any _ _ tt)].
    by intros tr1 [| |].
Qed.

(** X22.  [initialize] swallows every failure but one: it throws only
    when the host rejects its first call, the display of the loading
    indicator, and then it throws that rejection.  [setTeraReady] throws
    in two cases only: at once, with the validation error and the state
    unchanged, when the binding is not valid; and, through [initialize],
    when that first call is rejected. *)
Theorem setTeraReady_failures σ0 :
  safe rely_any throws_only_on_show [] (initialize σ0)
  ∧ safe rely_any (setTeraReady_throws σ0) [] (setTeraReady σ0).
Proof.
  split; [apply initialize_throws|].
  unfold setTeraReady. apply safe_bind. unfold gets. cbn.
  destruct (validateVueInstance (vueInstance (this σ0))) as [e|[]] eqn:Hvalid;
    cbn.
  { left. split; [done|]. split; [done|]. by exists e. }
  apply safe_await_async.
  eapply safe_mono; [|apply initialize_throws].
  intros tr [σ w|σ u|σ e]; simpl; try done.
  intros ->. split; [done|]. intros σ2 _. by right.
Qed.

Lemma initialize_attempt_calls tr σ :
  existsb is_read tr = false →
  safe rely_any
    (λ tr' p,
       match p with
       | Suspended _ (Calling c) =>
           match c with
           | SetProjectFileContents _ _ | UiProgress (ProgressShow _) => False
           | GetProjectFileContents _ => existsb is_read tr' = false
           | _ => True
           end
       | _ => True
       end) tr (initialize_attempt σ).
Proof.
  intros Htr. unfold initialize_attempt.
  do 2 apply safe_modify.
  apply safe_bind, safe_await_async.
  eapply safe_mono; [|by apply (loadStateFromFile_shape rely_any tr)].
  intros tr' [σ1 [R c|]|σ1 v|σ1 e]; simpl; try done.
  - intros [Hread Hc]. by destruct c.
  - intros _. split; [done|]. intros σ2 _.
    unfold await_async. repeat exec_step; done.
Qed.

(** X23.  [initialize] never writes the contents of a file.  It shows
    the loading indicator only before any other call; its other calls
    resolve the locator, read the file — at most once — and dismiss the
    indicator. *)
Theorem initialize_calls σ0 :
  safe rely_any init_calls [] (initialize σ0).
Proof.
  unfold initialize.
  destruct (negb (teraReady (this σ0)) || _) eqn:Hguard; [done|].
  apply orb_false_iff in Hguard as [_ Hbound%negb_false_iff].
  apply bool_decide_eq_true in Hbound as [t Ht].
  unfold bound_tera in Ht.
  destruct (vueInstance (this σ0)) as [vi|] eqn:Hvi; [|done].
  assert (Hattempt : ∀ tr σ, existsb is_read tr = false →
            safe rely_any init_calls tr
              (catch_step (initialize_attempt σ) (λ error, ret tt))).
  { intros tr σ Htr. apply safe_catch_step.
    eapply safe_mono; [|by apply initialize_attempt_calls].
    intros tr1 [σ1 [R c|]|σ1 u|σ1 e]; simpl; try done.
    by destruct c as [| | |[]| |]. }
  apply safe_bind. unfold the_tera. rewrite Hvi, Ht. cbn.
  apply safe_bind.
  destruct (has_uiProgress t); cbn.
  - split; [done|]. intros [[]|e] σ1 _; cbn; [|done].
    by apply Hattempt.
  - by apply Hattempt.
Qed.
End init_failures.

(** ** Initialization, when nothing else runs *)

Section init_set_up.
Context `{Runtime}.

Lemma same_binding_refl σ : same_binding σ σ.
Proof. done. Qed.

Lemma same_binding_trans σ1 σ2 σ3 :
  same_binding σ1 σ2 → same_binding σ2 σ3 → same_binding σ1 σ3.
Proof. intros [? ?] [? ?]. split; congruence. Qed.

Lemma same_binding_update status σ : same_binding σ (updateSaveStatus status σ).
Proof. unfold updateSaveStatus. by destruct (syncStatusStore (this σ)). Qed.

Lemma same_binding_create σ : same_binding σ (createSyncStatusStore σ).
Proof.
  unfold createSyncStatusStore.
  destruct (__pinia (window σ)); [|done].
  by destruct (syncStatusStore (this σ)).
Qed.

Lemma same_binding_tracking σ : same_binding σ (setupStateChangeTracking σ).
Proof. unfold setupStateChangeTracking. by destruct (__pinia (window σ)). Qed.

Lemma same_binding_changed σ : same_binding σ (storeChanged σ).
Proof.
  unfold storeChanged. case_decide; [done|]. apply same_binding_update.
Qed.

Lemma same_binding_patch storeId storeState σ :
  same_binding σ (patchStore storeId storeState σ).
Proof.
  unfold patchStore.
  destruct (__pinia (window σ)) as [pinia|]; [|done].
  destruct (_s pinia !! storeId) as [store|]; [|done].
  destruct (tracked store); [|done].
  eapply same_binding_trans; [|apply same_binding_changed]. done.
Qed.

Lemma same_binding_stores loadedState σ :
  same_binding σ (initializeStores loadedState σ).
Proof.
  unfold initializeStores.
  destruct (negb (truthy loadedState)); [done|].
  destruct (__pinia (window σ)); [|done].
  generalize (entries loadedState). intros l.
  assert (∀ σ', same_binding σ σ' →
            same_binding σ (foldl (λ σ entry, patchStore entry.1 entry.2 σ) σ' l))
    as Hfold; [|by apply Hfold].
  induction l as [|entry l IH]; intros σ' Hσ'; simpl; [done|].
  apply IH. eapply same_binding_trans; [exact Hσ'|apply same_binding_patch].
Qed.

(** The state once the load has been dealt with, whatever it gave. *)
Lemma same_binding_loaded fileData σ :
  same_binding σ
    (on_this (set_initialized true)
       (if truthy fileData
        then updateSaveStatus SAVED (initializeStores fileData σ)
        else updateSaveStatus UNSAVED σ)).
Proof.
  eapply same_binding_trans; [|done].
  destruct (truthy fileData).
  - eapply same_binding_trans;
      [apply same_binding_stores|apply same_binding_update].
  - apply same_binding_update.
Qed.

Lemma setupAutoSave_frame σ :
  config (this (setupAutoSave σ)) = config (this σ)
  ∧ initialized (this (setupAutoSave σ)) = initialized (this σ)
  ∧ hasShownInitialAlert (this (setupAutoSave σ)) = hasShownInitialAlert (this σ)
  ∧ keydownListener (window (setupAutoSave σ)) = keydownListener (window σ)
  ∧ beforeunloadListener (window (setupAutoSave σ))
    = beforeunloadListener (window σ).
Proof.
  unfold setupAutoSave.
  destruct (Config.autoSaveIntervalMinutes (config (this σ)) <=? 0)%Z; [done|].
  cbn. unfold clearInterval. by destruct (autoSaveInterval (this σ)).
Qed.

Lemma setupAutoSave_live σ :
  (0 < Config.autoSaveIntervalMinutes (config (this σ)))%Z →
  ∃ h, autoSaveInterval (this (setupAutoSave σ)) = Some h
       ∧ intervals (window (setupAutoSave σ)) !! h
         = Some (Config.autoSaveIntervalMinutes (config (this σ)) * 60 * 1000)%Z.
Proof.
  intros Hpos%Z.leb_gt. unfold setupAutoSave. rewrite Hpos. cbn.
  eexists. split; [done|]. by rewrite lookup_insert_eq.
Qed.

Lemma showInitialAlert_shown σ :
  config (this (showInitialAlert σ)) = config (this σ)
  ∧ initialized (this (showInitialAlert σ)) = initialized (this σ)
  ∧ (Config.showInitialAlert (config (this σ)) = true →
     hasShownInitialAlert (this (showInitialAlert σ)) = true).
Proof.
  unfold showInitialAlert.
  destruct (Config.showInitialAlert (config (this σ))) eqn:Hcfg; [|done].
  by destruct (hasShownInitialAlert (this σ)) eqn:Hs.
Qed.

Lemma registerHotkeys_registered σ :
  this (registerHotkeys σ) = this σ
  ∧ (Config.enableSaveHotkey (config (this σ)) = true →
     keydownListener (window (registerHotkeys σ)) = true).
Proof.
  unfold registerHotkeys.
  by destruct (Config.enableSaveHotkey (config (this σ))).
Qed.

Lemma setup_complete σ :
  initialized (this (setupAutoSave (registerBeforeUnload (registerHotkeys
                                      (showInitialAlert σ)))))
  = initialized (this σ)
  ∧ set_up_done (setupAutoSave (registerBeforeUnload (registerHotkeys
                                  (showInitialAlert σ)))).
Proof.
  pose proof (showInitialAlert_shown σ) as (Hc1 & Hi1 & Hs1).
  pose proof (registerHotkeys_registered (showInitialAlert σ)) as (Ht2 & Hk2).
  pose proof (setupAutoSave_frame
                (registerBeforeUnload (registerHotkeys (showInitialAlert σ))))
    as (Hc4 & Hi4 & Hs4 & Hk4 & Hb4).
  assert (this (registerBeforeUnload (registerHotkeys (showInitialAlert σ)))
          = this (showInitialAlert σ)) as Ht3 by exact Ht2.
  unfold set_up_done. rewrite Hc4, Hi4, Hs4, Hk4, Hb4, Ht3.
  split; [exact Hi1|]. split; [done|]. split; [|split].
  - intros Hkey. apply Hk2. exact Hkey.
  - rewrite Hc1. exact Hs1.
  - intros Hpos. rewrite <-Ht3 in Hpos.
    destruct (setupAutoSave_live _ Hpos) as (h & Hh & Hi).
    exists h. by rewrite <-Ht3.
Qed.
Lemma bound_tera_assign_temp m σ :
  is_Some (bound_tera (this σ)) → is_Some (bound_tera (this (assign_temp m σ))).
Proof.
  unfold bound_tera, assign_temp. cbn.
  destruct (vueInstance (this σ)) as [vi|]; cbn; [|done].
  by destruct (tera vi).
Qed.

Lemma stable_set_up σ0 :
  stable (λ σ, setup_view σ = setup_view σ0 ∧ is_Some (bound_tera (this σ))).
Proof.
  repeat split; try tauto.
  apply bound_tera_assign_temp. tauto.
Qed.

Lemma initialize_attempt_set_up σ0 tr σ :
  existsb is_read tr = false →
  setup_view σ = setup_view σ0 → is_Some (bound_tera (this σ)) →
  safe rely_quiet
    (λ tr' p,
       match p with
       | Suspended _ _ => True
       | Returned σ' _ => initialized (this σ') = true ∧ set_up_done σ'
       | Thrown σ' _ =>
           load_threw tr' = true
           ∨ (initialized (this σ') = true ∧ hide_failed tr' = true
              ∧ setup_view σ' = setup_view σ0)
       end) tr (initialize_attempt σ).
Proof.
  intros Htr Hview Hbound. unfold initialize_attempt.
  do 2 apply safe_modify.
  apply safe_bind, safe_await_async.
  eapply safe_mono;
    [|apply (loadStateFromFile_spec rely_quiet
               (λ σ, setup_view σ = setup_view σ0
                     ∧ is_Some (bound_tera (this σ))));
      [apply stable_set_up| | | |]].
  - intros tr' [σ1 w|σ1 v|σ1 e]; [done| |].
    2:{ intros [_ (R & c & r & err & Hlast & Hc & _)]. split; [done|].
        intros σ2 _. left. by apply (load_threw_last _ _ Hlast Hc). }
    intros [[Hview1 Hbound1] ->]. split; [done|]. intros σ2 ->.
    pose proof (same_binding_loaded (loaded tr') σ1) as [Hvi Hsame].
    unfold await_async. repeat exec_step.
    all: repeat match goal with
                | Hr : rely_quiet _ _ _ |- _ => unfold rely_quiet in Hr; subst
                end.
    all: cbn in Hvi.
    all: try (right; repeat split).
    all: try apply hide_failed_snoc.
    all: try apply setup_complete.
    all: try (rewrite (proj1 (setup_complete _)); reflexivity).
    all: try (rewrite Hsame; exact Hview1).
    all: try reflexivity.
    all: exfalso; unfold bound_tera in Hbound1; rewrite <-Hvi in Hbound1.
    all: repeat match goal with
                | Hx : vueInstance _ = _ |- _ => rewrite Hx in Hbound1
                | Hx : tera _ = _ |- _ => rewrite Hx in Hbound1
                end.
    all: by destruct Hbound1.
  - by intros w σ1 σ2 ->.
  - intros status σ1 [Hv Hb]. unfold updateSaveStatus.
    by destruct (syncStatusStore (this σ1)).
  - done.
  - destruct (same_binding_trans _ _ _ (same_binding_create σ)
                (same_binding_tracking _)) as [Hv Hs].
    split; [by rewrite Hs|]. unfold bound_tera. by rewrite Hv.
Qed.

(** X24.  When nothing else runs meanwhile, an [initialize] that passes
    its guard and returns, its load not having thrown (no call of the
    load was rejected with a value whose message cannot be read), leaves
    the plugin marked initialized; and the set-up is then complete —
    unload listener, hotkey listener, notice and auto-save timer, each
    as configured — unless the host rejected the dismissal of the
    loading indicator, in which case no listener is registered, no timer
    started and no notice issued. *)
Theorem initialize_sets_up σ0 :
  teraReady (this σ0) = true →
  is_Some (bound_tera (this σ0)) →
  safe rely_quiet (initialized_and_set_up σ0) [] (initialize σ0).
Proof.
  intros Hready [t Ht]. unfold initialize.
  rewrite Hready, Ht. cbn.
  unfold bound_tera in Ht.
  destruct (vueInstance (this σ0)) as [vi|] eqn:Hvi; [|done].
  assert (is_Some (bound_tera (this σ0))) as Hbound.
  { unfold bound_tera. rewrite Hvi, Ht. by eexists. }
  assert (Hattempt : ∀ tr, existsb is_read tr = false →
            safe rely_quiet
              (λ tr' p,
                 match p with
                 | Returned σ a => initialized_and_set_up σ0 tr' (Returned σ a)
                 | Thrown σ e =>
                     safe rely_quiet (initialized_and_set_up σ0) tr' (ret tt σ)
                 | Suspended σ w => initialized_and_set_up σ0 tr' (Suspended σ w)
                 end) tr (initialize_attempt σ0)).
  { intros tr Htr.
    eapply safe_mono; [|by apply (initialize_attempt_set_up σ0 tr σ0)].
    intros tr1 [σ w|σ u|σ e]; simpl; [done| |].
    - intros [Hi Hdone] _. split; [done|]. by left.
    - intros [Hthrew|(Hi & Hfail & Hview)] Hno; [congruence|].
      split; [done|]. by right. }
  apply safe_bind. unfold the_tera. rewrite Hvi, Ht. cbn.
  apply safe_bind.
  destruct (has_uiProgress t); cbn.
  - split; [done|]. intros [[]|e] σ1 ->; cbn; [|done].
    apply safe_catch_step. by apply Hattempt.
  - apply safe_catch_step. by apply Hattempt.
Qed.
End init_set_up.

Lemma initialize_sets_up_witness :
  teraReady (this (ready_world demo_temp)) = true
  ∧ is_Some (bound_tera (this (ready_world demo_temp)))
  ∧ safe rely_quiet (initialized_and_set_up (ready_world demo_temp)) []
      (initialize (H:=demo_runtime) (ready_world demo_temp)).
Proof.
  split; [reflexivity|]. split; [by eexists|].
  apply initialize_sets_up; [reflexivity|by eexists].
Defined.

(** ** The status reported and the status shown *)

Lemma status_agrees_frame σ σ' :
  syncStatusStore (this σ') = syncStatusStore (this σ) →
  saveStatus (this σ') = saveStatus (this σ) →
  status_agrees σ → status_agrees σ'.
Proof. unfold status_agrees. by intros -> ->. Qed.

Lemma status_agrees_update status σ :
  status_agrees σ → status_agrees (updateSaveStatus status σ).
Proof.
  unfold status_agrees, updateSaveStatus.
  destruct (syncStatusStore (this σ)) eqn:Hs; cbn; [done|]. by rewrite Hs.
Qed.

Lemma status_agrees_changed σ : status_agrees σ → status_agrees (storeChanged σ).
Proof.
  unfold storeChanged. case_decide; [done|]. apply status_agrees_update.
Qed.

Lemma status_agrees_cleanup σ : status_agrees σ → status_agrees (cleanup σ).
Proof.
  apply status_agrees_frame; unfold cleanup;
    by destruct (autoSaveInterval (this σ)).
Qed.

Lemma stable_agrees : stable status_agrees.
Proof. repeat split; intros σ ?; by apply status_agrees_frame. Qed.

Section agreement.
Context `{Runtime}.

Lemma saveStateToFile_agrees state tr σ :
  status_agrees σ →
  safe rely_agrees always_agrees tr (saveStateToFile state σ).
Proof.
  intros Hσ. unfold saveStateToFile.
  destruct (saveInProgress (this σ)); [done|].
  assert (Hrely : ∀ w σ1 σ2, rely_agrees w σ1 σ2 →
                             status_agrees σ1 → status_agrees σ2)
    by (intros w σ1 σ2 Hr; exact Hr).
  apply safe_try_finally, safe_try_catch.
  eapply safe_mono;
    [|apply (save_attempt_keeps rely_agrees status_agrees);
      [apply stable_agrees|exact Hrely|apply status_agrees_update|done]].
  intros tr' [σ1 w|σ1 a|σ1 e] [HI Hw]; simpl in *; [done| |].
  - eapply safe_mono;
      [|by apply (save_cleanup_keeps rely_agrees status_agrees)].
    by intros tr'' [| |].
  - unfold save_failed. cbn.
    eapply safe_mono;
      [|apply (save_cleanup_keeps rely_agrees status_agrees);
        [exact Hrely|by apply status_agrees_update]].
    by intros tr'' [| |].
Qed.

Lemma loadStateFromFile_agrees tr σ :
  existsb is_read tr = false → status_agrees σ →
  safe rely_agrees always_agrees tr (loadStateFromFile σ).
Proof.
  intros Htr Hσ.
  eapply safe_mono;
    [|apply (loadStateFromFile_spec rely_agrees status_agrees);
      [apply stable_agrees| |apply status_agrees_update|done..]].
  - intros tr' [σ1 w|σ1 v|σ1 e]; unfold always_agrees; simpl; tauto.
  - intros w σ1 σ2 Hr. exact Hr.
Qed.

Lemma saveAllStores_agrees tr σ :
  status_agrees σ → safe rely_agrees always_agrees tr (saveAllStores σ).
Proof.
  intros Hσ. unfold saveAllStores.
  destruct (__pinia (window σ)); [|done].
  apply safe_await_async.
  eapply safe_mono; [|by apply saveStateToFile_agrees].
  intros tr' [σ1 w|σ1 a|σ1 e]; unfold always_agrees; simpl; [done| |].
  - intros Hσ1. split; [done|]. intros σ2 Hr. by apply Hr.
  - intros Hσ1. split; [done|]. intros σ2 Hr. by apply Hr.
Qed.

(** X25.  The status [getSaveStatus] reports and the status the status
    store shows are the same: the agreement holds for a plugin as
    constructed (with no store yet, the status is [SAVED]), and it is
    kept by [setVueInstance], by [destroy], by a change notification,
    and, at each point they reach and however the host answers, by
    [saveState], by a save and by a load.  (Initialization is not
    covered: it takes the status store from Pinia and patches the stores
    the document names.) *)
Theorem status_always_agrees σ0 :
  (∀ cfg p w, constructor cfg = inr p →
              status_agrees {| this := p; window := w |})
  ∧ (status_agrees σ0 →
     (∀ instance, status_agrees (setVueInstance instance σ0))
     ∧ status_agrees (destroy σ0)
     ∧ status_agrees (storeChanged σ0)
     ∧ safe rely_agrees always_agrees [] (saveState σ0)
     ∧ (∀ state, safe rely_agrees always_agrees [] (saveStateToFile state σ0))
     ∧ safe rely_agrees always_agrees [] (loadStateFromFile σ0)).
Proof.
  split.
  { intros cfg p w Hp. unfold constructor in Hp.
    destruct (validateConfig cfg); [done|]. by injection Hp as <-. }
  intros Hσ. repeat split.
  - intros instance. by apply (status_agrees_frame σ0).
  - by apply status_agrees_cleanup.
  - by apply status_agrees_changed.
  - unfold saveState. apply safe_await_async.
    eapply safe_mono; [|by apply saveAllStores_agrees].
    intros tr [σ w|σ u|σ e]; unfold always_agrees; simpl; [done| |].
    + intros Hσ1. split; [done|]. intros σ2 Hr. by apply Hr.
    + intros Hσ1. split; [done|]. intros σ2 Hr. by apply Hr.
  - intros state. by apply saveStateToFile_agrees.
  - by apply loadStateFromFile_agrees.
Qed.
End agreement.

Lemma status_always_agrees_witness :
  status_agrees (ready_world demo_temp)
  ∧ safe rely_agrees always_agrees []
      (loadStateFromFile (H:=demo_runtime) (ready_world demo_temp))
  ∧ safe rely_agrees always_agrees []
      (saveState (H:=demo_runtime) (ready_world demo_temp)).
Proof.
  pose proof (status_always_agrees (H:=demo_runtime) (ready_world demo_temp))
    as [_ Hall].
  assert (status_agrees (ready_world demo_temp)) as Hσ by reflexivity.
  destruct (Hall Hσ) as (_ & _ & _ & Hsave & _ & Hload).
  split; [exact Hσ|]. split; [exact Hload|exact Hsave].
Defined.

(** ** The event handlers *)

Section handlers_extras.
Context `{Runtime}.

Lemma saveAllStores_dropped σ :
  saveInProgress (this σ) = true → safe rely_any dropped [] (saveAllStores σ).
Proof.
  intros Hguard. unfold saveAllStores.
  destruct (__pinia (window σ)); [|done].
  apply safe_await_async. by rewrite saveStateToFile_rejected.
Qed.

(** X26.  While a save is in flight, a save requested by the hotkey or
    by the auto-save timer is dropped, not queued: it makes no host call
    and resolves to [false].  A key that starts a save has the browser's
    default action prevented, also when the save is dropped; a key that
    starts none is left as it is. *)
Theorem triggers_dropped_while_saving σ ev :
  saveInProgress (this σ) = true →
  (∀ task, (handleKeyDown ev σ).2 = Some task → safe rely_any dropped [] task)
  ∧ (∀ task, autoSaveTick σ = Some task → safe rely_any dropped [] task)
  ∧ (is_Some (handleKeyDown ev σ).2 →
     KeyboardEvent.defaultPrevented (handleKeyDown ev σ).1 = true)
  ∧ ((handleKeyDown ev σ).2 = None → (handleKeyDown ev σ).1 = ev).
Proof.
  intros Hguard. split; [|split; [|split]].
  - intros task. unfold handleKeyDown. destruct (_ && _); [|done].
    intros [= <-]. by apply saveAllStores_dropped.
  - intros task. unfold autoSaveTick. case_decide; [|done].
    intros [= <-]. by apply saveAllStores_dropped.
  - unfold handleKeyDown. destruct (_ && _); [done|]. by intros [? ?].
  - unfold handleKeyDown. by destruct (_ && _).
Qed.

(** *** Leaving the page around a save *)

Lemma save_attempt_saving state tr σ :
  is_Some (syncStatusStore (this σ)) →
  safe rely_notified
    (λ _ p,
       match p with
       | Suspended σ' w => saveStatus (this σ') = SAVING ∧ is_hide w = false
       | _ => True
       end) tr (save_attempt state σ).
Proof.
  intros Hstore. unfold save_attempt.
  repeat exec_step.
  all: try resolver_call
         (λ σ, is_Some (syncStatusStore (this σ)) ∧ saveStatus (this σ) = SAVING)
         (λ _ : list event, True).
  all: try (intros tr' [σ1 w|σ1 a|σ1 e] [[HI' Hw] HT]; repeat exec_step).
  all: repeat match goal with
              | Hr : rely_notified _ _ _ |- _ =>
                  apply notified_while_saving_eq in Hr; subst
              end.
  all: cbn in *.
  all: try by (intros ? ? ? Hr; apply notified_while_saving_eq in Hr as ->).
  all: try (repeat split; intros [p w]; cbn; tauto).
  all: repeat split;
    auto using updateSaveStatus_store, updateSaveStatus_status; try tauto.
Qed.

Lemma handleBeforeUnload_quiet ev σ :
  (handleBeforeUnload ev σ).2 = None ↔ saveStatus (this σ) ≠ UNSAVED.
Proof. unfold handleBeforeUnload. by case_decide. Qed.

Lemma autoSaveTick_idle σ : autoSaveTick σ = None ↔ saveStatus (this σ) = SAVED.
Proof.
  unfold autoSaveTick. case_decide as Hs.
  - split; [done|]. by intros ?.
  - split; [|done]. intros _.
    destruct (saveStatus (this σ)); [done|by destruct Hs..].
Qed.

(** X27.  When nothing changes the status while a save is suspended
    (a store-change notification that arrives while the status is
    [SAVING] changes nothing): while an accepted save is under way —
    from its first call until it starts dismissing the progress
    indicator — the page can be left without the unsaved-changes
    warning; once the save has returned, the warning is given, and the
    next tick of the auto-save timer starts a save, exactly when the
    save failed. *)
Theorem unload_warning_around_save state σ0 :
  saveInProgress (this σ0) = false →
  is_Some (syncStatusStore (this σ0)) →
  safe rely_notified unload_warning [] (saveStateToFile state σ0).
Proof.
  intros Hfree Hstore. unfold saveStateToFile. rewrite Hfree.
  assert (Hcleanup : ∀ tr σ (b : bool),
             (saveStatus (this σ) ≠ UNSAVED ↔ b = true)
             ∧ (saveStatus (this σ) = SAVED ↔ b = true) →
             safe rely_notified
               (λ tr' p, match p with
                         | Suspended σ' w => unload_warning tr' (Suspended σ' w)
                         | Returned σ' _ => unload_warning tr' (Returned σ' b)
                         | Thrown σ' e' => unload_warning tr' (Thrown σ' e')
                         end) tr (save_cleanup σ)).
  { intros tr σ b [Hb Hb'].
    eapply safe_mono;
      [|apply safe_and; [apply save_cleanup_hides|apply save_cleanup_status]].
    intros tr' [σ' w|σ' u|σ' e]; simpl; [|intros [_ [Hs _]]|done].
    - intros [Hw _]. congruence.
    - split.
      + intros ev. by rewrite handleBeforeUnload_quiet, Hs.
      + by rewrite autoSaveTick_idle, Hs. }
  apply safe_try_finally, safe_try_catch.
  eapply safe_mono;
    [|apply safe_and;
      [by apply (save_attempt_outcome state [] σ0)
      |by apply (save_attempt_saving state [] σ0)]].
  intros tr' [σ w|σ a|σ e]; simpl.
  - intros [_ [Hs _]] _ ev. apply handleBeforeUnload_quiet. by rewrite Hs.
  - intros [(-> & _ & Hs) _]. apply Hcleanup. by rewrite Hs.
  - intros [[_ Hs] _]. unfold save_failed. cbn. apply Hcleanup.
    rewrite updateSaveStatus_status by done.
    split; (split; [done|discriminate]).
Qed.
End handlers_extras.

Lemma triggers_dropped_while_saving_witness :
  saveInProgress (this saving_world) = true
  ∧ (∃ task, autoSaveTick (H:=demo_runtime) saving_world = Some task
             ∧ safe rely_any dropped [] task)
  ∧ (∃ task,
       (handleKeyDown (H:=demo_runtime)
          {| KeyboardEvent.ctrlKey := true; KeyboardEvent.metaKey := false;
             KeyboardEvent.key := "s";
             KeyboardEvent.defaultPrevented := false |} saving_world).2
       = Some task
       ∧ safe rely_any dropped [] task).
Proof.
  split; [reflexivity|].
  destruct (triggers_dropped_while_saving (H:=demo_runtime) saving_world
              {| KeyboardEvent.ctrlKey := true; KeyboardEvent.metaKey := false;
                 KeyboardEvent.key := "s";
                 KeyboardEvent.defaultPrevented := false |} eq_refl)
    as (Hkey & Htick & _).
  split.
  - exists (saveAllStores (H:=demo_runtime) saving_world).
    split; [reflexivity|]. by apply Htick.
  - exists (saveAllStores (H:=demo_runtime) saving_world).
    split; [reflexivity|]. by apply Hkey.
Defined.

Lemma unload_warning_around_save_witness :
  saveInProgress (this (ready_world demo_temp)) = false
  ∧ is_Some (syncStatusStore (this (ready_world demo_temp)))
  ∧ safe rely_notified (unload_warning (H:=demo_runtime)) []
      (saveStateToFile (H:=demo_runtime) demo_state (ready_world demo_temp)).
Proof.
  split; [reflexivity|]. split; [by eexists|].
  apply unload_warning_around_save; [reflexivity|by eexists].
Defined.

(** ** Saved, then restored *)


Section restore.
Context `{Runtime}.

End restore.

